(** * tadashi: schedule-tree transformations, legality check and session state

    A shallow embedding of the C sources of tadashi
    ([transformations.c], the legality check of [tadashi.c] and the
    C side of the Python binding, [ctadashi]) together with the
    properties of the transformation protocol that are proved about them.

    The code drives the polyhedral library isl.  isl objects are modelled by
    what they denote, restricted to finitely enumerated sets where a set has
    to be walked: a set is a list of integer points of a named space (or the
    whole space), a piecewise affine expression is a function on such a set,
    a union map is a finite list of pairs of points, a schedule node is a
    schedule tree with the path from its root to the node.  A handle that C
    holds as a pointer that may be NULL is an [option]; every isl function
    returns NULL when one of its arguments is NULL. *)

From Stdlib Require Import String ZArith List Bool Lia Permutation.
Import ListNotations.
Local Open Scope Z_scope.
Set Warnings "-register-all".

(** ** NULL propagation and assertion failure *)

Notation "'do' x <- e ; k" :=
  (match e with Some x => k | None => None end)
  (at level 10, x name, e at level 100, k at level 200).

(** A call either returns or stops the process on a failed [assert]. *)
Inductive outcome (A : Type) : Type :=
| Returns (a : A)
| Aborts.
Arguments Returns {A} a.
Arguments Aborts {A}.

Definition option_eqb {A} (eqb : A -> A -> bool) (x y : option A) : bool :=
  match x, y with
  | Some a, Some b => eqb a b
  | None, None => true
  | _, _ => false
  end.

Fixpoint list_eqb {A} (eqb : A -> A -> bool) (l1 l2 : list A) : bool :=
  match l1, l2 with
  | [], [] => true
  | a :: l1', b :: l2' => eqb a b && list_eqb eqb l1' l2'
  | _, _ => false
  end.

(** An integer of a wider type, a [long] or a [size_t], that is passed where
    an [int] is expected is reduced modulo [2^32] into the range of [int]. *)
Definition to_int (z : Z) : Z := (z + 2 ^ 31) mod 2 ^ 32 - 2 ^ 31.

(** ** The polyhedral kernel (isl) *)

Module Isl.

Definition isl_id := string.

(** [isl_size] is an [int]; a negative value reports an error. *)
Definition isl_size := Z.
Definition isl_size_error : isl_size := -1.

Inductive isl_bool := isl_bool_error | isl_bool_false | isl_bool_true.

(** The value of an [isl_bool] read as a C [int]. *)
Definition isl_bool_to_int (b : isl_bool) : Z :=
  match b with
  | isl_bool_error => -1
  | isl_bool_false => 0
  | isl_bool_true => 1
  end.

(** The options of an [isl_ctx] that the transformations read. *)
Record isl_ctx := {
  tile_scale_tile_loops : bool;
  tile_shift_point_loops : bool
}.

(** A freshly allocated context has isl's defaults: both tiling options on. *)
Definition isl_ctx_alloc_with_pet_options : isl_ctx :=
  {| tile_scale_tile_loops := true; tile_shift_point_loops := true |}.

(** *** Spaces, points and sets *)

(** A tuple of a space: its optional identifier and the optional identifiers
    of its dimensions. *)
Record isl_tuple := {
  tuple_name : option isl_id;
  tuple_dim_ids : list (option isl_id)
}.

(** A set space has an output tuple only; a map space has an input tuple
    as well. *)
Record isl_space := {
  space_in : option isl_tuple;
  space_out : isl_tuple
}.

Definition set_space_of (name : option isl_id) (dim_ids : list (option isl_id))
  : isl_space :=
  {| space_in := None;
     space_out := {| tuple_name := name; tuple_dim_ids := dim_ids |} |}.

Definition space_tuple_name (s : isl_space) : option isl_id :=
  tuple_name (space_out s).

Definition isl_space_dim (s : isl_space) : nat :=
  length (tuple_dim_ids (space_out s)).

Definition tuple_is_equal (t1 t2 : isl_tuple) : bool :=
  option_eqb String.eqb (tuple_name t1) (tuple_name t2)
  && Nat.eqb (length (tuple_dim_ids t1)) (length (tuple_dim_ids t2)).

(** Two spaces are equal when their tuples have the same identifiers and the
    same numbers of dimensions; the names of the dimensions play no role. *)
Definition isl_space_is_equal (s1 s2 : isl_space) : bool :=
  option_eqb tuple_is_equal (space_in s1) (space_in s2)
  && tuple_is_equal (space_out s1) (space_out s2).

(** A point of a union set or union map: the tuple it belongs to and its
    coordinates.  Schedule points live in an anonymous tuple. *)
Record isl_point := {
  pt_tuple : option isl_id;
  pt_coords : list Z
}.

Definition isl_point_eqb (p q : isl_point) : bool :=
  option_eqb String.eqb (pt_tuple p) (pt_tuple q)
  && list_eqb Z.eqb (pt_coords p) (pt_coords q).

(** A point lives in a set space with its tuple identifier and its number
    of coordinates. *)
Definition point_in_space (s : isl_space) (p : isl_point) : bool :=
  match space_in s with None => true | Some _ => false end
  && option_eqb String.eqb (space_tuple_name s) (pt_tuple p)
  && Nat.eqb (isl_space_dim s) (length (pt_coords p)).

Inductive isl_points :=
| Universe
| Points (ps : list (list Z)).

Record isl_set := {
  set_space : isl_space;
  set_points : isl_points
}.

Definition coords_in (pts : isl_points) (c : list Z) : bool :=
  match pts with
  | Universe => true
  | Points ps => existsb (list_eqb Z.eqb c) ps
  end.

Definition isl_set_contains (s : isl_set) (p : isl_point) : bool :=
  point_in_space (set_space s) p && coords_in (set_points s) (pt_coords p).

(** One set per space, in the order in which the kernel lists them. *)
Definition isl_union_set := list isl_set.

Definition isl_union_set_contains (u : isl_union_set) (p : isl_point) : bool :=
  existsb (fun s => isl_set_contains s p) u.

Definition isl_set_get_space (set : option isl_set) : option isl_space :=
  option_map set_space set.

Definition isl_set_get_ctx (set : option isl_set) : option unit :=
  do _ <- set; Some tt.

Definition isl_set_list := list isl_set.

(** isl lists the sets of a union set in an order of its own, which need
    not be the same for two union sets over the same spaces: a position in
    the list names a set within one listing only.  The model lists them in
    the order of the list that stands for the union set. *)
Definition isl_union_set_get_set_list (u : option isl_union_set)
  : option isl_set_list := u.

Definition isl_set_list_n_set (l : option isl_set_list) : isl_size :=
  match l with
  | Some l => Z.of_nat (length l)
  | None => isl_size_error
  end.

Definition isl_set_list_get_at (l : option isl_set_list) (index : Z)
  : option isl_set :=
  do l <- l;
  if index <? 0 then None else nth_error l (Z.to_nat index).

(** *** Piecewise affine expressions *)

(** A piecewise affine expression on one space: its domain and its value
    at the coordinates of a point of the domain. *)
Record isl_pw_aff := {
  pa_domain : isl_set;
  pa_aff : list Z -> Z
}.

Definition isl_pw_aff_eval (pa : isl_pw_aff) (p : isl_point) : option Z :=
  if isl_set_contains (pa_domain pa) p then Some (pa_aff pa (pt_coords p))
  else None.

(** One piecewise affine expression per space. *)
Definition isl_union_pw_aff := list isl_pw_aff.

Fixpoint isl_union_pw_aff_eval (upa : isl_union_pw_aff) (p : isl_point)
  : option Z :=
  match upa with
  | [] => None
  | pa :: upa' =>
      match isl_pw_aff_eval pa p with
      | Some v => Some v
      | None => isl_union_pw_aff_eval upa' p
      end
  end.

(** A tuple of union piecewise affine expressions with an optional
    identifier of the output tuple. *)
Record isl_multi_union_pw_aff := {
  mupa_tuple_id : option isl_id;
  mupa_list : list isl_union_pw_aff
}.

Definition isl_multi_union_pw_aff_dim (mupa : option isl_multi_union_pw_aff)
  : isl_size :=
  match mupa with
  | Some m => Z.of_nat (length (mupa_list m))
  | None => isl_size_error
  end.

Definition isl_multi_union_pw_aff_get_tuple_id
    (mupa : option isl_multi_union_pw_aff) : option isl_id :=
  do m <- mupa; mupa_tuple_id m.

Definition isl_multi_union_pw_aff_get_at
    (mupa : option isl_multi_union_pw_aff) (pos : nat)
  : option isl_union_pw_aff :=
  do m <- mupa; nth_error (mupa_list m) pos.

Definition isl_union_pw_aff_domain (upa : option isl_union_pw_aff)
  : option isl_union_set :=
  option_map (map pa_domain) upa.

Definition isl_union_pw_aff_empty_ctx {C} (ctx : option C)
  : option isl_union_pw_aff :=
  do _ <- ctx; Some [].

Definition isl_pw_aff_val_on_domain (domain : option isl_set) (v : option Z)
  : option isl_pw_aff :=
  do domain <- domain; do v <- v;
  Some {| pa_domain := domain; pa_aff := fun _ => v |}.

(** A context handle is used here only to allocate: what matters is that it
    is not NULL. *)
Definition isl_val_int_from_si {C} (ctx : option C) (i : Z) : option Z :=
  do _ <- ctx; Some i.

Definition points_is_empty (pts : isl_points) : bool :=
  match pts with
  | Universe => false
  | Points [] => true
  | Points (_ :: _) => false
  end.

Definition points_intersect (p1 p2 : isl_points) : isl_points :=
  match p1, p2 with
  | Universe, _ => p2
  | _, Universe => p1
  | Points a, Points b => Points (filter (coords_in p2) a)
  end.

Definition points_union (p1 p2 : isl_points) : isl_points :=
  match p1, p2 with
  | Points a, Points b => Points (a ++ b)
  | _, _ => Universe
  end.

(** [isl_union_pw_aff_add_pw_aff]: an expression with an empty domain adds
    nothing; an expression on a space not yet present is added after the
    others; on a space already present the two are merged when their domains
    are disjoint, and it is an error when they overlap. *)
Fixpoint add_part (upa : isl_union_pw_aff) (pa : isl_pw_aff)
  : option isl_union_pw_aff :=
  match upa with
  | [] => Some [pa]
  | q :: upa' =>
      if isl_space_is_equal (set_space (pa_domain q)) (set_space (pa_domain pa))
      then
        let dq := set_points (pa_domain q) in
        let dp := set_points (pa_domain pa) in
        if points_is_empty (points_intersect dq dp) then
          Some ({| pa_domain := {| set_space := set_space (pa_domain q);
                                   set_points := points_union dq dp |};
                   pa_aff := fun c => if coords_in dq c then pa_aff q c
                                      else pa_aff pa c |} :: upa')
        else None
      else do r <- add_part upa' pa; Some (q :: r)
  end.

Definition isl_union_pw_aff_add_pw_aff
    (upa : option isl_union_pw_aff) (pa : option isl_pw_aff)
  : option isl_union_pw_aff :=
  do upa <- upa; do pa <- pa;
  if points_is_empty (set_points (pa_domain pa)) then Some upa
  else add_part upa pa.

Definition isl_multi_union_pw_aff_from_union_pw_aff
    (upa : option isl_union_pw_aff) : option isl_multi_union_pw_aff :=
  do upa <- upa; Some {| mupa_tuple_id := None; mupa_list := [upa] |}.

Definition isl_multi_union_pw_aff_set_tuple_id
    (mupa : option isl_multi_union_pw_aff) (id : option isl_id)
  : option isl_multi_union_pw_aff :=
  do m <- mupa; do id <- id;
  Some {| mupa_tuple_id := Some id; mupa_list := mupa_list m |}.

(** The sum of two piecewise expressions lives on the points they share. *)
Definition isl_pw_aff_add (pa1 pa2 : isl_pw_aff) : isl_pw_aff :=
  {| pa_domain :=
       {| set_space := set_space (pa_domain pa1);
          set_points := points_intersect (set_points (pa_domain pa1))
                                         (set_points (pa_domain pa2)) |};
     pa_aff := fun c => pa_aff pa1 c + pa_aff pa2 c |}.

Definition find_part (upa : isl_union_pw_aff) (space : isl_space)
  : option isl_pw_aff :=
  find (fun q => isl_space_is_equal (set_space (pa_domain q)) space) upa.

(** [isl_union_pw_aff_add]: each expression of the first argument is summed
    with the expression of the second on the same space; where the second
    has none, or the shared domain is empty, the result has none. *)
Definition isl_union_pw_aff_add (upa1 upa2 : isl_union_pw_aff)
  : isl_union_pw_aff :=
  flat_map
    (fun pa1 =>
       match find_part upa2 (set_space (pa_domain pa1)) with
       | Some pa2 =>
           let r := isl_pw_aff_add pa1 pa2 in
           if points_is_empty (set_points (pa_domain r)) then [] else [r]
       | None => []
       end)
    upa1.

Fixpoint zip_with {A B C} (f : A -> B -> C) (l1 : list A) (l2 : list B)
  : list C :=
  match l1, l2 with
  | a :: l1', b :: l2' => f a b :: zip_with f l1' l2'
  | _, _ => []
  end.

(** The space of a multi expression: its tuple identifier and its number
    of output dimensions. *)
Definition isl_multi_union_pw_aff_get_space (m : isl_multi_union_pw_aff)
  : isl_space :=
  set_space_of (mupa_tuple_id m) (repeat None (length (mupa_list m))).

Definition isl_multi_union_pw_aff_add (m1 m2 : isl_multi_union_pw_aff)
  : option isl_multi_union_pw_aff :=
  if isl_space_is_equal (isl_multi_union_pw_aff_get_space m1)
                        (isl_multi_union_pw_aff_get_space m2)
  then Some {| mupa_tuple_id := mupa_tuple_id m1;
               mupa_list := zip_with isl_union_pw_aff_add
                                     (mupa_list m1) (mupa_list m2) |}
  else None.

(** The value of a multi expression at a point: one integer per output
    dimension, when every dimension is defined there. *)
Fixpoint eval_all (l : list isl_union_pw_aff) (p : isl_point)
  : option (list Z) :=
  match l with
  | [] => Some []
  | upa :: l' =>
      do v <- isl_union_pw_aff_eval upa p;
      do vs <- eval_all l' p;
      Some (v :: vs)
  end.

Definition isl_multi_union_pw_aff_eval (m : isl_multi_union_pw_aff)
    (p : isl_point) : option (list Z) :=
  eval_all (mupa_list m) p.

(** *** Multi values *)

Record isl_multi_val := {
  mv_space : isl_space;
  mv_list : list Z
}.

Definition isl_val_list_from_val (v : option Z) : option (list Z) :=
  do v <- v; Some [v].

(** The list must have one value per dimension of the space. *)
Definition isl_multi_val_from_val_list (space : option isl_space)
    (list : option (list Z)) : option isl_multi_val :=
  do space <- space; do list <- list;
  if Nat.eqb (length list) (isl_space_dim space)
  then Some {| mv_space := space; mv_list := list |}
  else None.

(** *** Union sets *)

Definition points_subset (p1 p2 : isl_points) : bool :=
  match p1, p2 with
  | _, Universe => true
  | Universe, Points _ => false
  | Points a, Points _ => forallb (coords_in p2) a
  end.

Definition find_set (u : isl_union_set) (space : isl_space) : option isl_set :=
  find (fun s => isl_space_is_equal (set_space s) space) u.

(** A union set holds one set per space. *)
Fixpoint distinct_spaces (u : isl_union_set) : bool :=
  match u with
  | [] => true
  | s :: u' =>
      forallb (fun s' => negb (isl_space_is_equal (set_space s) (set_space s')))
              u'
      && distinct_spaces u'
  end.

Definition isl_union_set_is_subset (u1 u2 : isl_union_set) : bool :=
  forallb
    (fun s1 =>
       points_is_empty (set_points s1)
       || match find_set u2 (set_space s1) with
          | Some s2 => points_subset (set_points s1) (set_points s2)
          | None => false
          end)
    u1.

Definition isl_union_set_intersect (u1 u2 : isl_union_set) : isl_union_set :=
  flat_map
    (fun s1 =>
       match find_set u2 (set_space s1) with
       | Some s2 =>
           let pts := points_intersect (set_points s1) (set_points s2) in
           if points_is_empty pts then []
           else [{| set_space := set_space s1; set_points := pts |}]
       | None => []
       end)
    u1.

(** The domain of a multi expression: the points on which every one of its
    dimensions is defined. *)
Definition isl_multi_union_pw_aff_domain (m : isl_multi_union_pw_aff)
  : isl_union_set :=
  match mupa_list m with
  | [] => []
  | upa :: l =>
      fold_left (fun d u => isl_union_set_intersect d (map pa_domain u))
                l (map pa_domain upa)
  end.

(** *** Bands *)

(** [enum isl_ast_loop_type], by the values of its enumerators. *)
Definition isl_ast_loop_type := Z.
Definition isl_ast_loop_error : isl_ast_loop_type := -1.
Definition isl_ast_loop_default : isl_ast_loop_type := 0.
Definition isl_ast_loop_atomic : isl_ast_loop_type := 1.
Definition isl_ast_loop_unroll : isl_ast_loop_type := 2.
Definition isl_ast_loop_separate : isl_ast_loop_type := 3.

Record isl_schedule_band := {
  band_mupa : isl_multi_union_pw_aff;
  band_permutable : bool;
  band_coincident : list bool;
  band_loop_type : list isl_ast_loop_type
}.

Definition isl_schedule_band_n_member (band : isl_schedule_band) : nat :=
  length (mupa_list (band_mupa band)).

(** A new band carries no annotation. *)
Definition isl_schedule_band_from_multi_union_pw_aff
    (mupa : isl_multi_union_pw_aff) : isl_schedule_band :=
  {| band_mupa := mupa;
     band_permutable := false;
     band_coincident := repeat false (length (mupa_list mupa));
     band_loop_type := repeat isl_ast_loop_default (length (mupa_list mupa)) |}.

Definition set_band_mupa (band : isl_schedule_band)
    (mupa : isl_multi_union_pw_aff) : isl_schedule_band :=
  {| band_mupa := mupa;
     band_permutable := band_permutable band;
     band_coincident := band_coincident band;
     band_loop_type := band_loop_type band |}.

Definition map_pw_aff (g : Z -> Z) (pa : isl_pw_aff) : isl_pw_aff :=
  {| pa_domain := pa_domain pa; pa_aff := fun c => g (pa_aff pa c) |}.

(** [isl_schedule_band_tile]: dimension [d] with tile size [v] becomes
    [floor(d / v)], multiplied by [v] when the context's option
    [tile_scale_tile_loops] is set. *)
Definition tile_loop (ctx : isl_ctx) (v d : Z) : Z :=
  if tile_scale_tile_loops ctx then v * (d / v) else d / v.

Definition isl_schedule_band_tile (ctx : isl_ctx) (band : isl_schedule_band)
    (sizes : isl_multi_val) : isl_schedule_band :=
  set_band_mupa band
    {| mupa_tuple_id := mupa_tuple_id (band_mupa band);
       mupa_list :=
         zip_with (fun upa v => map (map_pw_aff (tile_loop ctx v)) upa)
                  (mupa_list (band_mupa band)) (mv_list sizes) |}.

(** [isl_schedule_band_point]: when [tile_shift_point_loops] is set, the
    point loop of dimension [d] is [d] minus the start of its tile,
    [d - v * floor(d / v)]; otherwise it is [d] itself. *)
Definition point_loop (ctx : isl_ctx) (v d : Z) : Z :=
  if tile_shift_point_loops ctx then d - v * (d / v) else d.

Definition isl_schedule_band_point (ctx : isl_ctx) (band : isl_schedule_band)
    (sizes : isl_multi_val) : isl_schedule_band :=
  set_band_mupa band
    {| mupa_tuple_id := mupa_tuple_id (band_mupa band);
       mupa_list :=
         zip_with (fun upa v => map (map_pw_aff (point_loop ctx v)) upa)
                  (mupa_list (band_mupa band)) (mv_list sizes) |}.

(** [isl_schedule_band_shift]: the shift must be defined on the whole domain
    of the partial schedule and is then added to it. *)
Definition isl_schedule_band_shift (band : isl_schedule_band)
    (shift : isl_multi_union_pw_aff) : option isl_schedule_band :=
  if isl_union_set_is_subset (isl_multi_union_pw_aff_domain (band_mupa band))
                             (isl_multi_union_pw_aff_domain shift)
  then do m <- isl_multi_union_pw_aff_add (band_mupa band) shift;
       Some (set_band_mupa band m)
  else None.

(** *** Schedule trees *)

Inductive isl_schedule_tree :=
| LeafNode
| DomainNode (domain : isl_union_set) (child : isl_schedule_tree)
| ContextNode (context : isl_set) (child : isl_schedule_tree)
| BandNode (band : isl_schedule_band) (child : isl_schedule_tree)
| SequenceNode (children : list isl_schedule_tree)
| SetNode (children : list isl_schedule_tree)
| FilterNode (filter : isl_union_set) (child : isl_schedule_tree)
| MarkNode (mark : isl_id) (child : isl_schedule_tree).

Inductive isl_schedule_node_type :=
| isl_schedule_node_error
| isl_schedule_node_band
| isl_schedule_node_context
| isl_schedule_node_domain
| isl_schedule_node_filter
| isl_schedule_node_leaf
| isl_schedule_node_mark
| isl_schedule_node_sequence
| isl_schedule_node_set.

Definition isl_schedule_tree_get_type (t : isl_schedule_tree)
  : isl_schedule_node_type :=
  match t with
  | LeafNode => isl_schedule_node_leaf
  | DomainNode _ _ => isl_schedule_node_domain
  | ContextNode _ _ => isl_schedule_node_context
  | BandNode _ _ => isl_schedule_node_band
  | SequenceNode _ => isl_schedule_node_sequence
  | SetNode _ => isl_schedule_node_set
  | FilterNode _ _ => isl_schedule_node_filter
  | MarkNode _ _ => isl_schedule_node_mark
  end.

Definition tree_children (t : isl_schedule_tree) : list isl_schedule_tree :=
  match t with
  | LeafNode => []
  | DomainNode _ c | ContextNode _ c | BandNode _ c
  | FilterNode _ c | MarkNode _ c => [c]
  | SequenceNode cs | SetNode cs => cs
  end.

Fixpoint list_set {A} (l : list A) (i : nat) (a : A) : list A :=
  match l, i with
  | [], _ => []
  | _ :: l', O => a :: l'
  | b :: l', S i' => b :: list_set l' i' a
  end.

Definition tree_set_child (t : isl_schedule_tree) (i : nat)
    (c : isl_schedule_tree) : isl_schedule_tree :=
  match t with
  | LeafNode => LeafNode
  | DomainNode d _ => DomainNode d c
  | ContextNode x _ => ContextNode x c
  | BandNode b _ => BandNode b c
  | FilterNode f _ => FilterNode f c
  | MarkNode m _ => MarkNode m c
  | SequenceNode cs => SequenceNode (list_set cs i c)
  | SetNode cs => SetNode (list_set cs i c)
  end.

(** The subtree reached from [t] by a path of child positions. *)
Fixpoint tree_at (t : isl_schedule_tree) (path : list nat)
  : option isl_schedule_tree :=
  match path with
  | [] => Some t
  | i :: path' => do c <- nth_error (tree_children t) i; tree_at c path'
  end.

(** The tree [t] with the subtree at [path] replaced by [new]. *)
Fixpoint tree_graft (t : isl_schedule_tree) (path : list nat)
    (new : isl_schedule_tree) : option isl_schedule_tree :=
  match path with
  | [] => Some new
  | i :: path' =>
      do c <- nth_error (tree_children t) i;
      do c' <- tree_graft c path' new;
      Some (tree_set_child t i c')
  end.

(** A subtree is anchored when it holds a node that depends on its
    position in the tree; of the node types above, a context node. *)
Fixpoint isl_schedule_tree_is_subtree_anchored (t : isl_schedule_tree) : bool :=
  match t with
  | LeafNode => false
  | ContextNode _ _ => true
  | DomainNode _ c | BandNode _ c | FilterNode _ c | MarkNode _ c =>
      isl_schedule_tree_is_subtree_anchored c
  | SequenceNode cs | SetNode cs =>
      existsb isl_schedule_tree_is_subtree_anchored cs
  end.

(** *** Schedules and schedule nodes *)

Record isl_schedule := {
  schedule_ctx : isl_ctx;
  schedule_root : isl_schedule_tree
}.

(** A schedule node: the schedule it belongs to and the child positions that
    lead from the root to the node. *)
Record isl_schedule_node := {
  node_schedule : isl_schedule;
  node_path : list nat
}.

Definition node_tree (node : isl_schedule_node) : option isl_schedule_tree :=
  tree_at (schedule_root (node_schedule node)) (node_path node).

Definition node_parent_tree (node : isl_schedule_node)
  : option isl_schedule_tree :=
  tree_at (schedule_root (node_schedule node)) (removelast (node_path node)).

Definition isl_schedule_get_root (schedule : option isl_schedule)
  : option isl_schedule_node :=
  do s <- schedule; Some {| node_schedule := s; node_path := [] |}.

Definition isl_schedule_get_ctx (schedule : option isl_schedule)
  : option isl_ctx :=
  option_map schedule_ctx schedule.

Definition isl_schedule_node_get_schedule (node : option isl_schedule_node)
  : option isl_schedule :=
  option_map node_schedule node.

Definition isl_schedule_node_get_ctx (node : option isl_schedule_node)
  : option isl_ctx :=
  option_map (fun n => schedule_ctx (node_schedule n)) node.

Definition isl_schedule_node_copy (node : option isl_schedule_node)
  : option isl_schedule_node := node.

Definition isl_schedule_node_free (node : option isl_schedule_node)
  : option isl_schedule_node := None.

Definition isl_schedule_node_get_type (node : option isl_schedule_node)
  : isl_schedule_node_type :=
  match node with
  | Some n =>
      match node_tree n with
      | Some t => isl_schedule_tree_get_type t
      | None => isl_schedule_node_error
      end
  | None => isl_schedule_node_error
  end.

Definition isl_schedule_node_n_children (node : option isl_schedule_node)
  : isl_size :=
  match node with
  | Some n =>
      match node_tree n with
      | Some t => Z.of_nat (length (tree_children t))
      | None => isl_size_error
      end
  | None => isl_size_error
  end.

Definition isl_schedule_node_root (node : option isl_schedule_node)
  : option isl_schedule_node :=
  do n <- node;
  Some {| node_schedule := node_schedule n; node_path := [] |}.

(** The root has no parent: asking for it is an error. *)
Definition isl_schedule_node_parent (node : option isl_schedule_node)
  : option isl_schedule_node :=
  do n <- node;
  match node_path n with
  | [] => None
  | _ :: _ =>
      Some {| node_schedule := node_schedule n;
              node_path := removelast (node_path n) |}
  end.

(** A leaf that is the only child of a node is not stored in the tree of
    isl: it is implicit. *)
Definition only_implicit_leaf (t : isl_schedule_tree) : bool :=
  match tree_children t with
  | [LeafNode] => true
  | _ => false
  end.

(** A leaf has no child.  On a node whose only child is the implicit leaf,
    every position leads to that leaf.  isl records the position it was
    given, the model position 0: the two differ only in a later change of
    the tree at that leaf, which isl refuses unless the position was 0.  On
    any other node there must be a child at position [pos]. *)
Definition isl_schedule_node_child (node : option isl_schedule_node) (pos : Z)
  : option isl_schedule_node :=
  do n <- node;
  do t <- node_tree n;
  if only_implicit_leaf t
  then Some {| node_schedule := node_schedule n;
               node_path := node_path n ++ [0%nat] |}
  else if (0 <=? pos) && (pos <? Z.of_nat (length (tree_children t)))
  then Some {| node_schedule := node_schedule n;
               node_path := node_path n ++ [Z.to_nat pos] |}
  else None.

Definition isl_schedule_node_first_child (node : option isl_schedule_node)
  : option isl_schedule_node :=
  isl_schedule_node_child node 0.

(** Replace the subtree at the node; the node keeps its position. *)
Definition isl_schedule_node_graft_tree (n : isl_schedule_node)
    (tree : isl_schedule_tree) : option isl_schedule_node :=
  do root <- tree_graft (schedule_root (node_schedule n)) (node_path n) tree;
  Some {| node_schedule :=
            {| schedule_ctx := schedule_ctx (node_schedule n);
               schedule_root := root |};
          node_path := node_path n |}.

Definition is_set_or_sequence (t : isl_schedule_tree) : bool :=
  match t with
  | SequenceNode _ | SetNode _ => true
  | _ => false
  end.

Definition isl_schedule_node_band_get_partial_schedule
    (node : option isl_schedule_node) : option isl_multi_union_pw_aff :=
  do n <- node;
  match node_tree n with
  | Some (BandNode band _) => Some (band_mupa band)
  | _ => None
  end.

Definition isl_schedule_node_band_get_space (node : option isl_schedule_node)
  : option isl_space :=
  do n <- node;
  match node_tree n with
  | Some (BandNode band _) =>
      Some (isl_multi_union_pw_aff_get_space (band_mupa band))
  | _ => None
  end.

(** [isl_schedule_node_delete] removes the node and puts its only child in
    its place; the result points to that former child.  The node may not be
    the root nor a child of a set or sequence node, it must have exactly one
    child, and a band node may not have an anchored subtree. *)
Definition isl_schedule_node_delete (node : option isl_schedule_node)
  : option isl_schedule_node :=
  do n <- node;
  do t <- node_tree n;
  do parent <- node_parent_tree n;
  match node_path n, tree_children t with
  | _ :: _, [c] =>
      if is_set_or_sequence parent then None
      else
        match t with
        | BandNode _ _ =>
            if isl_schedule_tree_is_subtree_anchored t then None
            else isl_schedule_node_graft_tree n c
        | _ => isl_schedule_node_graft_tree n c
        end
  | _, _ => None
  end.

(** [isl_schedule_node_insert_partial_schedule] inserts a band node with the
    given partial schedule between the node and its parent; the result
    points to the new band node.  The node may not be the root nor a child
    of a set or sequence node, and its subtree may not be anchored. *)
Definition isl_schedule_node_insert_partial_schedule
    (node : option isl_schedule_node)
    (schedule : option isl_multi_union_pw_aff) : option isl_schedule_node :=
  do n <- node;
  do mupa <- schedule;
  do t <- node_tree n;
  do parent <- node_parent_tree n;
  match node_path n with
  | [] => None
  | _ :: _ =>
      if is_set_or_sequence parent
         || isl_schedule_tree_is_subtree_anchored t
      then None
      else isl_schedule_node_graft_tree n
             (BandNode (isl_schedule_band_from_multi_union_pw_aff mupa) t)
  end.

(** [isl_schedule_node_band_tile] turns the band into a band of tile loops
    with, as its only child, a new band of point loops that takes over the
    children of the original band; the result points to the tile band.  The
    sizes must live in the space of the band and be positive, and the
    subtree may not be anchored. *)
Definition isl_schedule_node_band_tile (node : option isl_schedule_node)
    (sizes : option isl_multi_val) : option isl_schedule_node :=
  do n <- node;
  do sizes <- sizes;
  match node_tree n with
  | Some (BandNode band child) =>
      let ctx := schedule_ctx (node_schedule n) in
      if isl_space_is_equal (isl_multi_union_pw_aff_get_space (band_mupa band))
                            (mv_space sizes)
         && forallb (fun v => 0 <? v) (mv_list sizes)
         && negb (isl_schedule_tree_is_subtree_anchored (BandNode band child))
      then isl_schedule_node_graft_tree n
             (BandNode (isl_schedule_band_tile ctx band sizes)
                (BandNode (isl_schedule_band_point ctx band sizes) child))
      else None
  | _ => None
  end.

(** [isl_schedule_node_band_shift] adds [shift] to the partial schedule of
    the band.  The shift must live in the space of the band and the subtree
    may not be anchored. *)
Definition isl_schedule_node_band_shift (node : option isl_schedule_node)
    (shift : option isl_multi_union_pw_aff) : option isl_schedule_node :=
  do n <- node;
  do shift <- shift;
  match node_tree n with
  | Some (BandNode band child) =>
      if isl_space_is_equal (isl_multi_union_pw_aff_get_space (band_mupa band))
                            (isl_multi_union_pw_aff_get_space shift)
         && negb (isl_schedule_tree_is_subtree_anchored (BandNode band child))
      then do band' <- isl_schedule_band_shift band shift;
           isl_schedule_node_graft_tree n (BandNode band' child)
      else None
  | _ => None
  end.

(** *** Space manipulation and affine expressions *)

Definition isl_space_dim_out (space : option isl_space) : isl_size :=
  match space with
  | Some s => Z.of_nat (isl_space_dim s)
  | None => isl_size_error
  end.

(** Add [n] unnamed input dimensions. *)
Definition isl_space_add_dims_in (space : option isl_space) (n : isl_size)
  : option isl_space :=
  do s <- space;
  if n <? 0 then None
  else
    let t := match space_in s with
             | Some t => t
             | None => {| tuple_name := None; tuple_dim_ids := [] |}
             end in
    Some {| space_in :=
              Some {| tuple_name := tuple_name t;
                      tuple_dim_ids :=
                        tuple_dim_ids t ++ repeat None (Z.to_nat n) |};
            space_out := space_out s |}.

(** A dimension without an identifier has none to return: an error. *)
Definition isl_space_get_dim_id_out (space : option isl_space) (pos : nat)
  : option isl_id :=
  do s <- space;
  do d <- nth_error (tuple_dim_ids (space_out s)) pos;
  d.

Definition isl_space_set_dim_id_in (space : option isl_space) (pos : nat)
    (id : option isl_id) : option isl_space :=
  do s <- space; do id <- id; do t <- space_in s;
  if Nat.ltb pos (length (tuple_dim_ids t))
  then Some {| space_in :=
                 Some {| tuple_name := tuple_name t;
                         tuple_dim_ids :=
                           list_set (tuple_dim_ids t) pos (Some id) |};
               space_out := space_out s |}
  else None.

(** The name of a tuple, NULL when it has none. *)
Definition isl_space_get_tuple_name_out (space : option isl_space)
  : option isl_id :=
  do s <- space; tuple_name (space_out s).

(** Naming a tuple NULL removes its name. *)
Definition isl_space_set_tuple_name_in (space : option isl_space)
    (name : option isl_id) : option isl_space :=
  do s <- space; do t <- space_in s;
  Some {| space_in := Some {| tuple_name := name;
                              tuple_dim_ids := tuple_dim_ids t |};
          space_out := space_out s |}.

(** An affine expression on the tuple [aff_domain]. *)
Record isl_aff := {
  aff_domain : isl_tuple;
  aff_fn : list Z -> Z
}.

(** A tuple of affine expressions of the input coordinates of [ma_space];
    without an input tuple the expressions are constants. *)
Record isl_multi_aff := {
  ma_space : isl_space;
  ma_list : list (list Z -> Z)
}.

(** The identity on a map space whose two tuples have the same number of
    dimensions: dimension [i] of the result is coordinate [i] of the
    input. *)
Definition isl_multi_aff_identity (space : option isl_space)
  : option isl_multi_aff :=
  do s <- space; do t <- space_in s;
  if Nat.eqb (length (tuple_dim_ids t)) (isl_space_dim s)
  then Some {| ma_space := s;
               ma_list := map (fun i c => nth i c 0) (seq 0 (isl_space_dim s)) |}
  else None.

Definition isl_multi_aff_get_at (ma : option isl_multi_aff) (pos : Z)
  : option isl_aff :=
  do ma <- ma; do t <- space_in (ma_space ma);
  if pos <? 0 then None
  else do f <- nth_error (ma_list ma) (Z.to_nat pos);
       Some {| aff_domain := t; aff_fn := f |}.

Definition isl_multi_aff_zero (space : option isl_space)
  : option isl_multi_aff :=
  do s <- space;
  Some {| ma_space := s; ma_list := repeat (fun _ => 0) (isl_space_dim s) |}.

(** The set of the single point that constant expressions denote. *)
Definition isl_set_from_multi_aff (ma : option isl_multi_aff)
  : option isl_set :=
  do ma <- ma;
  match space_in (ma_space ma) with
  | None => Some {| set_space := ma_space ma;
                    set_points := Points [map (fun f => f []) (ma_list ma)] |}
  | Some _ => None
  end.

(** The expression on the whole of its domain space. *)
Definition isl_pw_aff_from_aff (aff : option isl_aff) : option isl_pw_aff :=
  do a <- aff;
  Some {| pa_domain := {| set_space := {| space_in := None;
                                          space_out := aff_domain a |};
                          set_points := Universe |};
          pa_aff := aff_fn a |}.

(** *** Union maps *)

(** A union map is a finite relation between points. *)
Definition isl_union_map := list (isl_point * isl_point).

Definition isl_union_map_copy (umap : option isl_union_map)
  : option isl_union_map := umap.

Definition isl_union_map_is_empty (umap : option isl_union_map) : isl_bool :=
  match umap with
  | None => isl_bool_error
  | Some [] => isl_bool_true
  | Some (_ :: _) => isl_bool_false
  end.

(** Apply [umap2] to the domain of [umap1]. *)
Definition isl_union_map_apply_domain (umap1 umap2 : option isl_union_map)
  : option isl_union_map :=
  do m1 <- umap1; do m2 <- umap2;
  Some (flat_map
          (fun ab =>
             map (fun ac => (snd ac, snd ab))
                 (filter (fun ac => isl_point_eqb (fst ab) (fst ac)) m2))
          m1).

(** Apply [umap2] to the range of [umap1]. *)
Definition isl_union_map_apply_range (umap1 umap2 : option isl_union_map)
  : option isl_union_map :=
  do m1 <- umap1; do m2 <- umap2;
  Some (flat_map
          (fun ab =>
             map (fun bc => (fst ab, snd bc))
                 (filter (fun bc => isl_point_eqb (snd ab) (fst bc)) m2))
          m1).

Definition same_space (p q : isl_point) : bool :=
  option_eqb String.eqb (pt_tuple p) (pt_tuple q)
  && Nat.eqb (length (pt_coords p)) (length (pt_coords q)).

Definition coords_sub (a b : list Z) : list Z := zip_with Z.sub a b.

Fixpoint union_set_add_point (u : isl_union_set) (p : isl_point)
  : isl_union_set :=
  match u with
  | [] => [{| set_space :=
                set_space_of (pt_tuple p) (repeat None (length (pt_coords p)));
              set_points := Points [pt_coords p] |}]
  | s :: u' =>
      if point_in_space (set_space s) p
      then {| set_space := set_space s;
              set_points := points_union (set_points s)
                                         (Points [pt_coords p]) |} :: u'
      else s :: union_set_add_point u' p
  end.

Definition union_set_of_points (l : list isl_point) : isl_union_set :=
  fold_left union_set_add_point l [].

(** The differences [y - x] of the pairs [(x, y)] of the map whose two
    points live in the same space. *)
Definition deltas_points (m : isl_union_map) : list isl_point :=
  flat_map
    (fun xy =>
       if same_space (fst xy) (snd xy)
       then [{| pt_tuple := pt_tuple (fst xy);
                pt_coords := coords_sub (pt_coords (snd xy))
                                        (pt_coords (fst xy)) |}]
       else [])
    m.

Definition isl_union_map_deltas (umap : option isl_union_map)
  : option isl_union_set :=
  do m <- umap; Some (union_set_of_points (deltas_points m)).

Definition isl_union_set_copy (uset : option isl_union_set)
  : option isl_union_set := uset.

(** The union set must hold elements of exactly one space. *)
Definition isl_set_from_union_set (uset : option isl_union_set)
  : option isl_set :=
  do u <- uset;
  match u with
  | [s] => Some s
  | _ => None
  end.

Definition isl_union_set_from_set (set : option isl_set)
  : option isl_union_set :=
  do s <- set; Some [s].

Fixpoint lex_lt (a b : list Z) : bool :=
  match a, b with
  | x :: a', y :: b' => (x <? y) || ((x =? y) && lex_lt a' b')
  | _, _ => false
  end.

Definition lex_le (a b : list Z) : bool := lex_lt a b || list_eqb Z.eqb a b.

(** The pairs of a point of [uset1] and a point of [uset2] of the same space
    with the first lexicographically less than or equal to the second.  Only
    enumerated sets have an enumerated result. *)
Definition set_lex_le_set (s1 s2 : isl_set) : option isl_union_map :=
  if isl_space_is_equal (set_space s1) (set_space s2) then
    match set_points s1, set_points s2 with
    | Points a, Points b =>
        let name := space_tuple_name (set_space s1) in
        Some (flat_map
                (fun x =>
                   map (fun y => ({| pt_tuple := name; pt_coords := x |},
                                  {| pt_tuple := name; pt_coords := y |}))
                       (filter (lex_le x) b))
                a)
    | _, _ => None
    end
  else Some [].

Fixpoint concat_options {A} (l : list (option (list A))) : option (list A) :=
  match l with
  | [] => Some []
  | x :: l' => do a <- x; do r <- concat_options l'; Some (a ++ r)
  end.

Definition isl_union_set_lex_le_union_set (uset1 uset2 : option isl_union_set)
  : option isl_union_map :=
  do u1 <- uset1; do u2 <- uset2;
  concat_options
    (flat_map (fun s1 => map (fun s2 => set_lex_le_set s1 s2) u2) u1).

(** *** The schedule map of a schedule tree *)

(** The schedule points that the subtree gives to an instance: a band adds
    the values of its partial schedule, a sequence or set the position of
    the child, a filter or domain keeps the instances it holds. *)
Fixpoint subtree_schedule (t : isl_schedule_tree) (p : isl_point)
  : list (list Z) :=
  match t with
  | LeafNode => [[]]
  | DomainNode d c =>
      if isl_union_set_contains d p then subtree_schedule c p else []
  | FilterNode f c =>
      if isl_union_set_contains f p then subtree_schedule c p else []
  | ContextNode _ c | MarkNode _ c => subtree_schedule c p
  | BandNode b c =>
      match isl_multi_union_pw_aff_eval (band_mupa b) p with
      | Some v => map (app v) (subtree_schedule c p)
      | None => []
      end
  | SequenceNode cs | SetNode cs =>
      (fix children (cs : list isl_schedule_tree) (i : Z) : list (list Z) :=
         match cs with
         | [] => []
         | c :: cs' =>
             map (cons i) (subtree_schedule c p) ++ children cs' (i + 1)
         end) cs 0
  end.

Definition set_enumerate (s : isl_set) : option (list isl_point) :=
  match set_points s with
  | Points ps =>
      Some (map (fun c => {| pt_tuple := space_tuple_name (set_space s);
                             pt_coords := c |}) ps)
  | Universe => None
  end.

(** The number of schedule dimensions of a subtree: that of its deepest
    branch. *)
Fixpoint subtree_schedule_dim (t : isl_schedule_tree) : nat :=
  match t with
  | LeafNode => 0
  | DomainNode _ c | FilterNode _ c | ContextNode _ c | MarkNode _ c =>
      subtree_schedule_dim c
  | BandNode b c => isl_schedule_band_n_member b + subtree_schedule_dim c
  | SequenceNode cs | SetNode cs =>
      S (fold_right (fun c m => Nat.max (subtree_schedule_dim c) m) 0%nat cs)
  end.

(** [isl_schedule_get_map]: the relation between the instances of the domain
    at the root and their schedule points.  The schedule points of the
    branches that are less deep than the deepest are padded with zeros, so
    that all of them live in one space. *)
Definition isl_schedule_get_map (schedule : option isl_schedule)
  : option isl_union_map :=
  do s <- schedule;
  match schedule_root s with
  | DomainNode d _ =>
      do pts <- concat_options (map set_enumerate d);
      let dim := subtree_schedule_dim (schedule_root s) in
      Some (flat_map
              (fun p =>
                 map (fun t =>
                        (p, {| pt_tuple := None;
                               pt_coords :=
                                 t ++ repeat 0 (dim - length t) |}))
                     (subtree_schedule (schedule_root s) p))
              pts)
  | _ => None
  end.

End Isl.

(** ** The transformations ([transformations.c]) *)

Module Transformations.
Import Isl.

Definition tadashi_tile (node : option isl_schedule_node) (tile_size : Z)
  : option isl_schedule_node :=
  let ctx := isl_schedule_node_get_ctx node in
  isl_schedule_node_band_tile node
    (isl_multi_val_from_val_list
       (isl_schedule_node_band_get_space node)
       (isl_val_list_from_val (isl_val_int_from_si ctx tile_size))).

Definition tadashi_interchange (node : option isl_schedule_node)
  : option isl_schedule_node :=
  let mupa := isl_schedule_node_band_get_partial_schedule node in
  let node := isl_schedule_node_delete node in
  let node := isl_schedule_node_first_child node in
  let node := isl_schedule_node_insert_partial_schedule node mupa in
  node.

Definition tadashi_complete_fuse (node : option isl_schedule_node)
  : option isl_schedule_node := node.

Definition _pa_val (set : option isl_set) (val : Z) : option isl_pw_aff :=
  let ctx := isl_set_get_ctx set in
  let v := isl_val_int_from_si ctx val in
  isl_pw_aff_val_on_domain set v.

(** [id_idx] is a [long]; [isl_multi_aff_get_at] takes the position as an
    [int]. *)
Definition _pa_id (set : option isl_set) (id_idx : Z) : option isl_pw_aff :=
  let space := isl_set_get_space set in
  let ndims := isl_space_dim_out space in
  let space := isl_space_add_dims_in space ndims in
  let space :=
    fold_left
      (fun space i =>
         let id := isl_space_get_dim_id_out space i in
         isl_space_set_dim_id_in space i id)
      (seq 0 (Z.to_nat ndims)) space in
  let name := isl_space_get_tuple_name_out space in
  let space := isl_space_set_tuple_name_in space name in
  let ma := isl_multi_aff_identity space in
  let aff := isl_multi_aff_get_at ma (to_int id_idx) in
  isl_pw_aff_from_aff aff.

Definition _shift_partial (node : option isl_schedule_node)
    (fn : option isl_set -> Z -> option isl_pw_aff) (idx : Z) (const_val : Z)
  : outcome (option isl_schedule_node) :=
  let ctx := isl_schedule_node_get_ctx node in
  let mupa := isl_schedule_node_band_get_partial_schedule node in
  let id := isl_multi_union_pw_aff_get_tuple_id mupa in
  let mupa_dim := isl_multi_union_pw_aff_dim mupa in
  if negb (mupa_dim =? 1) then Aborts
  else
    let upa := isl_multi_union_pw_aff_get_at mupa 0 in
    let upa_domain := isl_union_pw_aff_domain upa in
    let pa_domains := isl_union_set_get_set_list upa_domain in
    let upa := isl_union_pw_aff_empty_ctx ctx in
    let num_sets := isl_set_list_n_set pa_domains in
    let upa :=
      fold_left
        (fun upa set_idx =>
           let set := isl_set_list_get_at pa_domains set_idx in
           let pa := if idx =? set_idx then fn set const_val
                     else _pa_val set 0 in
           isl_union_pw_aff_add_pw_aff upa pa)
        (map Z.of_nat (seq 0 (Z.to_nat num_sets))) upa in
    let mupa := isl_multi_union_pw_aff_from_union_pw_aff upa in
    let mupa := isl_multi_union_pw_aff_set_tuple_id mupa id in
    Returns (isl_schedule_node_band_shift node mupa).

Definition tadashi_partial_shift_var (node : option isl_schedule_node)
    (pa_idx : Z) (id_idx : Z) : outcome (option isl_schedule_node) :=
  _shift_partial node _pa_id pa_idx id_idx.

Definition tadashi_partial_shift_val (node : option isl_schedule_node)
    (pa_idx : Z) (id_idx : Z) : outcome (option isl_schedule_node) :=
  _shift_partial node _pa_val pa_idx id_idx.

Definition tadashi_full_shift_var (node : option isl_schedule_node)
    (pa_idx : Z) (id_idx : Z) : outcome (option isl_schedule_node) :=
  _shift_partial node _pa_id pa_idx id_idx.

Definition tadashi_full_shift_val (node : option isl_schedule_node)
    (pa_idx : Z) (id_idx : Z) : outcome (option isl_schedule_node) :=
  _shift_partial node _pa_val pa_idx id_idx.

(** The pieces that the loop of [_shift_partial] gathers when every piece
    receives a constant: the constant [amount j] on the [j]-th domain, the
    empty domains left out. *)
Fixpoint val_pieces (domains : list isl_set) (j : nat) (amount : nat -> Z)
  : isl_union_pw_aff :=
  match domains with
  | [] => []
  | s :: rest =>
      (if points_is_empty (set_points s) then []
       else [{| pa_domain := s; pa_aff := fun _ => amount j |}])
      ++ val_pieces rest (S j) amount
  end.

(** What a shift by [val] on piece [idx] adds on the [j]-th piece. *)
Definition shift_amount (idx val : Z) (j : nat) : Z :=
  if idx =? Z.of_nat j then val else 0.

End Transformations.

(** ** The legality check ([tadashi.c]) *)

Module Legality.
Import Isl.

Definition get_zeros_on_union_set (delta_uset : option isl_union_set)
  : option isl_union_set :=
  let delta_set := isl_set_from_union_set delta_uset in
  let ma := isl_multi_aff_zero (isl_set_get_space delta_set) in
  isl_union_set_from_set (isl_set_from_multi_aff ma).

(** In C every [isl_bool] but [isl_bool_false] counts as true in a
    condition. *)
Definition isl_bool_holds (b : isl_bool) : bool :=
  match b with
  | isl_bool_false => false
  | _ => true
  end.

Definition check_legality (ctx : option isl_ctx)
    (schedule_map dep : option isl_union_map) : isl_bool :=
  if isl_bool_holds (isl_union_map_is_empty dep) then isl_bool_true
  else
    let domain :=
      isl_union_map_apply_domain dep (isl_union_map_copy schedule_map) in
    let domain := isl_union_map_apply_range domain schedule_map in
    let delta := isl_union_map_deltas domain in
    let zeros := get_zeros_on_union_set (isl_union_set_copy delta) in
    let le := isl_union_set_lex_le_union_set delta zeros in
    let retval := isl_union_map_is_empty le in
    retval.

Definition check_schedule_legality (ctx : option isl_ctx)
    (schedule : option isl_schedule) (dep : option isl_union_map) : isl_bool :=
  check_legality ctx (isl_schedule_get_map schedule) dep.

(** The delta set of a schedule map [S] and a dependence relation [D]: the
    differences [S(sink) - S(source)] over the dependences
    [(source, sink)] of [D] whose two schedule points live in the same
    space. *)
Definition in_delta (S D : isl_union_map) (d : list Z) : Prop :=
  exists source sink t_source t_sink,
    In (source, sink) D /\ In (source, t_source) S /\ In (sink, t_sink) S /\
    same_space t_source t_sink = true /\
    d = coords_sub (pt_coords t_sink) (pt_coords t_source).

(** Every schedule point of [S] is a point of the anonymous space of
    dimension [n]. *)
Definition schedule_into (n : nat) (S : isl_union_map) : Prop :=
  forall a t, In (a, t) S -> pt_tuple t = None /\ length (pt_coords t) = n.

(** [S] schedules the two ends of every dependence of [D]. *)
Definition schedules_all (S D : isl_union_map) : Prop :=
  forall source sink, In (source, sink) D ->
    (exists t, In (source, t) S) /\ (exists t, In (sink, t) S).

End Legality.

(** ** The C side of the binding ([ctadashi]) *)

Module Ctadashi.
Import Isl Transformations.

Section Session.

(** The SCoP of the front end and the printer of the code generator are
    opaque here. *)
Variable pet_scop : Type.
Variable isl_printer : Type.

(** Declared in [legality.h], [codegen.h] and [pet.h]. *)
Variable tadashi_check_legality :
  option isl_ctx -> option isl_schedule -> option isl_union_map -> isl_bool.
Variable tadashi_check_legality_parallel :
  option isl_ctx -> option isl_schedule_node -> option isl_union_map ->
  isl_bool.
Variable pet_scop_print_original :
  option pet_scop -> option isl_printer -> option isl_printer.
Variable codegen :
  option isl_printer -> option pet_scop -> option isl_schedule ->
  option isl_printer.

(** The other transformations that the binding calls, with the signatures
    with which it calls them.  What is proved of the session below holds
    whatever they do to the node; [tadashi_fuse] of [transformations.c] is
    one of them. *)
Variable tadashi_fuse :
  option isl_schedule_node -> Z -> Z -> outcome (option isl_schedule_node).
Variable tadashi_full_fuse :
  option isl_schedule_node -> outcome (option isl_schedule_node).
Variable tadashi_partial_shift_var :
  option isl_schedule_node -> Z -> Z -> Z ->
  outcome (option isl_schedule_node).
Variable tadashi_full_shift_var :
  option isl_schedule_node -> Z -> Z -> outcome (option isl_schedule_node).
Variable tadashi_full_shift_val :
  option isl_schedule_node -> Z -> outcome (option isl_schedule_node).
Variable tadashi_full_shift_param :
  option isl_schedule_node -> Z -> Z -> outcome (option isl_schedule_node).
Variable tadashi_partial_shift_param :
  option isl_schedule_node -> Z -> Z -> Z ->
  outcome (option isl_schedule_node).
Variable tadashi_set_parallel :
  option isl_schedule_node -> outcome (option isl_schedule_node).

(** [struct scop_t].  Every function below is the body of the C function of
    the same name, acting on the record [si = &SCOPS_POOL[0][scop_idx]];
    none of them touches another record of the pool. *)
Record scop_t := {
  scop : option pet_scop;
  dependency : option isl_union_map;
  current_node : option isl_schedule_node;
  tmp_node : option isl_schedule_node;
  modified : bool;
  strings : list string
}.

Definition set_current_node (si : scop_t) (n : option isl_schedule_node) :=
  {| scop := scop si; dependency := dependency si; current_node := n;
     tmp_node := tmp_node si; modified := modified si;
     strings := strings si |}.

Definition set_tmp_node (si : scop_t) (n : option isl_schedule_node) :=
  {| scop := scop si; dependency := dependency si;
     current_node := current_node si; tmp_node := n;
     modified := modified si; strings := strings si |}.

Definition set_modified (si : scop_t) (m : bool) :=
  {| scop := scop si; dependency := dependency si;
     current_node := current_node si; tmp_node := tmp_node si;
     modified := m; strings := strings si |}.

(** *** Current node manipulation *)

Definition goto_root (si : scop_t) : scop_t :=
  set_current_node si (isl_schedule_node_root (current_node si)).

Definition goto_parent (si : scop_t) : scop_t :=
  set_current_node si (isl_schedule_node_parent (current_node si)).

(** [child_idx] is the position as the kernel receives it.  The binding
    takes a [size_t] and hands it on as an [int]: for the positions below
    [2^31] the two are the same, and the statements about a position that
    names no child are made for those. *)
Definition goto_child (si : scop_t) (child_idx : Z) : scop_t :=
  set_current_node si (isl_schedule_node_child (current_node si) child_idx).

(** *** Transformations *)

Definition pre_transform (si : scop_t) : scop_t :=
  let si :=
    match tmp_node si with
    | Some _ => set_tmp_node si (isl_schedule_node_free (tmp_node si))
    | None => si
    end in
  set_tmp_node si (isl_schedule_node_copy (current_node si)).

Definition post_transform (si : scop_t) : scop_t * Z :=
  let dep := isl_union_map_copy (dependency si) in
  let sched := isl_schedule_node_get_schedule (tmp_node si) in
  let ctx := isl_schedule_get_ctx sched in
  let legal := tadashi_check_legality ctx sched (dependency si) in
  let si := set_modified si true in
  let node := current_node si in
  let si := set_current_node si (tmp_node si) in
  let si := set_tmp_node si node in
  (si, isl_bool_to_int legal).

Definition rollback (si : scop_t) : scop_t :=
  let tmp := tmp_node si in
  let si := set_tmp_node si (current_node si) in
  set_current_node si tmp.

(** The scratch node receives the result of the transformation; a failed
    assertion inside the transformation stops the process. *)
Definition with_tmp_node (si : scop_t)
    (r : outcome (option isl_schedule_node)) (k : scop_t -> scop_t * Z)
  : outcome (scop_t * Z) :=
  match r with
  | Returns n => Returns (k (set_tmp_node si n))
  | Aborts => Aborts
  end.

(** The tile size is a [size_t] that [tadashi_tile] takes as an [int]. *)
Definition tile (si : scop_t) (tile_size : Z) : outcome (scop_t * Z) :=
  let si := pre_transform si in
  with_tmp_node si (Returns (tadashi_tile (tmp_node si) (to_int tile_size)))
    post_transform.

Definition interchange (si : scop_t) : outcome (scop_t * Z) :=
  let si := pre_transform si in
  with_tmp_node si (Returns (tadashi_interchange (tmp_node si)))
    post_transform.

Definition fuse (si : scop_t) (idx1 idx2 : Z) : outcome (scop_t * Z) :=
  let si := pre_transform si in
  with_tmp_node si (tadashi_fuse (tmp_node si) idx1 idx2) post_transform.

Definition full_fuse (si : scop_t) : outcome (scop_t * Z) :=
  let si := pre_transform si in
  with_tmp_node si (tadashi_full_fuse (tmp_node si)) post_transform.

Definition partial_shift_var (si : scop_t) (pa_idx coeff var_idx : Z)
  : outcome (scop_t * Z) :=
  let si := pre_transform si in
  with_tmp_node si
    (tadashi_partial_shift_var (tmp_node si) pa_idx coeff var_idx)
    post_transform.

Definition partial_shift_val (si : scop_t) (pa_idx val : Z)
  : outcome (scop_t * Z) :=
  let si := pre_transform si in
  with_tmp_node si
    (Transformations.tadashi_partial_shift_val (tmp_node si) pa_idx val)
    post_transform.

Definition full_shift_var (si : scop_t) (coeff var_idx : Z)
  : outcome (scop_t * Z) :=
  let si := pre_transform si in
  with_tmp_node si (tadashi_full_shift_var (tmp_node si) coeff var_idx)
    post_transform.

Definition full_shift_val (si : scop_t) (val : Z) : outcome (scop_t * Z) :=
  let si := pre_transform si in
  with_tmp_node si (tadashi_full_shift_val (tmp_node si) val) post_transform.

Definition full_shift_param (si : scop_t) (coeff param_idx : Z)
  : outcome (scop_t * Z) :=
  let si := pre_transform si in
  with_tmp_node si (tadashi_full_shift_param (tmp_node si) coeff param_idx)
    post_transform.

Definition partial_shift_param (si : scop_t) (pa_idx coeff param_idx : Z)
  : outcome (scop_t * Z) :=
  let si := pre_transform si in
  with_tmp_node si
    (tadashi_partial_shift_param (tmp_node si) pa_idx coeff param_idx)
    post_transform.

(** What [set_parallel] does once its transformation has returned. *)
Definition set_parallel_commit (si : scop_t) : scop_t * Z :=
  let dep := isl_union_map_copy (dependency si) in
  let node := isl_schedule_node_copy (tmp_node si) in
  let ctx := isl_schedule_node_get_ctx node in
  let node := isl_schedule_node_first_child node in
  let legal := tadashi_check_legality_parallel ctx node (dependency si) in
  let si := set_modified si true in
  let node := current_node si in
  let si := set_current_node si (tmp_node si) in
  let si := set_tmp_node si node in
  (si, isl_bool_to_int legal).

Definition set_parallel (si : scop_t) : outcome (scop_t * Z) :=
  let si := pre_transform si in
  with_tmp_node si (tadashi_set_parallel (tmp_node si)) set_parallel_commit.

(** *** The transformation operations as a family *)

(** The operations of the binding that apply a transformation. *)
Inductive transformation :=
| Tile (tile_size : Z)
| Interchange
| Fuse (idx1 idx2 : Z)
| FullFuse
| PartialShiftVar (pa_idx coeff var_idx : Z)
| PartialShiftVal (pa_idx val : Z)
| FullShiftVar (coeff var_idx : Z)
| FullShiftVal (val : Z)
| FullShiftParam (coeff param_idx : Z)
| PartialShiftParam (pa_idx coeff param_idx : Z)
| SetParallel.

(** The exported function of each operation. *)
Definition run (op : transformation) (si : scop_t) : outcome (scop_t * Z) :=
  match op with
  | Tile tile_size => tile si tile_size
  | Interchange => interchange si
  | Fuse idx1 idx2 => fuse si idx1 idx2
  | FullFuse => full_fuse si
  | PartialShiftVar pa_idx coeff var_idx =>
      partial_shift_var si pa_idx coeff var_idx
  | PartialShiftVal pa_idx val => partial_shift_val si pa_idx val
  | FullShiftVar coeff var_idx => full_shift_var si coeff var_idx
  | FullShiftVal val => full_shift_val si val
  | FullShiftParam coeff param_idx => full_shift_param si coeff param_idx
  | PartialShiftParam pa_idx coeff param_idx =>
      partial_shift_param si pa_idx coeff param_idx
  | SetParallel => set_parallel si
  end.

(** The transformation that the operation applies to the scratch node. *)
Definition primitive (op : transformation) (node : option isl_schedule_node)
  : outcome (option isl_schedule_node) :=
  match op with
  | Tile tile_size => Returns (tadashi_tile node (to_int tile_size))
  | Interchange => Returns (tadashi_interchange node)
  | Fuse idx1 idx2 => tadashi_fuse node idx1 idx2
  | FullFuse => tadashi_full_fuse node
  | PartialShiftVar pa_idx coeff var_idx =>
      tadashi_partial_shift_var node pa_idx coeff var_idx
  | PartialShiftVal pa_idx val =>
      Transformations.tadashi_partial_shift_val node pa_idx val
  | FullShiftVar coeff var_idx => tadashi_full_shift_var node coeff var_idx
  | FullShiftVal val => tadashi_full_shift_val node val
  | FullShiftParam coeff param_idx =>
      tadashi_full_shift_param node coeff param_idx
  | PartialShiftParam pa_idx coeff param_idx =>
      tadashi_partial_shift_param node pa_idx coeff param_idx
  | SetParallel => tadashi_set_parallel node
  end.

(** The verdict of the legality check that the operation runs on the
    candidate in the scratch slot. *)
Definition verdict (op : transformation)
    (candidate : option isl_schedule_node) (dep : option isl_union_map)
  : isl_bool :=
  match op with
  | SetParallel =>
      tadashi_check_legality_parallel
        (isl_schedule_node_get_ctx candidate)
        (isl_schedule_node_first_child candidate) dep
  | _ =>
      let sched := isl_schedule_node_get_schedule candidate in
      tadashi_check_legality (isl_schedule_get_ctx sched) sched dep
  end.

(** What an operation may and may not touch. *)
Definition same_frame (si si' : scop_t) : Prop :=
  scop si' = scop si /\ dependency si' = dependency si /\
  modified si' = modified si /\ tmp_node si' = tmp_node si.

(** The schedule tree that the current node points into. *)
Definition current_schedule (si : scop_t) : option isl_schedule :=
  isl_schedule_node_get_schedule (current_node si).

(** The record after the swap of [post_transform], when the transformation
    has returned [candidate]. *)
Definition committed (si : scop_t) (candidate : option isl_schedule_node)
  : scop_t :=
  {| scop := scop si; dependency := dependency si;
     current_node := candidate; tmp_node := current_node si;
     modified := true; strings := strings si |}.

(** *** Code generation *)

Definition isl_printer_free (p : option isl_printer) : option isl_printer :=
  None.

(** The callback receives the printer, the SCoP that the front end has just
    extracted again, and the counter of SCoPs, which selects the record
    [scop_info]; it returns the printer and the counter. *)
Definition generate_code_callback (p : option isl_printer)
    (scop' : option pet_scop) (scop_info : scop_t) (scop_idx : nat)
  : option isl_printer * nat :=
  match scop', p with
  | Some _, Some _ =>
      let p :=
        if negb (modified scop_info) then pet_scop_print_original scop' p
        else
          let sched := isl_schedule_node_get_schedule (current_node scop_info) in
          codegen p (scop scop_info) sched in
      (p, S scop_idx)
  | _, _ => (isl_printer_free p, scop_idx)
  end.

End Session.

Arguments scop {pet_scop} s.
Arguments dependency {pet_scop} s.
Arguments current_node {pet_scop} s.
Arguments tmp_node {pet_scop} s.
Arguments modified {pet_scop} s.
Arguments strings {pet_scop} s.
Arguments set_current_node {pet_scop} si n.
Arguments set_tmp_node {pet_scop} si n.
Arguments set_modified {pet_scop} si m.
Arguments goto_root {pet_scop} si.
Arguments goto_parent {pet_scop} si.
Arguments goto_child {pet_scop} si child_idx.
Arguments pre_transform {pet_scop} si.
Arguments post_transform {pet_scop} tadashi_check_legality si.
Arguments rollback {pet_scop} si.
Arguments with_tmp_node {pet_scop} si r k.
Arguments set_parallel_commit {pet_scop} tadashi_check_legality_parallel si.
Arguments run {pet_scop}.
Arguments same_frame {pet_scop} si si'.
Arguments committed {pet_scop} si candidate.
Arguments current_schedule {pet_scop} si.
Arguments generate_code_callback {pet_scop isl_printer}
  pet_scop_print_original codegen p scop' scop_info scop_idx.

End Ctadashi.

(** ** Sample schedules *)

Module Examples.
Import Isl Transformations Legality Ctadashi.
Local Open Scope string_scope.

Definition instance (name : string) (coords : list Z) : isl_point :=
  {| pt_tuple := Some name; pt_coords := coords |}.

Definition coordinate (k : nat) : list Z -> Z := fun c => nth k c 0.

(** The loop nest [for i in 0..1: for j in 0..1: S(i, j)]. *)
Definition S_domain : isl_set :=
  {| set_space := set_space_of (Some "S") [Some "i"; Some "j"];
     set_points := Points [[0; 0]; [0; 1]; [1; 0]; [1; 1]] |}.

Definition band_of (id : string) (upa : isl_union_pw_aff) : isl_schedule_band :=
  isl_schedule_band_from_multi_union_pw_aff
    {| mupa_tuple_id := Some id; mupa_list := [upa] |}.

Definition band_i : isl_schedule_band :=
  band_of "L_0" [{| pa_domain := S_domain; pa_aff := coordinate 0 |}].

Definition band_j : isl_schedule_band :=
  band_of "L_1" [{| pa_domain := S_domain; pa_aff := coordinate 1 |}].

Definition nest : isl_schedule :=
  {| schedule_ctx := isl_ctx_alloc_with_pet_options;
     schedule_root :=
       DomainNode [S_domain] (BandNode band_i (BandNode band_j LeafNode)) |}.

Definition nest_root : isl_schedule_node :=
  {| node_schedule := nest; node_path := [] |}.

(** The node of the outer band, over [i]. *)
Definition nest_outer : isl_schedule_node :=
  {| node_schedule := nest; node_path := [0%nat] |}.

(** [S(0, 1)] must run before [S(1, 0)]. *)
Definition nest_dependency : isl_union_map :=
  [(instance "S" [0; 1], instance "S" [1; 0])].

(** The loop [for i in 0..3: T(i)]. *)
Definition T_domain : isl_set :=
  {| set_space := set_space_of (Some "T") [Some "i"];
     set_points := Points [[0]; [1]; [2]; [3]] |}.

Definition loop : isl_schedule :=
  {| schedule_ctx := isl_ctx_alloc_with_pet_options;
     schedule_root :=
       DomainNode [T_domain]
         (BandNode (band_of "L_0" [{| pa_domain := T_domain;
                                      pa_aff := coordinate 0 |}])
                   LeafNode) |}.

Definition loop_band : isl_schedule_node :=
  {| node_schedule := loop; node_path := [0%nat] |}.

(** Two statements under one band: [for i in 0..1: { A(i); B(i) }]. *)
Definition A_domain : isl_set :=
  {| set_space := set_space_of (Some "A") [Some "i"];
     set_points := Points [[0]; [1]] |}.

Definition B_domain : isl_set :=
  {| set_space := set_space_of (Some "B") [Some "i"];
     set_points := Points [[0]; [1]] |}.

Definition two_band : isl_schedule_band :=
  band_of "L_0" [{| pa_domain := A_domain; pa_aff := coordinate 0 |};
                 {| pa_domain := B_domain; pa_aff := coordinate 0 |}].

Definition two : isl_schedule :=
  {| schedule_ctx := isl_ctx_alloc_with_pet_options;
     schedule_root := DomainNode [A_domain; B_domain]
                        (BandNode two_band LeafNode) |}.

Definition two_node : isl_schedule_node :=
  {| node_schedule := two; node_path := [0%nat] |}.

(** A band with two members, over [i] and [j] of [S]. *)
Definition wide : isl_schedule :=
  {| schedule_ctx := isl_ctx_alloc_with_pet_options;
     schedule_root :=
       DomainNode [S_domain]
         (BandNode
            (isl_schedule_band_from_multi_union_pw_aff
               {| mupa_tuple_id := Some "L_0";
                  mupa_list :=
                    [[{| pa_domain := S_domain; pa_aff := coordinate 0 |}];
                     [{| pa_domain := S_domain; pa_aff := coordinate 1 |}]] |})
            LeafNode) |}.

Definition wide_band : isl_schedule_node :=
  {| node_schedule := wide; node_path := [0%nat] |}.

(** Two instances scheduled at the same time, the second depending on the
    first. *)
Definition tie_schedule : isl_union_map :=
  [(instance "P" [0], {| pt_tuple := None; pt_coords := [0] |});
   (instance "Q" [0], {| pt_tuple := None; pt_coords := [0] |})].

Definition tie_dependency : isl_union_map :=
  [(instance "P" [0], instance "Q" [0])].

(** The same two instances one after the other. *)
Definition order_schedule : isl_union_map :=
  [(instance "P" [0], {| pt_tuple := None; pt_coords := [0] |});
   (instance "Q" [0], {| pt_tuple := None; pt_coords := [1] |})].

(** The partial schedule of the band that a node points to, at a point. *)
Definition band_value (node : option isl_schedule_node) (p : isl_point)
  : option (list Z) :=
  do n <- node;
  match node_tree n with
  | Some (BandNode band _) => isl_multi_union_pw_aff_eval (band_mupa band) p
  | _ => None
  end.

(** A session on the nest whose legality check is the one of [tadashi.c];
    the transformations that are not part of [transformations.c] leave the
    node as it is, and nothing is marked parallel. *)
Definition legality (ctx : option isl_ctx) (schedule : option isl_schedule)
    (dep : option isl_union_map) : isl_bool :=
  check_schedule_legality ctx schedule dep.

Definition no_parallel (ctx : option isl_ctx)
    (node : option isl_schedule_node) (dep : option isl_union_map) : isl_bool :=
  isl_bool_false.

Definition keep0 (node : option isl_schedule_node)
  : outcome (option isl_schedule_node) := Returns node.
Definition keep1 (node : option isl_schedule_node) (_ : Z)
  : outcome (option isl_schedule_node) := Returns node.
Definition keep2 (node : option isl_schedule_node) (_ _ : Z)
  : outcome (option isl_schedule_node) := Returns node.
Definition keep3 (node : option isl_schedule_node) (_ _ _ : Z)
  : outcome (option isl_schedule_node) := Returns node.

Definition nest_scop : scop_t unit :=
  {| scop := Some tt;
     dependency := Some nest_dependency;
     current_node := Some nest_outer;
     tmp_node := None;
     modified := false;
     strings := [] |}.

Definition run_nest (op : transformation) (si : scop_t unit)
  : outcome (scop_t unit * Z) :=
  run (pet_scop := unit) legality no_parallel
    keep2 keep0 keep3 keep2 keep1 keep2 keep3 keep0
    op si.

(** The same session with the current node at the root. *)
Definition root_scop : scop_t unit :=
  set_current_node nest_scop (Some nest_root).

Definition primitive_nest (op : transformation)
    (node : option isl_schedule_node) : outcome (option isl_schedule_node) :=
  primitive
    keep2 keep0 keep3 keep2 keep1 keep2 keep3 keep0
    op node.

Definition verdict_nest (op : transformation)
    (candidate : option isl_schedule_node) (dep : option isl_union_map)
  : isl_bool :=
  verdict legality no_parallel op candidate dep.

End Examples.

(** ** More of the kernel *)

Module IslMore.
Import Isl.

(** The values of [enum isl_schedule_node_type]; the model has no
    expansion (3), extension (4) or guard (7) node. *)
Definition isl_schedule_node_type_to_int (t : isl_schedule_node_type) : Z :=
  match t with
  | isl_schedule_node_error => -1
  | isl_schedule_node_band => 0
  | isl_schedule_node_context => 1
  | isl_schedule_node_domain => 2
  | isl_schedule_node_filter => 5
  | isl_schedule_node_leaf => 6
  | isl_schedule_node_mark => 8
  | isl_schedule_node_sequence => 9
  | isl_schedule_node_set => 10
  end.

(** An [int] read as a [size_t] of 64 bits. *)
Definition size_t_of_int (i : Z) : Z := i mod 2 ^ 64.

(** The loop type of member [pos] of a band; [isl_ast_loop_error] when the
    band has no such member. *)
Definition isl_schedule_band_member_get_ast_loop_type
    (band : option isl_schedule_band) (pos : Z) : isl_ast_loop_type :=
  match band with
  | None => isl_ast_loop_error
  | Some b =>
      if (pos <? 0) || (Z.of_nat (isl_schedule_band_n_member b) <=? pos)
      then isl_ast_loop_error
      else nth (Z.to_nat pos) (band_loop_type b) isl_ast_loop_default
  end.

(** Setting the loop type of member [pos] of a band.  The band is returned
    as it is when the loop type read at [pos] is already [type], and this
    comparison comes before the check of the position. *)
Definition isl_schedule_band_member_set_ast_loop_type
    (band : option isl_schedule_band) (pos : Z) (type : isl_ast_loop_type)
  : option isl_schedule_band :=
  do b <- band;
  if isl_schedule_band_member_get_ast_loop_type (Some b) pos =? type
  then Some b
  else if (pos <? 0) || (Z.of_nat (isl_schedule_band_n_member b) <=? pos)
  then None
  else Some {| band_mupa := band_mupa b;
               band_permutable := band_permutable b;
               band_coincident := band_coincident b;
               band_loop_type :=
                 list_set (band_loop_type b) (Z.to_nat pos) type |}.

(** The tree must be a band. *)
Definition isl_schedule_tree_band_member_set_ast_loop_type
    (tree : option isl_schedule_tree) (pos : Z) (type : isl_ast_loop_type)
  : option isl_schedule_tree :=
  do t <- tree;
  match t with
  | BandNode band child =>
      do band <- isl_schedule_band_member_set_ast_loop_type (Some band)
                   pos type;
      Some (BandNode band child)
  | _ => None
  end.

(** [isl_schedule_node_band_member_set_ast_loop_type] sets the loop type of
    member [pos] of the band at the node, and puts the tree so changed in
    the place of the node. *)
Definition isl_schedule_node_band_member_set_ast_loop_type
    (node : option isl_schedule_node) (pos : Z) (type : isl_ast_loop_type)
  : option isl_schedule_node :=
  do n <- node;
  let tree := node_tree n in
  do tree <- isl_schedule_tree_band_member_set_ast_loop_type tree pos type;
  isl_schedule_node_graft_tree n tree.

(** [isl_schedule_band_scale]: every dimension is multiplied by its
    factor. *)
Definition isl_schedule_band_scale (band : isl_schedule_band)
    (mv : isl_multi_val) : isl_schedule_band :=
  set_band_mupa band
    {| mupa_tuple_id := mupa_tuple_id (band_mupa band);
       mupa_list :=
         zip_with (fun upa v => map (map_pw_aff (Z.mul v)) upa)
                  (mupa_list (band_mupa band)) (mv_list mv) |}.

(** [isl_schedule_node_band_scale]: the factors must live in the space of
    the band and the subtree may not be anchored; the result points to the
    scaled band. *)
Definition isl_schedule_node_band_scale (node : option isl_schedule_node)
    (mv : option isl_multi_val) : option isl_schedule_node :=
  do n <- node;
  do mv <- mv;
  match node_tree n with
  | Some (BandNode band child) =>
      if isl_space_is_equal (isl_multi_union_pw_aff_get_space (band_mupa band))
                            (mv_space mv)
         && negb (isl_schedule_tree_is_subtree_anchored (BandNode band child))
      then isl_schedule_node_graft_tree n
             (BandNode (isl_schedule_band_scale band mv) child)
      else None
  | _ => None
  end.

Definition isl_schedule_node_filter_get_filter
    (node : option isl_schedule_node) : option isl_union_set :=
  do n <- node;
  match node_tree n with
  | Some (FilterNode filter _) => Some filter
  | _ => None
  end.

Definition isl_union_set_list := list isl_union_set.


Definition isl_union_set_list_size (list : option isl_union_set_list)
  : isl_size :=
  match list with
  | Some l => Z.of_nat (length l)
  | None => isl_size_error
  end.

(** Insert [el] before position [pos], which may be the end of the list. *)
Definition isl_union_set_list_insert (list : option isl_union_set_list)
    (pos : Z) (el : option isl_union_set) : option isl_union_set_list :=
  do l <- list; do el <- el;
  if (0 <=? pos) && (pos <=? Z.of_nat (length l))
  then Some (firstn (Z.to_nat pos) l ++ el :: skipn (Z.to_nat pos) l)
  else None.

Definition isl_multi_union_pw_aff_reset_tuple_id
    (mupa : option isl_multi_union_pw_aff) : option isl_multi_union_pw_aff :=
  do m <- mupa; Some {| mupa_tuple_id := None; mupa_list := mupa_list m |}.

(** Each expression is kept on the points of its domain that the set of the
    same space holds; an expression left without points is dropped. *)
Definition isl_union_pw_aff_intersect_domain (upa : isl_union_pw_aff)
    (uset : isl_union_set) : isl_union_pw_aff :=
  flat_map
    (fun pa =>
       match find_set uset (set_space (pa_domain pa)) with
       | Some s =>
           let pts := points_intersect (set_points (pa_domain pa))
                                       (set_points s) in
           if points_is_empty pts then []
           else [{| pa_domain := {| set_space := set_space (pa_domain pa);
                                    set_points := pts |};
                    pa_aff := pa_aff pa |}]
       | None => []
       end)
    upa.

Definition isl_multi_union_pw_aff_intersect_domain
    (mupa : option isl_multi_union_pw_aff) (uset : option isl_union_set)
  : option isl_multi_union_pw_aff :=
  do m <- mupa; do u <- uset;
  Some {| mupa_tuple_id := mupa_tuple_id m;
          mupa_list :=
            map (fun upa => isl_union_pw_aff_intersect_domain upa u)
                (mupa_list m) |}.

End IslMore.

(** ** More of the transformations ([transformations.c]) *)

Module TransformationsMore.
Import Isl IslMore.

Definition tadashi_scale (node : option isl_schedule_node) (scale : Z)
  : option isl_schedule_node :=
  let ctx := isl_schedule_node_get_ctx node in
  let node :=
    isl_schedule_node_band_scale node
      (isl_multi_val_from_val_list
         (isl_schedule_node_band_get_space node)
         (isl_val_list_from_val (isl_val_int_from_si ctx scale))) in
  node.


(** [struct _fuse_result_t]. *)
Record _fuse_result_t := {
  result_filter : option isl_union_set;
  result_filters : option isl_union_set_list;
  result_mupa : option isl_multi_union_pw_aff
}.

(** [_fuse_get_filter_and_mupa] writes [*result] and [*filters] and returns
    the node: the model returns the three. *)
Definition _fuse_get_filter_and_mupa (node : option isl_schedule_node)
    (idx : Z) (result : _fuse_result_t) (filters : option isl_union_set_list)
  : option isl_schedule_node * _fuse_result_t * option isl_union_set_list :=
  let node := isl_schedule_node_child node idx in
  let filter := isl_schedule_node_filter_get_filter node in
  let node := isl_schedule_node_first_child node in
  let mupa := isl_schedule_node_band_get_partial_schedule node in
  let mupa := isl_multi_union_pw_aff_reset_tuple_id mupa in
  let mupa := isl_multi_union_pw_aff_intersect_domain mupa filter in
  let node := isl_schedule_node_parent node in
  let node := isl_schedule_node_parent node in
  let tmp := isl_union_set_copy filter in
  let pos := isl_union_set_list_size filters in
  let filters := isl_union_set_list_insert filters pos tmp in
  (node,
   {| result_filter := filter; result_filters := result_filters result;
      result_mupa := mupa |},
   filters).

End TransformationsMore.

(** ** More of the binding ([ctadashi]) *)

Module CtadashiMore.
Import Isl IslMore Ctadashi.

Section Session.

Variable pet_scop : Type.

(** *** Node info *)

Definition get_type (si : scop_t pet_scop) : Z :=
  isl_schedule_node_type_to_int (isl_schedule_node_get_type (current_node si)).

Definition get_num_children (si : scop_t pet_scop) : Z :=
  size_t_of_int (isl_schedule_node_n_children (current_node si)).

(** The loop type arrives as an [int] and is cast to the enumeration, which
    keeps the value of an [int] from -1 to 3, the values of the
    enumerators. *)
Definition set_loop_opt (si : scop_t pet_scop) (pos : Z) (opt : Z)
  : scop_t pet_scop * Z :=
  let node := current_node si in
  let node := isl_schedule_node_band_member_set_ast_loop_type node pos opt in
  (set_current_node si node, 1).

(** *** The record of a SCoP at its creation *)

(** [get_scop_callback] appends to the pool the record of the SCoP that the
    front end has extracted; [get_dependencies] and [pet_scop_get_schedule]
    are the dependence analysis and the schedule of the front end. *)
Definition get_scop_callback
    (get_dependencies : pet_scop -> option isl_union_map)
    (pet_scop_get_schedule : pet_scop -> option isl_schedule)
    (scop' : pet_scop) (scops : list (scop_t pet_scop))
  : list (scop_t pet_scop) :=
  let sched := pet_scop_get_schedule scop' in
  let tmp := {| scop := Some scop';
                dependency := get_dependencies scop';
                current_node := isl_schedule_get_root sched;
                tmp_node := None;
                modified := false;
                strings := [] |} in
  scops ++ [tmp].

(** *** Sessions *)

(** The calls that a client makes on the record of one SCoP. *)
Inductive call :=
| Transform (op : transformation)
| GotoRoot
| GotoParent
| GotoChild (child_idx : Z)
| Rollback
| SetLoopOpt (pos : Z) (opt : Z).

Definition is_transformation (c : call) : bool :=
  match c with
  | Transform _ => true
  | _ => false
  end.

(** One call, given the exported functions [run] of the transformation
    operations; the value that the call returns is dropped. *)
Definition call_one
    (run : transformation -> scop_t pet_scop ->
           outcome (scop_t pet_scop * Z))
    (c : call) (si : scop_t pet_scop) : outcome (scop_t pet_scop) :=
  match c with
  | Transform op =>
      match run op si with
      | Returns r => Returns (fst r)
      | Aborts => Aborts
      end
  | GotoRoot => Returns (goto_root si)
  | GotoParent => Returns (goto_parent si)
  | GotoChild child_idx => Returns (goto_child si child_idx)
  | Rollback => Returns (rollback si)
  | SetLoopOpt pos opt => Returns (fst (set_loop_opt si pos opt))
  end.

(** A sequence of calls, until one of them stops the process. *)
Fixpoint call_all
    (run : transformation -> scop_t pet_scop ->
           outcome (scop_t pet_scop * Z))
    (cs : list call) (si : scop_t pet_scop) : outcome (scop_t pet_scop) :=
  match cs with
  | [] => Returns si
  | c :: cs' =>
      match call_one run c si with
      | Returns si' => call_all run cs' si'
      | Aborts => Aborts
      end
  end.

End Session.

Arguments get_type {pet_scop} si.
Arguments get_num_children {pet_scop} si.
Arguments set_loop_opt {pet_scop} si pos opt.
Arguments get_scop_callback {pet_scop}
  get_dependencies pet_scop_get_schedule scop' scops.
Arguments call_one {pet_scop} run c si.
Arguments call_all {pet_scop} run cs si.

End CtadashiMore.

(** ** More of the legality check ([tadashi.c]) *)

Module LegalityMore.
Import Isl Legality.
Local Open Scope string_scope.

(** [transform_scop] reads a schedule from the standard input, checks it
    against the dependences of the SCoP and generates code for it, or for
    the schedule of the SCoP when the check fails.  The model takes the
    schedule that was read, the dependences and the schedule of the SCoP,
    and returns the message that is printed and the schedule that goes to
    [generate_code]. *)
Definition transform_scop (ctx : option isl_ctx)
    (from_stdin : option isl_schedule)
    (dependencies : option isl_union_map)
    (scop_schedule : option isl_schedule)
  : string * option isl_schedule :=
  let schedule := from_stdin in
  if negb (isl_bool_holds (check_schedule_legality ctx schedule dependencies))
  then
    let schedule := scop_schedule in
    ("Illegal schedule!", schedule)
  else ("Schedule is legal!", schedule).

(** The schedule map [S] with every schedule point [t] moved to
    [k * t + c]. *)
Definition reschedule (k : Z) (c : list Z) (S : isl_union_map)
  : isl_union_map :=
  map (fun at_ =>
         (fst at_,
          {| pt_tuple := pt_tuple (snd at_);
             pt_coords := zip_with (fun x ci => k * x + ci)
                                   (pt_coords (snd at_)) c |}))
      S.

End LegalityMore.

(** ** An experiment with the schedule tree ([tree_manipulation]) *)

Module Experiments.
Import Isl.

Definition isl_schedule_node_get_child (node : option isl_schedule_node)
    (pos : Z) : option isl_schedule_node :=
  isl_schedule_node_child (isl_schedule_node_copy node) pos.

(** [tree_manipulation] prints the nodes it builds and returns nothing: the
    model returns the nodes [jn] and [leaf] that it holds at its end. *)
Definition tree_manipulation (schedule : option isl_schedule)
  : option isl_schedule_node * option isl_schedule_node :=
  let ctx := isl_schedule_get_ctx schedule in
  let root := isl_schedule_get_root schedule in
  let in_node := isl_schedule_node_get_child root 0 in
  let jn := isl_schedule_node_get_child in_node 0 in
  let mupa := isl_schedule_node_band_get_partial_schedule jn in
  let jn := isl_schedule_node_delete jn in
  let jn := isl_schedule_node_parent jn in
  let jn := isl_schedule_node_insert_partial_schedule jn mupa in
  let leaf := isl_schedule_node_get_child jn 0 in
  (jn, leaf).

End Experiments.

(** ** The pieces of a shift *)

Module ShiftPieces.
Import Isl Transformations.

(** The pieces that the loop of [_shift_partial] gathers in general: on the
    [j]-th domain the expression [piece j], left out when its own domain is
    empty. *)
Fixpoint shift_pieces (domains : list isl_set) (j : nat)
    (piece : nat -> isl_set -> isl_pw_aff) : isl_union_pw_aff :=
  match domains with
  | [] => []
  | s :: rest =>
      (if points_is_empty (set_points (pa_domain (piece j s))) then []
       else [piece j s])
      ++ shift_pieces rest (S j) piece
  end.

(** The piece of a shift by coordinate [id_idx] on piece [idx]: the
    coordinate on the whole space of the selected domain, zero on the
    other domains. *)
Definition var_piece (idx id_idx : Z) (j : nat) (s : isl_set) : isl_pw_aff :=
  if idx =? Z.of_nat j
  then {| pa_domain := {| set_space := set_space s; set_points := Universe |};
          pa_aff := fun c => nth (Z.to_nat id_idx) c 0 |}
  else {| pa_domain := s; pa_aff := fun _ => 0 |}.

End ShiftPieces.

(** ** An experiment with shifts ([brutus]) *)

Module Brutus.
Import Isl.

Definition isl_union_pw_aff_get_ctx (upa : option isl_union_pw_aff)
  : option unit :=
  do _ <- upa; Some tt.

Definition isl_set_copy (set : option isl_set) : option isl_set := set.

(** The constant [v] on every set of the domain that is not empty. *)
Definition isl_union_pw_aff_val_on_domain (domain : option isl_union_set)
    (v : option Z) : option isl_union_pw_aff :=
  do d <- domain; do v <- v;
  Some (map (fun s => {| pa_domain := s; pa_aff := fun _ => v |})
            (filter (fun s => negb (points_is_empty (set_points s))) d)).

(** The space of a union expression is its parameter space, which the
    model leaves out: what matters is that the handle is not NULL. *)
Definition isl_union_pw_aff_get_space (upa : option isl_union_pw_aff)
  : option unit :=
  do _ <- upa; Some tt.

Definition isl_union_pw_aff_empty_space (space : option unit)
  : option isl_union_pw_aff :=
  do _ <- space; Some [].

Definition isl_pw_aff_get_space (pa : option isl_pw_aff) : option isl_space :=
  do pa <- pa; Some (set_space (pa_domain pa)).

Definition isl_union_pw_aff_list := list isl_union_pw_aff.

Definition isl_multi_union_pw_aff_get_list
    (mupa : option isl_multi_union_pw_aff) : option isl_union_pw_aff_list :=
  option_map mupa_list mupa.

Definition isl_union_pw_aff_list_size (list : option isl_union_pw_aff_list)
  : isl_size :=
  match list with
  | Some l => Z.of_nat (length l)
  | None => isl_size_error
  end.

Definition isl_union_pw_aff_list_alloc {C} (ctx : option C) (n : Z)
  : option isl_union_pw_aff_list :=
  do _ <- ctx; if n <? 0 then None else Some [].

Definition isl_union_pw_aff_list_get_at (list : option isl_union_pw_aff_list)
    (index : Z) : option isl_union_pw_aff :=
  do l <- list;
  if index <? 0 then None else nth_error l (Z.to_nat index).

Definition isl_union_pw_aff_list_add (list : option isl_union_pw_aff_list)
    (el : option isl_union_pw_aff) : option isl_union_pw_aff_list :=
  do l <- list; do el <- el; Some (l ++ [el]).

(** The list must have one expression per dimension of the space; the
    result lives in the space. *)
Definition isl_multi_union_pw_aff_from_union_pw_aff_list
    (space : option isl_space) (list : option isl_union_pw_aff_list)
  : option isl_multi_union_pw_aff :=
  do space <- space; do l <- list;
  if Nat.eqb (length l) (isl_space_dim space)
  then Some {| mupa_tuple_id := space_tuple_name space; mupa_list := l |}
  else None.

Definition proc_upa (upa : option isl_union_pw_aff)
  : option isl_union_pw_aff :=
  let ctx := isl_union_pw_aff_get_ctx upa in
  let domain := isl_union_pw_aff_domain upa in
  let slist := isl_union_set_get_set_list domain in
  let val := isl_val_int_from_si ctx 0 in
  let upa := isl_union_pw_aff_val_on_domain domain val in
  let space := isl_union_pw_aff_get_space upa in
  let upa := isl_union_pw_aff_empty_space space in
  let num_sets := isl_set_list_n_set slist in
  fold_left
    (fun upa set_idx =>
       let set := isl_set_list_get_at slist set_idx in
       let val := isl_val_int_from_si ctx (100 + 10 * set_idx) in
       let pa := isl_pw_aff_val_on_domain (isl_set_copy set) val in
       let upa := isl_union_pw_aff_add_pw_aff upa pa in
       let space := isl_pw_aff_get_space pa in
       upa)
    (map Z.of_nat (seq 0 (Z.to_nat num_sets))) upa.

Definition brutus (node : option isl_schedule_node)
  : option isl_multi_union_pw_aff :=
  let ctx := isl_schedule_node_get_ctx node in
  let mupa := isl_schedule_node_band_get_partial_schedule node in
  let space := isl_schedule_node_band_get_space node in
  let upal := isl_multi_union_pw_aff_get_list mupa in
  let upal_size := isl_union_pw_aff_list_size upal in
  let upal_new := isl_union_pw_aff_list_alloc ctx upal_size in
  let upal_new :=
    fold_left
      (fun upal_new upal_idx =>
         let upa := isl_union_pw_aff_list_get_at upal upal_idx in
         let upa := proc_upa upa in
         isl_union_pw_aff_list_add upal_new upa)
      (map Z.of_nat (seq 0 (Z.to_nat upal_size))) upal_new in
  isl_multi_union_pw_aff_from_union_pw_aff_list space upal_new.

(** [shift_and_print] prints the partial schedule after the shift. *)
Definition shift_and_print (node : option isl_schedule_node)
    (mupa : option isl_multi_union_pw_aff) : option isl_schedule_node :=
  let node := isl_schedule_node_band_shift node mupa in
  let mupa := isl_schedule_node_band_get_partial_schedule node in
  node.

(** The constant of [proc_upa] on the [j]-th domain. *)
Definition brutus_piece (j : nat) (s : isl_set) : isl_pw_aff :=
  {| pa_domain := s; pa_aff := fun _ => 100 + 10 * Z.of_nat j |}.

End Brutus.

(** ** More sample schedules *)

Module ExamplesMore.
Import Isl Examples.
Local Open Scope string_scope.

(** The loop over [T(0..3)] under a band whose partial schedule has no
    tuple identifier. *)
Definition anonymous : isl_schedule :=
  {| schedule_ctx := isl_ctx_alloc_with_pet_options;
     schedule_root :=
       DomainNode [T_domain]
         (BandNode
            (isl_schedule_band_from_multi_union_pw_aff
               {| mupa_tuple_id := None;
                  mupa_list := [[{| pa_domain := T_domain;
                                    pa_aff := coordinate 0 |}]] |})
            LeafNode) |}.

Definition anonymous_band : isl_schedule_node :=
  {| node_schedule := anonymous; node_path := [0%nat] |}.

(** Three loops one after the other:
    [for i: A(i); for i: B(i); for i: T(i)]. *)
Definition three_kids : list (isl_union_set * isl_schedule_tree) :=
  [([A_domain],
    BandNode (band_of "L_0" [{| pa_domain := A_domain;
                                pa_aff := coordinate 0 |}]) LeafNode);
   ([B_domain],
    BandNode (band_of "L_1" [{| pa_domain := B_domain;
                                pa_aff := coordinate 0 |}]) LeafNode);
   ([T_domain],
    BandNode (band_of "L_2" [{| pa_domain := T_domain;
                                pa_aff := coordinate 0 |}]) LeafNode)].

Definition three : isl_schedule :=
  {| schedule_ctx := isl_ctx_alloc_with_pet_options;
     schedule_root :=
       DomainNode [A_domain; B_domain; T_domain]
         (SequenceNode
            (map (fun fc => FilterNode (fst fc) (snd fc)) three_kids)) |}.

(** The node of the sequence. *)
Definition three_sequence : isl_schedule_node :=
  {| node_schedule := three; node_path := [0%nat] |}.

End ExamplesMore.

(** * Properties *)

(** ** Schedule trees and nodes *)

Module TreeFacts.
Import Isl.

Lemma list_eqb_Z_eq (l1 l2 : list Z) : list_eqb Z.eqb l1 l2 = true <-> l1 = l2.
Proof.
  revert l2; induction l1 as [|a l1 IH]; intros [|b l2]; simpl;
    try (split; [discriminate | congruence]); try tauto.
  rewrite andb_true_iff, Z.eqb_eq, IH. split.
  - intros [-> ->]; reflexivity.
  - intros H; injection H; auto.
Qed.

Lemma option_eqb_string_eq (x y : option string) :
  option_eqb String.eqb x y = true <-> x = y.
Proof.
  destruct x as [a|], y as [b|]; simpl;
    try (split; [discriminate | congruence]); try tauto.
  rewrite String.eqb_eq. split; congruence.
Qed.

Lemma tuple_is_equal_refl t : tuple_is_equal t t = true.
Proof.
  unfold tuple_is_equal. rewrite Nat.eqb_refl, andb_true_r.
  apply option_eqb_string_eq. reflexivity.
Qed.

Lemma isl_space_is_equal_refl s : isl_space_is_equal s s = true.
Proof.
  unfold isl_space_is_equal. rewrite tuple_is_equal_refl, andb_true_r.
  destruct (space_in s); simpl; auto using tuple_is_equal_refl.
Qed.

Lemma nth_error_list_set {A} (l : list A) i a x :
  nth_error l i = Some x -> nth_error (list_set l i a) i = Some a.
Proof.
  revert i; induction l as [|b l IH]; intros [|i]; simpl; try discriminate; auto.
Qed.

Lemma children_set_child t i c x :
  nth_error (tree_children t) i = Some x ->
  nth_error (tree_children (tree_set_child t i c)) i = Some c.
Proof.
  destruct t; simpl; try (destruct i as [|[|i]]; simpl; discriminate || auto; fail);
    eauto using nth_error_list_set.
Qed.

(** Grafting succeeds exactly where the path leads to a subtree. *)
Lemma tree_graft_defined t path new x :
  tree_at t path = Some x -> exists t', tree_graft t path new = Some t'.
Proof.
  revert t; induction path as [|i path IH]; intros t H; simpl in *.
  - eauto.
  - destruct (nth_error (tree_children t) i) as [c|]; try discriminate.
    destruct (IH _ H) as [c' ->]. eauto.
Qed.

(** After grafting, the path leads to the grafted subtree. *)
Lemma tree_at_graft t path new t' :
  tree_graft t path new = Some t' -> tree_at t' path = Some new.
Proof.
  revert t t'; induction path as [|i path IH]; intros t t' H; simpl in *.
  - congruence.
  - destruct (nth_error (tree_children t) i) as [c|] eqn:E; try discriminate.
    destruct (tree_graft c path new) as [c'|] eqn:G; try discriminate.
    injection H as <-. rewrite (children_set_child _ _ _ _ E). eauto.
Qed.

Lemma tree_at_app t p q :
  tree_at t (p ++ q) = do x <- tree_at t p; tree_at x q.
Proof.
  revert t; induction p as [|i p IH]; intros t; simpl; auto.
  destruct (nth_error (tree_children t) i); auto.
Qed.

Lemma tree_graft_app t p q new x :
  tree_at t p = Some x ->
  tree_graft t (p ++ q) new =
  do x' <- tree_graft x q new; tree_graft t p x'.
Proof.
  revert t; induction p as [|i p IH]; intros t H; simpl in *.
  - injection H as ->. destruct (tree_graft x q new); reflexivity.
  - destruct (nth_error (tree_children t) i) as [c|]; try discriminate.
    rewrite (IH _ H). destruct (tree_graft x q new); reflexivity.
Qed.

(** Grafting twice at the same place keeps the second graft. *)
Lemma tree_graft_graft t path new1 new2 t1 :
  tree_graft t path new1 = Some t1 ->
  tree_graft t1 path new2 = tree_graft t path new2.
Proof.
  revert t t1; induction path as [|i path IH]; intros t t1 H; simpl in *.
  - reflexivity.
  - destruct (nth_error (tree_children t) i) as [c|] eqn:E; try discriminate.
    destruct (tree_graft c path new1) as [c1|] eqn:G; try discriminate.
    injection H as <-. rewrite (children_set_child _ _ _ _ E).
    rewrite (IH _ _ G). destruct (tree_graft c path new2); auto.
    f_equal. destruct t; simpl in *; try reflexivity;
      try (destruct i; discriminate);
      f_equal; clear; revert i; induction children as [|b l IHl];
      intros [|i]; simpl; f_equal; auto.
Qed.

Lemma removelast_app_single {A} (l : list A) a : removelast (l ++ [a]) = l.
Proof. apply removelast_last. Qed.

Lemma set_or_sequence_set_child t i c :
  is_set_or_sequence (tree_set_child t i c) = is_set_or_sequence t.
Proof. destruct t; reflexivity. Qed.

(** Grafting below a node does not change what kind of node it is. *)
Lemma parent_kind_after_graft t path i new t' parent :
  tree_graft t (path ++ [i]) new = Some t' ->
  tree_at t path = Some parent ->
  exists parent', tree_at t' path = Some parent' /\
                  is_set_or_sequence parent' = is_set_or_sequence parent.
Proof.
  intros G A. rewrite (tree_graft_app _ _ _ _ _ A) in G. simpl in G.
  destruct (nth_error (tree_children parent) i); try discriminate.
  apply tree_at_graft in G. eexists. split; [exact G|].
  apply set_or_sequence_set_child.
Qed.

Lemma tree_at_removelast t path x :
  tree_at t path = Some x ->
  exists parent, tree_at t (removelast path) = Some parent.
Proof.
  induction path as [|i path _] using rev_ind; intros H.
  - simpl. eauto.
  - rewrite removelast_last. rewrite tree_at_app in H.
    destruct (tree_at t path); [eauto | discriminate].
Qed.

Lemma list_set_same {A} (l : list A) i a d :
  nth i l d = a -> list_set l i a = l.
Proof.
  revert i; induction l as [|b l IH]; intros [|i] H; simpl in *;
    [reflexivity | reflexivity | congruence | rewrite (IH i H); reflexivity].
Qed.

Lemma list_set_nth_error {A} (l : list A) i a :
  nth_error l i = Some a -> list_set l i a = l.
Proof.
  revert i; induction l as [|b l IH]; intros [|i] H; simpl in *;
    try discriminate.
  - congruence.
  - rewrite (IH i H). reflexivity.
Qed.

Lemma tree_graft_same t path x :
  tree_at t path = Some x -> tree_graft t path x = Some t.
Proof.
  revert t; induction path as [|i path IH]; intros t H; simpl in *.
  - congruence.
  - destruct (nth_error (tree_children t) i) as [c|] eqn:E;
      try discriminate.
    simpl in *. rewrite (IH _ H). simpl. f_equal.
    destruct t; simpl in *;
      try (destruct i as [|[|i]]; simpl in E; congruence);
      rewrite (list_set_nth_error _ _ _ E); reflexivity.
Qed.

(** *** Moving to a child *)

Lemma only_implicit_leaf_spec t :
  only_implicit_leaf t = true <-> tree_children t = [LeafNode].
Proof.
  unfold only_implicit_leaf.
  destruct (tree_children t) as [|[] [|? ?]]; split;
    solve [reflexivity | discriminate].
Qed.

Lemma child_in_range n t pos :
  node_tree n = Some t ->
  0 <= pos < Z.of_nat (length (tree_children t)) ->
  isl_schedule_node_child (Some n) pos =
  Some {| node_schedule := node_schedule n;
          node_path := node_path n ++ [Z.to_nat pos] |}.
Proof.
  intros Ht Hpos. unfold isl_schedule_node_child. simpl. rewrite Ht. simpl.
  destruct (only_implicit_leaf t) eqn:L.
  - apply only_implicit_leaf_spec in L. rewrite L in Hpos. simpl in Hpos.
    replace pos with 0 by lia. reflexivity.
  - replace ((0 <=? pos) && (pos <? Z.of_nat (length (tree_children t))))
      with true
      by (symmetry; apply andb_true_iff; split;
          [apply Z.leb_le | apply Z.ltb_lt]; lia).
    reflexivity.
Qed.

Lemma child_of_implicit_leaf n t pos :
  node_tree n = Some t ->
  tree_children t = [LeafNode] ->
  isl_schedule_node_child (Some n) pos =
  Some {| node_schedule := node_schedule n;
          node_path := node_path n ++ [0%nat] |}.
Proof.
  intros Ht L. apply only_implicit_leaf_spec in L.
  unfold isl_schedule_node_child. simpl. rewrite Ht. simpl. rewrite L.
  reflexivity.
Qed.

(** The leaf reached from a node whose only child it is: a leaf of the same
    schedule, with the node as its parent. *)
Lemma child_is_the_leaf n t pos :
  node_tree n = Some t ->
  tree_children t = [LeafNode] ->
  exists n',
    isl_schedule_node_child (Some n) pos = Some n' /\
    node_schedule n' = node_schedule n /\
    node_tree n' = Some LeafNode /\
    isl_schedule_node_parent (Some n') = Some n.
Proof.
  intros Ht L. rewrite (child_of_implicit_leaf n t pos Ht L).
  eexists. split; [reflexivity|]. split; [reflexivity|]. split.
  - unfold node_tree in *. cbn [node_schedule node_path].
    rewrite tree_at_app, Ht. simpl. rewrite L. reflexivity.
  - unfold isl_schedule_node_parent. cbn [node_schedule node_path].
    rewrite removelast_last. destruct n as [sched path].
    cbn [node_schedule node_path].
    destruct (path ++ [0%nat]) eqn:K; [|reflexivity].
    apply app_eq_nil in K. destruct K; discriminate.
Qed.

Lemma child_out_of_range n t pos :
  node_tree n = Some t ->
  tree_children t <> [LeafNode] ->
  ~ 0 <= pos < Z.of_nat (length (tree_children t)) ->
  isl_schedule_node_child (Some n) pos = None.
Proof.
  intros Ht L Hpos. unfold isl_schedule_node_child. simpl. rewrite Ht. simpl.
  destruct (only_implicit_leaf t) eqn:E.
  - apply only_implicit_leaf_spec in E. contradiction.
  - destruct ((0 <=? pos) && (pos <? Z.of_nat (length (tree_children t))))
      eqn:R; [|reflexivity].
    apply andb_true_iff in R. destruct R as [R1 R2].
    apply Z.leb_le in R1. apply Z.ltb_lt in R2. lia.
Qed.

Lemma child_without_tree n pos :
  node_tree n = None -> isl_schedule_node_child (Some n) pos = None.
Proof.
  intros Ht. unfold isl_schedule_node_child. simpl. rewrite Ht. reflexivity.
Qed.

End TreeFacts.

(** ** The transformations *)

Module TransformationFacts.
Import Isl Transformations Ctadashi Examples TreeFacts.

Lemma graft_tree_inv n tree n' :
  isl_schedule_node_graft_tree n tree = Some n' ->
  node_path n' = node_path n /\
  node_tree n' = Some tree /\
  schedule_ctx (node_schedule n') = schedule_ctx (node_schedule n) /\
  tree_graft (schedule_root (node_schedule n)) (node_path n) tree =
  Some (schedule_root (node_schedule n')).
Proof.
  unfold isl_schedule_node_graft_tree, node_tree. intros H.
  destruct (tree_graft _ _ _) as [root|] eqn:G; try discriminate.
  injection H as <-. simpl. repeat split; auto.
  apply (tree_at_graft _ _ _ _ G).
Qed.

Lemma graft_tree_defined n tree x :
  node_tree n = Some x ->
  exists n', isl_schedule_node_graft_tree n tree = Some n'.
Proof.
  unfold isl_schedule_node_graft_tree, node_tree. intros H.
  destruct (tree_graft_defined _ _ tree _ H) as [root ->]. eauto.
Qed.

(** *** Shifts *)

Lemma band_shift_inv n b c shift n' :
  node_tree n = Some (BandNode b c) ->
  isl_schedule_node_band_shift (Some n) shift = Some n' ->
  exists b' sh,
    shift = Some sh /\
    isl_multi_union_pw_aff_add (band_mupa b) sh = Some (band_mupa b') /\
    node_path n' = node_path n /\
    node_tree n' = Some (BandNode b' c).
Proof.
  intros Hn H. unfold isl_schedule_node_band_shift in H.
  destruct shift as [sh|]; try discriminate. rewrite Hn in H.
  destruct (_ && _); try discriminate.
  unfold isl_schedule_band_shift in H.
  destruct (isl_union_set_is_subset _ _); try discriminate.
  destruct (isl_multi_union_pw_aff_add (band_mupa b) sh) as [m|] eqn:A;
    try discriminate.
  destruct (graft_tree_inv _ _ _ H) as (Hp & Ht & _).
  exists (set_band_mupa b m), sh. auto.
Qed.

Lemma add_keeps_tuple_id m1 m2 m :
  isl_multi_union_pw_aff_add m1 m2 = Some m ->
  mupa_tuple_id m = mupa_tuple_id m1.
Proof.
  unfold isl_multi_union_pw_aff_add.
  destruct (isl_space_is_equal _ _); try discriminate.
  intros H; injection H as <-. reflexivity.
Qed.

(** The assertion of [_shift_partial] fails exactly when the partial
    schedule at the node does not have one output dimension. *)
Lemma shift_partial_aborts node fn idx const_val :
  _shift_partial node fn idx const_val = Aborts <->
  isl_multi_union_pw_aff_dim
    (isl_schedule_node_band_get_partial_schedule node) <> 1.
Proof.
  unfold _shift_partial.
  destruct (isl_multi_union_pw_aff_dim _ =? 1) eqn:E; simpl.
  - apply Z.eqb_eq in E. split; [discriminate | contradiction].
  - apply Z.eqb_neq in E. tauto.
Qed.

Lemma band_dim n b c :
  node_tree n = Some (BandNode b c) ->
  isl_multi_union_pw_aff_dim
    (isl_schedule_node_band_get_partial_schedule (Some n)) =
  Z.of_nat (isl_schedule_band_n_member b).
Proof. intros H. simpl. rewrite H. reflexivity. Qed.

Lemma shift_partial_band_aborts n b c fn idx const_val :
  node_tree n = Some (BandNode b c) ->
  _shift_partial (Some n) fn idx const_val = Aborts <->
  isl_schedule_band_n_member b <> 1%nat.
Proof.
  intros H. rewrite shift_partial_aborts, (band_dim _ _ _ H). lia.
Qed.

Lemma shift_partial_tuple_id n b c fn idx const_val n' :
  node_tree n = Some (BandNode b c) ->
  _shift_partial (Some n) fn idx const_val = Returns (Some n') ->
  exists b',
    node_tree n' = Some (BandNode b' c) /\
    mupa_tuple_id (band_mupa b') = mupa_tuple_id (band_mupa b).
Proof.
  intros Hn H. unfold _shift_partial in H.
  destruct (negb _); try discriminate. injection H as H.
  destruct (band_shift_inv _ _ _ _ _ Hn H) as (b' & sh & _ & A & _ & Ht).
  exists b'. split; [exact Ht | exact (add_keeps_tuple_id _ _ _ A)].
Qed.

(** C10.  Each of the four shifts asserts that the partial schedule of the
    band at the node has exactly one output dimension: on a band with one
    dimension none of them stops on the assertion, on a band with any other
    number of dimensions each of them does, and so does the exported
    [partial_shift_val] of the binding. *)
Theorem shift_asserts_one_dimension n b c pa_idx id_idx :
  node_tree n = Some (BandNode b c) ->
  (isl_schedule_band_n_member b = 1%nat ->
   tadashi_partial_shift_val (Some n) pa_idx id_idx <> Aborts /\
   tadashi_partial_shift_var (Some n) pa_idx id_idx <> Aborts /\
   tadashi_full_shift_val (Some n) pa_idx id_idx <> Aborts /\
   tadashi_full_shift_var (Some n) pa_idx id_idx <> Aborts) /\
  (isl_schedule_band_n_member b <> 1%nat ->
   tadashi_partial_shift_val (Some n) pa_idx id_idx = Aborts /\
   tadashi_partial_shift_var (Some n) pa_idx id_idx = Aborts /\
   tadashi_full_shift_val (Some n) pa_idx id_idx = Aborts /\
   tadashi_full_shift_var (Some n) pa_idx id_idx = Aborts /\
   forall (pet_scop : Type) tadashi_check_legality (si : scop_t pet_scop),
     current_node si = Some n ->
     partial_shift_val pet_scop tadashi_check_legality si pa_idx id_idx =
     Aborts).
Proof.
  intros Hn.
  unfold tadashi_partial_shift_val, tadashi_partial_shift_var,
    tadashi_full_shift_val, tadashi_full_shift_var.
  split; intros Hd.
  - repeat split; rewrite (shift_partial_band_aborts _ _ _ _ _ _ Hn); tauto.
  - assert (A : forall fn, _shift_partial (Some n) fn pa_idx id_idx = Aborts)
      by (intros fn; apply (shift_partial_band_aborts _ _ _ _ _ _ Hn), Hd).
    repeat split; auto.
    intros pet_scop tcl si Hc. unfold partial_shift_val, pre_transform.
    destruct si as [sc dep cur tmp m str]; simpl in *; subst cur.
    unfold tadashi_partial_shift_val.
    destruct tmp; simpl; rewrite A; reflexivity.
Qed.

Lemma shift_asserts_one_dimension_witness :
  tadashi_full_shift_var (Some two_node) 1 0 <> Aborts /\
  tadashi_full_shift_val (Some wide_band) 0 5 = Aborts.
Proof.
  split.
  - apply (shift_asserts_one_dimension two_node two_band LeafNode 1 0 eq_refl).
    reflexivity.
  - apply (shift_asserts_one_dimension wide_band _ LeafNode 0 5 eq_refl).
    simpl. discriminate.
Defined.

(** C8.  Whichever of the four shifts is applied to a band with a
    one-dimensional partial schedule, the band that the resulting node
    points to has the output tuple identifier that the band had before. *)
Theorem shift_preserves_tuple_id n b c pa_idx id_idx n' :
  node_tree n = Some (BandNode b c) ->
  isl_schedule_band_n_member b = 1%nat ->
  tadashi_partial_shift_val (Some n) pa_idx id_idx = Returns (Some n') \/
  tadashi_partial_shift_var (Some n) pa_idx id_idx = Returns (Some n') \/
  tadashi_full_shift_val (Some n) pa_idx id_idx = Returns (Some n') \/
  tadashi_full_shift_var (Some n) pa_idx id_idx = Returns (Some n') ->
  exists b',
    node_tree n' = Some (BandNode b' c) /\
    mupa_tuple_id (band_mupa b') = mupa_tuple_id (band_mupa b).
Proof.
  intros Hn _ H.
  unfold tadashi_partial_shift_val, tadashi_partial_shift_var,
    tadashi_full_shift_val, tadashi_full_shift_var in H.
  destruct H as [H | [H | [H | H]]];
    exact (shift_partial_tuple_id _ _ _ _ _ _ _ Hn H).
Qed.

Lemma shift_preserves_tuple_id_witness :
  exists n' b',
    tadashi_partial_shift_var (Some two_node) 1 0 = Returns (Some n') /\
    node_tree n' = Some (BandNode b' LeafNode) /\
    mupa_tuple_id (band_mupa b') = Some "L_0"%string.
Proof.
  destruct (tadashi_partial_shift_var (Some two_node) 1 0)
    as [[n'|]|] eqn:E; try (vm_compute in E; discriminate E).
  destruct (shift_preserves_tuple_id two_node two_band LeafNode 1 0 n'
              eq_refl eq_refl (or_intror (or_introl E))) as (b' & Ht & Hid).
  exists n', b'. auto.
Defined.

(** *** The effect of a shift by a constant *)

Lemma list_eqb_Z_refl (l : list Z) : list_eqb Z.eqb l l = true.
Proof. apply list_eqb_Z_eq. reflexivity. Qed.

Lemma coords_in_self a c : In c a -> coords_in (Points a) c = true.
Proof.
  intros H. simpl. apply existsb_exists. exists c. split; [exact H|].
  apply list_eqb_Z_refl.
Qed.

Lemma points_subset_refl pts : points_subset pts pts = true.
Proof.
  destruct pts as [|a]; simpl; auto.
  apply forallb_forall. intros c Hc. apply existsb_exists.
  exists c. split; [exact Hc | apply list_eqb_Z_refl].
Qed.

Lemma coords_in_intersect_self pts c :
  coords_in pts c = true -> coords_in (points_intersect pts pts) c = true.
Proof.
  destruct pts as [|a]; simpl; auto.
  intros H. apply existsb_exists in H. destruct H as (x & Hx & E).
  apply list_eqb_Z_eq in E. subst x.
  apply existsb_exists. exists c. split; [|apply list_eqb_Z_refl].
  apply filter_In. split; [exact Hx|].
  apply existsb_exists. exists c. split; [exact Hx | apply list_eqb_Z_refl].
Qed.

Lemma coords_in_not_empty pts c :
  coords_in pts c = true -> points_is_empty pts = false.
Proof. destruct pts as [|[|x a]]; simpl; auto. Qed.

Lemma option_eqb_string_trans (x y z : option string) :
  option_eqb String.eqb x z = true -> option_eqb String.eqb y z = true ->
  option_eqb String.eqb x y = true.
Proof.
  rewrite !option_eqb_string_eq. congruence.
Qed.

(** Two sets that hold the same point live in the same space. *)
Lemma contains_same_space s1 s2 p :
  isl_set_contains s1 p = true -> isl_set_contains s2 p = true ->
  isl_space_is_equal (set_space s1) (set_space s2) = true.
Proof.
  unfold isl_set_contains, point_in_space, isl_space_is_equal, tuple_is_equal,
    space_tuple_name, isl_space_dim.
  intros H1 H2.
  apply andb_true_iff in H1. destruct H1 as [H1 _].
  apply andb_true_iff in H2. destruct H2 as [H2 _].
  apply andb_true_iff in H1. destruct H1 as [H1 L1].
  apply andb_true_iff in H2. destruct H2 as [H2 L2].
  apply andb_true_iff in H1. destruct H1 as [I1 N1].
  apply andb_true_iff in H2. destruct H2 as [I2 N2].
  destruct (space_in (set_space s1)); try discriminate.
  destruct (space_in (set_space s2)); try discriminate.
  simpl. rewrite (option_eqb_string_trans _ _ _ N1 N2). simpl.
  apply Nat.eqb_eq in L1, L2. apply Nat.eqb_eq. congruence.
Qed.

Lemma distinct_spaces_app pre s rest s' :
  distinct_spaces (pre ++ s :: rest) = true -> In s' pre ->
  isl_space_is_equal (set_space s') (set_space s) = false.
Proof.
  induction pre as [|a pre IH]; simpl; intros H Hin; [contradiction|].
  apply andb_true_iff in H. destruct H as [Ha Hd].
  destruct Hin as [<- | Hin]; [|auto].
  rewrite forallb_forall in Ha. apply negb_true_iff, Ha.
  apply in_or_app. right. left. reflexivity.
Qed.

Lemma distinct_spaces_tail s u : distinct_spaces (s :: u) = true ->
  distinct_spaces u = true /\
  forall s', In s' u ->
             isl_space_is_equal (set_space s) (set_space s') = false.
Proof.
  simpl. intros H. apply andb_true_iff in H. destruct H as [Ha Hd].
  split; [exact Hd|]. intros s' Hs'. rewrite forallb_forall in Ha.
  apply negb_true_iff. auto.
Qed.

(** An expression on a space that the union does not have yet is added at
    its end. *)
Lemma add_part_fresh upa pa :
  (forall q, In q upa ->
     isl_space_is_equal (set_space (pa_domain q)) (set_space (pa_domain pa)) =
     false) ->
  add_part upa pa = Some (upa ++ [pa]).
Proof.
  induction upa as [|q upa IH]; simpl; intros H; [reflexivity|].
  rewrite (H q (or_introl eq_refl)).
  rewrite IH by (intros q' Hq'; apply H; right; exact Hq'). reflexivity.
Qed.

Lemma pa_val_if (c : bool) set v :
  (if c then _pa_val set v else _pa_val set 0) =
  _pa_val set (if c then v else 0).
Proof. destruct c; reflexivity. Qed.

Lemma pa_val_some s x :
  _pa_val (Some s) x = Some {| pa_domain := s; pa_aff := fun _ => x |}.
Proof. reflexivity. Qed.

Lemma add_pw_aff_some acc pa :
  isl_union_pw_aff_add_pw_aff (Some acc) (Some pa) =
  if points_is_empty (set_points (pa_domain pa)) then Some acc
  else add_part acc pa.
Proof. reflexivity. Qed.

(** The loop of [_shift_partial], for a constant shift, on domains that
    live in distinct spaces. *)
Lemma shift_loop_val idx v rest :
  forall pre acc,
    distinct_spaces (pre ++ rest) = true ->
    (forall q, In q acc -> exists s, In s pre /\ pa_domain q = s) ->
    fold_left
      (fun upa set_idx =>
         isl_union_pw_aff_add_pw_aff upa
           (if idx =? set_idx
            then _pa_val (isl_set_list_get_at (Some (pre ++ rest)) set_idx) v
            else _pa_val (isl_set_list_get_at (Some (pre ++ rest)) set_idx) 0))
      (map Z.of_nat (seq (length pre) (length rest))) (Some acc) =
    Some (acc ++ val_pieces rest (length pre) (shift_amount idx v)).
Proof.
  induction rest as [|s rest IH]; intros pre acc Hd Hacc.
  - simpl. rewrite app_nil_r. reflexivity.
  - cbn [length seq map fold_left val_pieces]. cbv beta.
    rewrite pa_val_if.
    assert (G : isl_set_list_get_at (Some (pre ++ s :: rest))
                  (Z.of_nat (length pre)) = Some s).
    { unfold isl_set_list_get_at.
      replace (Z.of_nat (length pre) <? 0) with false
        by (symmetry; apply Z.ltb_ge; lia).
      rewrite Nat2Z.id, nth_error_app2, Nat.sub_diag by lia. reflexivity. }
    rewrite G, pa_val_some, add_pw_aff_some.
    fold (shift_amount idx v (length pre)). cbn [pa_domain].
    replace (pre ++ s :: rest) with ((pre ++ [s]) ++ rest) in *
      by (rewrite <- app_assoc; reflexivity).
    replace (S (length pre)) with (length (pre ++ [s]))
      by (rewrite length_app; simpl; lia).
    destruct (points_is_empty (set_points s)) eqn:E.
    + cbn [app]. apply (IH (pre ++ [s]) acc Hd).
      intros q Hq. destruct (Hacc q Hq) as (s' & Hs' & Hq').
      exists s'. split; [apply in_or_app; left; exact Hs' | exact Hq'].
    + rewrite add_part_fresh.
      * rewrite app_assoc. apply (IH (pre ++ [s]) _ Hd).
        intros q Hq. apply in_app_or in Hq. destruct Hq as [Hq | [<- | []]].
        -- destruct (Hacc q Hq) as (s' & Hs' & Hq').
           exists s'. split; [apply in_or_app; left; exact Hs' | exact Hq'].
        -- exists s. split; [apply in_or_app; right; left|]; reflexivity.
      * intros q Hq. destruct (Hacc q Hq) as (s' & Hs' & ->). simpl.
        rewrite <- app_assoc in Hd. simpl in Hd.
        exact (distinct_spaces_app _ _ _ _ Hd Hs').
Qed.

Lemma val_pieces_domains domains j amount :
  map pa_domain (val_pieces domains j amount) =
  filter (fun s => negb (points_is_empty (set_points s))) domains.
Proof.
  revert j; induction domains as [|s rest IH]; intros j; simpl; auto.
  destruct (points_is_empty (set_points s)); simpl; rewrite IH; reflexivity.
Qed.

Lemma distinct_spaces_filter f u :
  distinct_spaces u = true -> distinct_spaces (filter f u) = true.
Proof.
  induction u as [|s u IH]; simpl; auto. intros H.
  apply andb_true_iff in H. destruct H as [Ha Hd].
  destruct (f s); simpl; auto. rewrite IH by exact Hd.
  rewrite andb_true_r. apply forallb_forall. intros s' Hs'.
  apply filter_In in Hs'. rewrite forallb_forall in Ha. apply Ha, Hs'.
Qed.

Lemma find_set_self u s :
  distinct_spaces u = true -> In s u -> find_set u (set_space s) = Some s.
Proof.
  unfold find_set. induction u as [|a u IH]; simpl; intros Hd Hin.
  - contradiction.
  - destruct Hin as [-> | Hin].
    + rewrite isl_space_is_equal_refl. reflexivity.
    + destruct (distinct_spaces_tail _ _ Hd) as [Hd' Ha].
      rewrite (Ha s Hin). auto.
Qed.

(** The constant pieces cover the domains they were made for. *)
Lemma val_pieces_cover domains amount :
  distinct_spaces domains = true ->
  isl_union_set_is_subset domains
    (map pa_domain (val_pieces domains 0 amount)) = true.
Proof.
  intros Hd. rewrite val_pieces_domains.
  unfold isl_union_set_is_subset. apply forallb_forall. intros s Hs.
  destruct (points_is_empty (set_points s)) eqn:E; simpl; auto.
  rewrite find_set_self.
  - apply points_subset_refl.
  - apply distinct_spaces_filter, Hd.
  - apply filter_In. split; [exact Hs|]. rewrite E. reflexivity.
Qed.

Lemma find_part_val_piece domains amount :
  forall start j s,
    distinct_spaces domains = true ->
    nth_error domains j = Some s ->
    points_is_empty (set_points s) = false ->
    find_part (val_pieces domains start amount) (set_space s) =
    Some {| pa_domain := s; pa_aff := fun _ => amount (j + start)%nat |}.
Proof.
  unfold find_part.
  induction domains as [|a rest IH]; intros start j s Hd Hn He.
  - destruct j; discriminate.
  - destruct (distinct_spaces_tail _ _ Hd) as [Hd' Ha].
    destruct j as [|j]; simpl in Hn.
    + injection Hn as ->. simpl. rewrite He. simpl.
      rewrite isl_space_is_equal_refl. reflexivity.
    + simpl. assert (Hin : In s rest) by (eapply nth_error_In; eauto).
      destruct (points_is_empty (set_points a)); simpl.
      * rewrite (IH (S start) j s Hd' Hn He), Nat.add_succ_r. reflexivity.
      * rewrite (Ha s Hin).
        rewrite (IH (S start) j s Hd' Hn He), Nat.add_succ_r. reflexivity.
Qed.

Lemma union_pw_aff_eval_app l1 l2 p :
  isl_union_pw_aff_eval (l1 ++ l2) p =
  match isl_union_pw_aff_eval l1 p with
  | Some v => Some v
  | None => isl_union_pw_aff_eval l2 p
  end.
Proof.
  induction l1 as [|pa l1 IH]; simpl; auto.
  destruct (isl_pw_aff_eval pa p); auto.
Qed.

(** The sum of a union expression and constant pieces on its domains, at a
    point of its [j]-th piece. *)
Lemma add_val_pieces_eval upa amount j pa p :
  distinct_spaces (map pa_domain upa) = true ->
  nth_error upa j = Some pa ->
  isl_set_contains (pa_domain pa) p = true ->
  isl_union_pw_aff_eval
    (isl_union_pw_aff_add upa (val_pieces (map pa_domain upa) 0 amount)) p =
  Some (pa_aff pa (pt_coords p) + amount j).
Proof.
  intros Hd Hn Hp.
  assert (He : points_is_empty (set_points (pa_domain pa)) = false).
  { unfold isl_set_contains in Hp. apply andb_true_iff in Hp.
    exact (coords_in_not_empty _ _ (proj2 Hp)). }
  assert (Hfind : find_part (val_pieces (map pa_domain upa) 0 amount)
                    (set_space (pa_domain pa)) =
                  Some {| pa_domain := pa_domain pa;
                          pa_aff := fun _ => amount j |}).
  { rewrite (find_part_val_piece _ amount 0 j (pa_domain pa) Hd).
    - rewrite Nat.add_0_r. reflexivity.
    - rewrite nth_error_map, Hn. reflexivity.
    - exact He. }
  unfold isl_union_pw_aff_add.
  set (pieces := val_pieces (map pa_domain upa) 0 amount) in *.
  clearbody pieces. remember (amount j) as x eqn:Hx. clear Hx. revert j Hn.
  induction upa as [|a upa IH]; intros j Hn; [destruct j; discriminate|].
  cbn [map] in Hd. destruct (distinct_spaces_tail _ _ Hd) as [Hd' Ha].
  cbn [flat_map]. rewrite union_pw_aff_eval_app.
  destruct j as [|j]; simpl in Hn.
  - injection Hn as ->. rewrite Hfind.
    assert (Hc : isl_set_contains
                   (pa_domain
                      (isl_pw_aff_add pa
                         {| pa_domain := pa_domain pa;
                            pa_aff := fun _ => x |})) p = true).
    { unfold isl_set_contains in *. simpl.
      apply andb_true_iff in Hp. destruct Hp as [Hs Hc].
      rewrite Hs. simpl. apply coords_in_intersect_self, Hc. }
    unfold isl_set_contains in Hc. apply andb_true_iff in Hc.
    rewrite (coords_in_not_empty _ _ (proj2 Hc)).
    simpl. unfold isl_pw_aff_eval, isl_set_contains.
    rewrite (proj1 Hc), (proj2 Hc). reflexivity.
  - assert (Hin : In (pa_domain pa) (map pa_domain upa))
      by (apply in_map; eapply nth_error_In; eauto).
    assert (Hne : isl_space_is_equal (set_space (pa_domain a))
                    (set_space (pa_domain pa)) = false) by (apply Ha, Hin).
    match goal with
    | |- match ?e with Some _ => _ | None => _ end = _ =>
        assert (Hnone : e = None)
    end.
    { destruct (find_part pieces (set_space (pa_domain a))) as [pa2|]; auto.
      destruct (points_is_empty
                  (set_points (pa_domain (isl_pw_aff_add a pa2)))); auto.
      cbn [isl_union_pw_aff_eval]. unfold isl_pw_aff_eval.
      destruct (isl_set_contains (pa_domain (isl_pw_aff_add a pa2)) p) eqn:C;
        auto.
      exfalso.
      assert (C' : isl_set_contains
                     {| set_space := set_space (pa_domain a);
                        set_points := Universe |} p = true).
      { unfold isl_set_contains in *. simpl in *.
        apply andb_true_iff in C. rewrite (proj1 C). reflexivity. }
      pose proof (contains_same_space _ _ _ C' Hp) as K.
      cbn [set_space] in K. congruence. }
    rewrite Hnone. exact (IH Hd' j Hn).
Qed.

(** A shift of a well-formed one-dimensional band by a constant returns a
    node at the same place; the band there has the tuple identifier it had,
    and its partial schedule has grown by the constant on the selected piece
    and by nothing on every other piece. *)
Lemma shift_val_adds_on_one_piece n b c id upa pa_idx val :
  node_tree n = Some (BandNode b c) ->
  band_mupa b = {| mupa_tuple_id := Some id; mupa_list := [upa] |} ->
  distinct_spaces (map pa_domain upa) = true ->
  isl_schedule_tree_is_subtree_anchored c = false ->
  exists n' b',
    tadashi_partial_shift_val (Some n) pa_idx val = Returns (Some n') /\
    tadashi_full_shift_val (Some n) pa_idx val = Returns (Some n') /\
    node_path n' = node_path n /\
    node_tree n' = Some (BandNode b' c) /\
    mupa_tuple_id (band_mupa b') = Some id /\
    forall j pa p,
      nth_error upa j = Some pa ->
      isl_set_contains (pa_domain pa) p = true ->
      isl_multi_union_pw_aff_eval (band_mupa b') p =
      Some [pa_aff pa (pt_coords p) + shift_amount pa_idx val j].
Proof.
  intros Ht Hm Hd Ha.
  set (pieces := val_pieces (map pa_domain upa) 0 (shift_amount pa_idx val)).
  set (shift := {| mupa_tuple_id := Some id; mupa_list := [pieces] |}).
  set (b' := set_band_mupa b
               {| mupa_tuple_id := Some id;
                  mupa_list := [isl_union_pw_aff_add upa pieces] |}).
  assert (E : _shift_partial (Some n) _pa_val pa_idx val =
              Returns (isl_schedule_node_graft_tree n (BandNode b' c))).
  { unfold _shift_partial.
    cbn [isl_schedule_node_get_ctx option_map
           isl_schedule_node_band_get_partial_schedule].
    rewrite Ht, Hm.
    cbn [isl_multi_union_pw_aff_get_tuple_id mupa_tuple_id
           isl_multi_union_pw_aff_dim mupa_list length Z.of_nat
           Pos.of_succ_nat Z.eqb Pos.eqb negb
           isl_multi_union_pw_aff_get_at nth_error
           isl_union_pw_aff_domain option_map isl_union_set_get_set_list
           isl_union_pw_aff_empty_ctx isl_set_list_n_set].
    rewrite Nat2Z.id.
    pose proof (shift_loop_val pa_idx val (map pa_domain upa) [] []) as L.
    simpl app in L. simpl length in L. rewrite L; [|exact Hd|intros q []].
    fold pieces.
    cbn [isl_multi_union_pw_aff_from_union_pw_aff
           isl_multi_union_pw_aff_set_tuple_id mupa_list].
    fold shift. f_equal.
    unfold isl_schedule_node_band_shift. rewrite Ht.
    assert (S1 : isl_space_is_equal
                   (isl_multi_union_pw_aff_get_space (band_mupa b))
                   (isl_multi_union_pw_aff_get_space shift) = true)
      by (rewrite Hm; apply isl_space_is_equal_refl).
    rewrite S1. cbn [isl_schedule_tree_is_subtree_anchored]. rewrite Ha.
    cbn [negb andb]. unfold isl_schedule_band_shift.
    assert (S2 : isl_union_set_is_subset
                   (isl_multi_union_pw_aff_domain (band_mupa b))
                   (isl_multi_union_pw_aff_domain shift) = true)
      by (rewrite Hm; unfold isl_multi_union_pw_aff_domain; simpl;
          apply val_pieces_cover, Hd).
    rewrite S2. unfold isl_multi_union_pw_aff_add. rewrite S1.
    rewrite Hm. reflexivity. }
  destruct (graft_tree_defined n (BandNode b' c) _ Ht) as [n' G].
  destruct (graft_tree_inv _ _ _ G) as (Hp & Hn' & _).
  exists n', b'.
  unfold tadashi_partial_shift_val, tadashi_full_shift_val.
  rewrite E, G. repeat (split; [reflexivity || assumption|]).
  intros j pa p Hn Hc. unfold isl_multi_union_pw_aff_eval. simpl.
  unfold pieces. rewrite (add_val_pieces_eval upa _ j pa p Hd Hn Hc).
  reflexivity.
Qed.

(** C6, the code at the input where it departs from the claim.  The band
    schedules the two statements [A] and [B]; [tadashi_full_shift_val] with
    piece 0 and value 5 adds 5 on [A] alone and leaves [B] where it was.
    The function is [tadashi_partial_shift_val] under another name. *)
Theorem full_shift_val_shifts_one_piece :
  tadashi_full_shift_val = tadashi_partial_shift_val /\
  exists node',
    tadashi_full_shift_val (Some two_node) 0 5 = Returns node' /\
    band_value (Some two_node) (instance "A" [1]) = Some [1] /\
    band_value (Some two_node) (instance "B" [1]) = Some [1] /\
    band_value node' (instance "A" [1]) = Some [6] /\
    band_value node' (instance "B" [1]) = Some [1].
Proof.
  split; [reflexivity|].
  destruct (tadashi_full_shift_val (Some two_node) 0 5) as [node'|] eqn:E;
    [|vm_compute in E; discriminate E].
  exists node'. split; [reflexivity|].
  assert (F : forall p, band_value node' p =
              match tadashi_full_shift_val (Some two_node) 0 5 with
              | Returns x => band_value x p
              | Aborts => None
              end) by (intros p; rewrite E; reflexivity).
  rewrite !F. repeat split; vm_compute; reflexivity.
Qed.

(** *** Interchange *)

Lemma delete_band n b child parent :
  node_tree n = Some (BandNode b child) ->
  node_path n <> [] ->
  node_parent_tree n = Some parent ->
  is_set_or_sequence parent = false ->
  isl_schedule_tree_is_subtree_anchored child = false ->
  isl_schedule_node_delete (Some n) = isl_schedule_node_graft_tree n child.
Proof.
  intros Ht Hp Hpar Hk Ha. unfold isl_schedule_node_delete.
  rewrite Ht, Hpar. destruct (node_path n); [contradiction|]. simpl.
  rewrite Hk, Ha. reflexivity.
Qed.

Lemma first_child_spec n t c cs :
  node_tree n = Some t ->
  tree_children t = c :: cs ->
  isl_schedule_node_first_child (Some n) =
  Some {| node_schedule := node_schedule n;
          node_path := node_path n ++ [0%nat] |}.
Proof.
  intros Ht Hc. unfold isl_schedule_node_first_child.
  rewrite (child_in_range n t 0 Ht) by (rewrite Hc; simpl; lia).
  reflexivity.
Qed.

Lemma insert_partial_schedule_spec n t parent mupa :
  node_tree n = Some t ->
  node_path n <> [] ->
  node_parent_tree n = Some parent ->
  is_set_or_sequence parent = false ->
  isl_schedule_tree_is_subtree_anchored t = false ->
  isl_schedule_node_insert_partial_schedule (Some n) (Some mupa) =
  isl_schedule_node_graft_tree n
    (BandNode (isl_schedule_band_from_multi_union_pw_aff mupa) t).
Proof.
  intros Ht Hp Hpar Hk Ha. unfold isl_schedule_node_insert_partial_schedule.
  rewrite Ht, Hpar. destruct (node_path n); [contradiction|].
  rewrite Hk, Ha. reflexivity.
Qed.

(** C4, as it holds of the code.  On a band whose only child is a band (in
    a tree where the band is not the root, is not a child of a set or
    sequence node and has no anchored node below), [tadashi_interchange]
    swaps the partial schedules: the originally inner band now stands at
    the place of the outer one, and below it stands a new band with the
    partial schedule of the originally outer band.  The returned node
    points to that new, inner band. *)
Theorem interchange_swaps_and_focuses_inner n b1 b2 c :
  node_tree n = Some (BandNode b1 (BandNode b2 c)) ->
  node_path n <> [] ->
  (forall parent, node_parent_tree n = Some parent ->
                  is_set_or_sequence parent = false) ->
  isl_schedule_tree_is_subtree_anchored c = false ->
  let inner := isl_schedule_band_from_multi_union_pw_aff (band_mupa b1) in
  exists n',
    tadashi_interchange (Some n) = Some n' /\
    tree_graft (schedule_root (node_schedule n)) (node_path n)
      (BandNode b2 (BandNode inner c)) =
    Some (schedule_root (node_schedule n')) /\
    tree_at (schedule_root (node_schedule n')) (node_path n) =
    Some (BandNode b2 (BandNode inner c)) /\
    node_path n' = node_path n ++ [0%nat] /\
    node_tree n' = Some (BandNode inner c).
Proof.
  intros Ht Hp Hpar Ha inner.
  destruct (tree_at_removelast _ _ _ Ht) as [parent Hparent].
  assert (Hk := Hpar _ Hparent).
  unfold tadashi_interchange.
  assert (Hm : isl_schedule_node_band_get_partial_schedule (Some n) =
               Some (band_mupa b1)) by (simpl; rewrite Ht; reflexivity).
  rewrite Hm, (delete_band _ _ _ _ Ht Hp Hparent Hk) by exact Ha.
  destruct (graft_tree_defined n (BandNode b2 c) _ Ht) as [n1 G1].
  rewrite G1. destruct (graft_tree_inv _ _ _ G1) as (P1 & T1 & _ & R1).
  rewrite (first_child_spec n1 _ c [] T1 eq_refl).
  set (n2 := {| node_schedule := node_schedule n1;
                node_path := node_path n1 ++ [0%nat] |}).
  assert (T2 : node_tree n2 = Some c).
  { unfold node_tree, n2; simpl. rewrite tree_at_app.
    unfold node_tree in T1. rewrite T1. reflexivity. }
  assert (Par2 : node_parent_tree n2 = Some (BandNode b2 c)).
  { unfold node_parent_tree, n2; simpl. rewrite removelast_last. exact T1. }
  assert (P2 : node_path n2 <> []).
  { unfold n2; simpl. intros E. apply app_eq_nil in E. destruct E; discriminate. }
  rewrite (insert_partial_schedule_spec n2 c _ (band_mupa b1)
             T2 P2 Par2 eq_refl Ha).
  destruct (graft_tree_defined n2 (BandNode inner c) _ T2) as [n3 G3].
  fold inner. rewrite G3.
  destruct (graft_tree_inv _ _ _ G3) as (P3 & T3 & _ & R3).
  exists n3.
  assert (R : tree_graft (schedule_root (node_schedule n)) (node_path n)
                (BandNode b2 (BandNode inner c)) =
              Some (schedule_root (node_schedule n3))).
  { rewrite <- R3. unfold n2; simpl. rewrite P1.
    unfold node_tree in T1. rewrite P1 in T1.
    rewrite (tree_graft_app _ _ _ _ _ T1). simpl.
    apply (tree_graft_graft _ _ _ (BandNode b2 (BandNode inner c))) in R1.
    exact (eq_sym R1). }
  split; [reflexivity|]. split; [exact R|].
  split; [exact (tree_at_graft _ _ _ _ R)|].
  split; [rewrite P3; unfold n2; simpl; rewrite P1; reflexivity | exact T3].
Qed.

Lemma interchange_swaps_and_focuses_inner_witness :
  exists n',
    tadashi_interchange (Some nest_outer) = Some n' /\
    node_path n' = [0%nat; 0%nat] /\
    node_tree n' =
    Some (BandNode (isl_schedule_band_from_multi_union_pw_aff
                      (band_mupa band_i)) LeafNode).
Proof.
  destruct (interchange_swaps_and_focuses_inner
              nest_outer band_i band_j LeafNode eq_refl)
    as (n' & H & _ & _ & Hp & Ht).
  - discriminate.
  - intros parent Hpar. vm_compute in Hpar. injection Hpar as <-. reflexivity.
  - reflexivity.
  - exists n'. auto.
Defined.

(** C4 as the specification states it fails.  After the interchange of the
    nest the returned node does not point to the originally inner band
    [band_j] at the top of the tower. *)
Lemma interchange_focus_outer_counterexample :
  ~ (forall n b1 b2 c,
        node_tree n = Some (BandNode b1 (BandNode b2 c)) ->
        node_path n <> [] ->
        (forall parent, node_parent_tree n = Some parent ->
                        is_set_or_sequence parent = false) ->
        isl_schedule_tree_is_subtree_anchored c = false ->
        exists n' inner,
          tadashi_interchange (Some n) = Some n' /\
          band_mupa inner = band_mupa b1 /\
          node_tree n' = Some (BandNode b2 (BandNode inner c))).
Proof.
  intros H.
  destruct (H nest_outer band_i band_j LeafNode eq_refl)
    as (n' & inner & Hi & _ & Ht).
  - discriminate.
  - intros parent Hpar. vm_compute in Hpar. injection Hpar as <-. reflexivity.
  - reflexivity.
  - vm_compute in Hi. injection Hi as <-.
    vm_compute in Ht. discriminate Ht.
Qed.

(** *** Tiling *)

Lemma union_pw_aff_eval_map g upa p :
  isl_union_pw_aff_eval (map (map_pw_aff g) upa) p =
  option_map g (isl_union_pw_aff_eval upa p).
Proof.
  induction upa as [|pa upa IH]; simpl; auto.
  unfold isl_pw_aff_eval. simpl.
  destruct (isl_set_contains (pa_domain pa) p); simpl; auto.
Qed.

(** What [tadashi_tile] builds in a context with any tiling options. *)
Lemma tile_builds_tower n b c tile_size :
  node_tree n = Some (BandNode b c) ->
  isl_schedule_band_n_member b = 1%nat ->
  isl_schedule_tree_is_subtree_anchored c = false ->
  0 < tile_size ->
  let ctx := schedule_ctx (node_schedule n) in
  exists n' outer inner,
    tadashi_tile (Some n) tile_size = Some n' /\
    node_path n' = node_path n /\
    node_tree n' = Some (BandNode outer (BandNode inner c)) /\
    forall p d,
      isl_multi_union_pw_aff_eval (band_mupa b) p = Some [d] ->
      isl_multi_union_pw_aff_eval (band_mupa outer) p =
      Some [tile_loop ctx tile_size d] /\
      isl_multi_union_pw_aff_eval (band_mupa inner) p =
      Some [point_loop ctx tile_size d].
Proof.
  intros Ht Hd Ha Hs ctx.
  unfold isl_schedule_band_n_member in Hd.
  destruct (mupa_list (band_mupa b)) as [|upa [|? ?]] eqn:El; try discriminate.
  set (space := isl_multi_union_pw_aff_get_space (band_mupa b)).
  set (sizes := {| mv_space := space; mv_list := [tile_size] |}).
  assert (Hsz : isl_multi_val_from_val_list
                  (isl_schedule_node_band_get_space (Some n))
                  (isl_val_list_from_val
                     (isl_val_int_from_si
                        (isl_schedule_node_get_ctx (Some n)) tile_size)) =
                Some sizes).
  { simpl. rewrite Ht. simpl. unfold isl_space_dim; simpl. rewrite El.
    reflexivity. }
  unfold tadashi_tile. rewrite Hsz.
  unfold isl_schedule_node_band_tile. rewrite Ht.
  assert (Hc : isl_space_is_equal
                 (isl_multi_union_pw_aff_get_space (band_mupa b))
                 (mv_space sizes) &&
               forallb (fun v => 0 <? v) (mv_list sizes) &&
               negb (isl_schedule_tree_is_subtree_anchored (BandNode b c)) =
               true).
  { simpl. rewrite isl_space_is_equal_refl, Ha.
    replace (0 <? tile_size) with true by (symmetry; apply Z.ltb_lt; lia).
    reflexivity. }
  rewrite Hc.
  destruct (graft_tree_defined n
              (BandNode (isl_schedule_band_tile ctx b sizes)
                 (BandNode (isl_schedule_band_point ctx b sizes) c)) _ Ht)
    as [n' G].
  destruct (graft_tree_inv _ _ _ G) as (Hp & Hn' & _).
  exists n', (isl_schedule_band_tile ctx b sizes),
    (isl_schedule_band_point ctx b sizes).
  split; [exact G|]. split; [exact Hp|]. split; [exact Hn'|].
  intros p d He. unfold isl_multi_union_pw_aff_eval in *. simpl.
  rewrite El in *. simpl in *. rewrite !union_pw_aff_eval_map.
  destruct (isl_union_pw_aff_eval upa p) as [v|]; try discriminate.
  injection He as ->. split; reflexivity.
Qed.

(** [tadashi_tile] passes a single tile size: on a band with any other
    number of dimensions the sizes cannot be built and the result is
    NULL. *)
Lemma tile_needs_one_dimension n b c tile_size :
  node_tree n = Some (BandNode b c) ->
  isl_schedule_band_n_member b <> 1%nat ->
  tadashi_tile (Some n) tile_size = None.
Proof.
  intros Ht Hd. unfold tadashi_tile.
  assert (Hsz : isl_multi_val_from_val_list
                  (isl_schedule_node_band_get_space (Some n))
                  (isl_val_list_from_val
                     (isl_val_int_from_si
                        (isl_schedule_node_get_ctx (Some n)) tile_size)) =
                None).
  { simpl. rewrite Ht. simpl. unfold isl_space_dim; simpl.
    rewrite repeat_length. unfold isl_schedule_band_n_member in Hd.
    destruct (length (mupa_list (band_mupa b))) as [|[|k]];
      try reflexivity. contradiction. }
  rewrite Hsz. reflexivity.
Qed.

(** C5, as it holds of the code.  In a context with the tiling options that
    [isl_ctx_alloc_with_pet_options] gives, on a band with a one-dimensional
    partial schedule and nothing anchored below it, for a positive
    [tile_size], [tadashi_tile] replaces the band by a tower of two bands:
    where the band had the value [d], the outer band has
    [tile_size * floor(d / tile_size)] and the inner one [d mod tile_size].
    The returned node points to the outer band. *)
Theorem tile_scales_tile_loop n b c tile_size :
  schedule_ctx (node_schedule n) = isl_ctx_alloc_with_pet_options ->
  node_tree n = Some (BandNode b c) ->
  isl_schedule_band_n_member b = 1%nat ->
  isl_schedule_tree_is_subtree_anchored c = false ->
  0 < tile_size ->
  exists n' outer inner,
    tadashi_tile (Some n) tile_size = Some n' /\
    node_path n' = node_path n /\
    node_tree n' = Some (BandNode outer (BandNode inner c)) /\
    forall p d,
      isl_multi_union_pw_aff_eval (band_mupa b) p = Some [d] ->
      isl_multi_union_pw_aff_eval (band_mupa outer) p =
      Some [tile_size * (d / tile_size)] /\
      isl_multi_union_pw_aff_eval (band_mupa inner) p =
      Some [d mod tile_size].
Proof.
  intros Hctx Ht Hd Ha Hs.
  destruct (tile_builds_tower n b c tile_size Ht Hd Ha Hs)
    as (n' & outer & inner & H1 & H2 & H3 & H4).
  exists n', outer, inner. repeat (split; [assumption|]).
  intros p d He. destruct (H4 p d He) as [Ho Hi].
  rewrite Hctx in Ho, Hi. unfold tile_loop, point_loop in *. simpl in *.
  rewrite Z.mod_eq by lia. auto.
Qed.

Lemma tile_scales_tile_loop_witness :
  exists n',
    tadashi_tile (Some loop_band) 2 = Some n' /\
    node_path n' = [0%nat] /\
    band_value (Some n') (instance "T" [3]) = Some [2] /\
    band_value (isl_schedule_node_first_child (Some n')) (instance "T" [3]) =
    Some [1].
Proof.
  destruct (tile_scales_tile_loop loop_band _ LeafNode 2
              eq_refl eq_refl eq_refl eq_refl eq_refl)
    as (n' & outer & inner & H1 & H2 & H3 & H4).
  destruct (H4 (instance "T" [3]) 3 eq_refl) as [Ho Hi].
  exists n'. split; [exact H1|]. split; [exact H2|].
  unfold band_value. rewrite H3. split; [exact Ho|].
  rewrite (first_child_spec n' _ (BandNode inner LeafNode) [] H3 eq_refl).
  unfold node_tree; simpl. rewrite tree_at_app.
  unfold node_tree in H3. rewrite H3. simpl. exact Hi.
Defined.

(** C5 as the specification states it fails.  Tiling the loop over
    [T(0..3)] by 2 gives [T(3)] the outer value 2, not [floor(3 / 2) = 1]. *)
Lemma tile_outer_is_quotient_counterexample :
  ~ (forall n b c tile_size,
        schedule_ctx (node_schedule n) = isl_ctx_alloc_with_pet_options ->
        node_tree n = Some (BandNode b c) ->
        0 < tile_size ->
        exists n' outer inner,
          tadashi_tile (Some n) tile_size = Some n' /\
          node_path n' = node_path n /\
          node_tree n' = Some (BandNode outer (BandNode inner c)) /\
          forall p,
            isl_multi_union_pw_aff_eval (band_mupa outer) p =
            option_map (map (fun d => d / tile_size))
              (isl_multi_union_pw_aff_eval (band_mupa b) p) /\
            isl_multi_union_pw_aff_eval (band_mupa inner) p =
            option_map (map (fun d => d mod tile_size))
              (isl_multi_union_pw_aff_eval (band_mupa b) p)).
Proof.
  intros H.
  destruct (H loop_band _ LeafNode 2 eq_refl eq_refl eq_refl)
    as (n' & outer & inner & Ht & _ & Hn & Hv).
  vm_compute in Ht. injection Ht as <-.
  vm_compute in Hn. injection Hn as <- <-.
  destruct (Hv (instance "T" [3])) as [Ho _].
  vm_compute in Ho. discriminate Ho.
Qed.

End TransformationFacts.

(** ** The legality check *)

Module LegalityFacts.
Import Isl Legality Examples TreeFacts.

Lemma isl_point_eqb_eq p q : isl_point_eqb p q = true <-> p = q.
Proof.
  destruct p as [t1 c1], q as [t2 c2]. unfold isl_point_eqb; simpl.
  rewrite andb_true_iff, option_eqb_string_eq, list_eqb_Z_eq. split.
  - intros [-> ->]. reflexivity.
  - intros H; injection H; auto.
Qed.

(** The pairs of schedule points that the two compositions produce. *)
Lemma in_schedule_pairs (S D : isl_union_map) (y z : isl_point) :
  In (y, z)
     (flat_map
        (fun ab =>
           map (fun bc => (fst ab, snd bc))
               (filter (fun bc => isl_point_eqb (snd ab) (fst bc)) S))
        (flat_map
           (fun ab =>
              map (fun ac => (snd ac, snd ab))
                  (filter (fun ac => isl_point_eqb (fst ab) (fst ac)) S))
           D)) <->
  exists source sink,
    In (source, sink) D /\ In (source, y) S /\ In (sink, z) S.
Proof.
  rewrite in_flat_map. split.
  - intros ([y' sink] & H1 & H2).
    apply in_flat_map in H1. destruct H1 as ([source sink'] & HD & H1).
    apply in_map_iff in H1. destruct H1 as ([a t] & E & H1).
    apply filter_In in H1. destruct H1 as [HS Ha].
    apply isl_point_eqb_eq in Ha. simpl in *. injection E as <- <-. subst a.
    apply in_map_iff in H2. destruct H2 as ([b t'] & E & H2).
    apply filter_In in H2. destruct H2 as [HS' Hb].
    apply isl_point_eqb_eq in Hb. simpl in *. injection E as <- <-. subst b.
    eauto.
  - intros (source & sink & HD & Hy & Hz).
    exists (y, sink). split.
    + apply in_flat_map. exists (source, sink). split; [exact HD|].
      apply in_map_iff. exists (source, y). split; [reflexivity|].
      apply filter_In. split; [exact Hy|]. apply isl_point_eqb_eq. reflexivity.
    + apply in_map_iff. exists (sink, z). split; [reflexivity|].
      apply filter_In. split; [exact Hz|]. apply isl_point_eqb_eq. reflexivity.
Qed.

Lemma in_deltas_points (m : isl_union_map) (p : isl_point) :
  In p (deltas_points m) <->
  exists x y, In (x, y) m /\ same_space x y = true /\
              p = {| pt_tuple := pt_tuple x;
                     pt_coords := coords_sub (pt_coords y) (pt_coords x) |}.
Proof.
  unfold deltas_points. rewrite in_flat_map. split.
  - intros ([x y] & Hm & H). simpl in H.
    destruct (same_space x y) eqn:E; simpl in H; [|contradiction].
    destruct H as [<- | []]. eauto.
  - intros (x & y & Hm & E & ->). exists (x, y). split; [exact Hm|].
    simpl. rewrite E. left. reflexivity.
Qed.

Lemma zip_with_length {A B C} (f : A -> B -> C) l1 l2 :
  length (zip_with f l1 l2) = Nat.min (length l1) (length l2).
Proof.
  revert l2; induction l1 as [|a l1 IH]; intros [|b l2]; simpl; auto.
Qed.

(** Points of one anonymous space are gathered in one set. *)
Lemma gather_points n l ps :
  (forall p, In p l -> pt_tuple p = None /\ length (pt_coords p) = n) ->
  fold_left union_set_add_point l
    [{| set_space := set_space_of None (repeat None n);
        set_points := Points ps |}] =
  [{| set_space := set_space_of None (repeat None n);
      set_points := Points (ps ++ map pt_coords l) |}].
Proof.
  revert ps; induction l as [|p l IH]; intros ps H; simpl.
  - rewrite app_nil_r. reflexivity.
  - destruct (H p (or_introl eq_refl)) as [Ht Hl].
    unfold point_in_space, isl_space_dim; simpl.
    rewrite Ht, repeat_length, Hl, Nat.eqb_refl. simpl.
    rewrite IH by (intros q Hq; apply H; right; exact Hq).
    rewrite <- app_assoc. reflexivity.
Qed.

Lemma union_set_of_points_one_space n l :
  l <> [] ->
  (forall p, In p l -> pt_tuple p = None /\ length (pt_coords p) = n) ->
  union_set_of_points l =
  [{| set_space := set_space_of None (repeat None n);
      set_points := Points (map pt_coords l) |}].
Proof.
  intros Hne H. destruct l as [|p l]; [contradiction|].
  unfold union_set_of_points. simpl.
  destruct (H p (or_introl eq_refl)) as [Ht Hl]. rewrite Ht, Hl.
  apply (gather_points n l [pt_coords p]).
  intros q Hq. apply H. right. exact Hq.
Qed.

Lemma no_pair_below l z :
  flat_map
    (fun x =>
       map (fun y => ({| pt_tuple := None; pt_coords := x |},
                      {| pt_tuple := None; pt_coords := y |}))
           (filter (lex_le x) [z]))
    l = [] <->
  forall x, In x l -> lex_le x z = false.
Proof.
  induction l as [|a l IH]; simpl.
  - split; [intros _ x [] | reflexivity].
  - destruct (lex_le a z) eqn:E; simpl.
    + split; [discriminate|]. intros H.
      specialize (H a (or_introl eq_refl)). congruence.
    + rewrite IH. split.
      * intros H x [<- | Hx]; auto.
      * intros H x Hx. apply H. right. exact Hx.
Qed.

(** The verdict of [check_legality] on a non-empty dependence relation
    whose deltas live in one space: it is whether no delta is
    lexicographically less than or equal to zero. *)
Lemma check_legality_one_space ctx n (S D : isl_union_map) :
  D <> [] ->
  schedule_into n S ->
  schedules_all S D ->
  check_legality ctx (Some S) (Some D) =
  match flat_map
          (fun x =>
             map (fun y => ({| pt_tuple := None; pt_coords := x |},
                            {| pt_tuple := None; pt_coords := y |}))
                 (filter (lex_le x) [repeat 0 n]))
          (map pt_coords
             (deltas_points
                (flat_map
                   (fun ab =>
                      map (fun bc => (fst ab, snd bc))
                          (filter (fun bc => isl_point_eqb (snd ab) (fst bc)) S))
                   (flat_map
                      (fun ab =>
                         map (fun ac => (snd ac, snd ab))
                             (filter (fun ac => isl_point_eqb (fst ab) (fst ac))
                                     S))
                      D)))) with
  | [] => isl_bool_true
  | _ :: _ => isl_bool_false
  end.
Proof.
  intros Hne Hinto Hall.
  unfold check_legality. destruct D as [|[source sink] D']; [contradiction|].
  cbn [isl_union_map_is_empty isl_bool_holds].
  set (D := (source, sink) :: D') in *.
  cbn [isl_union_map_copy isl_union_map_apply_domain
         isl_union_map_apply_range isl_union_map_deltas isl_union_set_copy].
  set (pairs := flat_map _ (flat_map _ D)).
  assert (Hin : forall p, In p (deltas_points pairs) ->
                          pt_tuple p = None /\ length (pt_coords p) = n).
  { intros p Hp. apply in_deltas_points in Hp.
    destruct Hp as (x & y & Hxy & _ & ->). apply in_schedule_pairs in Hxy.
    destruct Hxy as (a & b & _ & Hx & Hy).
    destruct (Hinto _ _ Hx) as [Tx Lx]. destruct (Hinto _ _ Hy) as [Ty Ly].
    simpl. split; [exact Tx|].
    unfold coords_sub. rewrite zip_with_length, Lx, Ly. apply Nat.min_id. }
  assert (Hnonempty : deltas_points pairs <> []).
  { destruct (Hall source sink (or_introl eq_refl)) as [[ts Hs] [tk Hk]].
    assert (Hp : In (ts, tk) pairs)
      by (apply in_schedule_pairs; exists source, sink;
          repeat split; auto; left; reflexivity).
    destruct (Hinto _ _ Hs) as [Ts Ls]. destruct (Hinto _ _ Hk) as [Tk Lk].
    assert (Hd : In {| pt_tuple := pt_tuple ts;
                       pt_coords := coords_sub (pt_coords tk) (pt_coords ts) |}
                    (deltas_points pairs)).
    { apply in_deltas_points. exists ts, tk. repeat split; auto.
      unfold same_space. rewrite Ts, Tk, Ls, Lk, Nat.eqb_refl. reflexivity. }
    intros E. rewrite E in Hd. exact Hd. }
  rewrite (union_set_of_points_one_space n _ Hnonempty Hin).
  unfold get_zeros_on_union_set.
  cbn [isl_set_from_union_set isl_set_get_space option_map set_space
         isl_multi_aff_zero isl_set_from_multi_aff ma_space space_in
         set_space_of isl_union_set_from_set ma_list].
  unfold isl_union_set_lex_le_union_set.
  cbn [flat_map map app concat_options set_lex_le_set set_space set_points].
  unfold set_lex_le_set. cbn [set_space set_points].
  rewrite isl_space_is_equal_refl.
  replace (isl_space_dim (set_space_of None (repeat None n))) with n
    by (unfold isl_space_dim; simpl; rewrite repeat_length; reflexivity).
  rewrite map_repeat. cbn [space_tuple_name space_out set_space_of tuple_name].
  rewrite app_nil_r.
  destruct (flat_map _ (map pt_coords (deltas_points pairs))); reflexivity.
Qed.

Lemma in_delta_points n (S D : isl_union_map) (d : list Z) :
  schedule_into n S ->
  In d (map pt_coords
          (deltas_points
             (flat_map
                (fun ab =>
                   map (fun bc => (fst ab, snd bc))
                       (filter (fun bc => isl_point_eqb (snd ab) (fst bc)) S))
                (flat_map
                   (fun ab =>
                      map (fun ac => (snd ac, snd ab))
                          (filter (fun ac => isl_point_eqb (fst ab) (fst ac))
                                  S))
                   D)))) <->
  in_delta S D d.
Proof.
  intros Hinto. rewrite in_map_iff. unfold in_delta. split.
  - intros (p & <- & Hp). apply in_deltas_points in Hp.
    destruct Hp as (x & y & Hxy & Hs & ->). apply in_schedule_pairs in Hxy.
    destruct Hxy as (a & b & HD & Hx & Hy). exists a, b, x, y. auto.
  - intros (a & b & x & y & HD & Hx & Hy & Hs & ->).
    eexists. split; [|apply in_deltas_points; exists x, y; split;
                      [apply in_schedule_pairs; eauto | split; [exact Hs | reflexivity]]].
    reflexivity.
Qed.

(** C2, as it holds of the code.  [check_legality] answers legal when the
    dependence relation is empty.  Otherwise, for a schedule map that sends
    the two ends of every dependence to points of one space of schedule
    points, it answers legal if and only if no element of the delta set is
    lexicographically less than or equal to the zero tuple: a delta equal
    to zero makes the schedule illegal. *)
Theorem check_legality_rejects_non_positive_deltas :
  (forall ctx S, check_legality ctx S (Some []) = isl_bool_true) /\
  (forall ctx n (S D : isl_union_map),
      D <> [] -> schedule_into n S -> schedules_all S D ->
      (check_legality ctx (Some S) (Some D) = isl_bool_true <->
       forall d, in_delta S D d -> lex_le d (repeat 0 n) = false)).
Proof.
  split; [reflexivity|].
  intros ctx n S D Hne Hinto Hall.
  rewrite (check_legality_one_space ctx n S D Hne Hinto Hall).
  assert (K : (forall d, in_delta S D d -> lex_le d (repeat 0 n) = false) <->
              (forall x, In x (map pt_coords
        (deltas_points
           (flat_map
              (fun ab =>
                 map (fun bc => (fst ab, snd bc))
                     (filter (fun bc => isl_point_eqb (snd ab) (fst bc)) S))
              (flat_map
                 (fun ab =>
                    map (fun ac => (snd ac, snd ab))
                        (filter (fun ac => isl_point_eqb (fst ab) (fst ac)) S))
                 D)))) -> lex_le x (repeat 0 n) = false)).
  { split; intros H x Hx; apply H;
      apply (in_delta_points n S D x Hinto); exact Hx. }
  rewrite K, <- no_pair_below.
  destruct (flat_map _ (map pt_coords _)); split;
    congruence || discriminate.
Qed.

Lemma two_point_schedule_into (S : isl_union_map) p q tp tq :
  S = [(p, {| pt_tuple := None; pt_coords := [tp] |});
       (q, {| pt_tuple := None; pt_coords := [tq] |})] ->
  schedule_into 1 S /\ schedules_all S [(p, q)].
Proof.
  intros ->. split.
  - intros a t [H | [H | []]]; injection H as <- <-; split; reflexivity.
  - intros source sink [H | []]. injection H as <- <-.
    split; eexists; simpl; eauto.
Qed.

Lemma check_legality_rejects_non_positive_deltas_witness :
  check_legality (Some isl_ctx_alloc_with_pet_options)
    (Some order_schedule) (Some tie_dependency) = isl_bool_true /\
  forall d, in_delta order_schedule tie_dependency d -> lex_le d [0] = false.
Proof.
  destruct (two_point_schedule_into order_schedule _ _ 0 1 eq_refl)
    as [Hinto Hall].
  assert (Hne : tie_dependency <> []) by discriminate.
  destruct (proj2 check_legality_rejects_non_positive_deltas
              (Some isl_ctx_alloc_with_pet_options)
              1%nat order_schedule tie_dependency Hne Hinto Hall) as [H _].
  split; [reflexivity | exact (H eq_refl)].
Defined.

(** C2 as the specification states it fails.  [Q(0)] depends on [P(0)] and
    both are scheduled at time 0: the only delta is the zero tuple, which is
    not lexicographically less than zero, yet [check_legality] answers
    illegal. *)
Lemma legal_iff_no_negative_delta_counterexample :
  ~ (forall ctx n (S D : isl_union_map),
        D <> [] -> schedule_into n S -> schedules_all S D ->
        (check_legality ctx (Some S) (Some D) = isl_bool_true <->
         forall d, in_delta S D d -> lex_lt d (repeat 0 n) = false)).
Proof.
  intros H.
  destruct (two_point_schedule_into tie_schedule _ _ 0 0 eq_refl)
    as [Hinto Hall].
  assert (Hne : tie_dependency <> []) by discriminate.
  destruct (H (Some isl_ctx_alloc_with_pet_options)
              1%nat tie_schedule tie_dependency Hne Hinto Hall) as [_ Hback].
  assert (E : check_legality (Some isl_ctx_alloc_with_pet_options)
                (Some tie_schedule) (Some tie_dependency) = isl_bool_true).
  { apply Hback. intros d (a & b & x & y & HD & Hx & Hy & _ & ->).
    destruct Hx as [Hx | [Hx | []]]; destruct Hy as [Hy | [Hy | []]];
      injection Hx as _ <-; injection Hy as _ <-; reflexivity. }
  vm_compute in E. discriminate E.
Qed.

End LegalityFacts.

(** ** The session: commit, rollback, navigation and code emission *)

Module SessionFacts.
Import Isl Transformations Legality Ctadashi Examples.

Section Protocol.

Variable pet_scop : Type.
Variable isl_printer : Type.
Variable tadashi_check_legality :
  option isl_ctx -> option isl_schedule -> option isl_union_map -> isl_bool.
Variable tadashi_check_legality_parallel :
  option isl_ctx -> option isl_schedule_node -> option isl_union_map ->
  isl_bool.
Variable pet_scop_print_original :
  option pet_scop -> option isl_printer -> option isl_printer.
Variable codegen :
  option isl_printer -> option pet_scop -> option isl_schedule ->
  option isl_printer.
Variable tadashi_fuse :
  option isl_schedule_node -> Z -> Z -> outcome (option isl_schedule_node).
Variable tadashi_full_fuse :
  option isl_schedule_node -> outcome (option isl_schedule_node).
Variable tadashi_partial_shift_var :
  option isl_schedule_node -> Z -> Z -> Z ->
  outcome (option isl_schedule_node).
Variable tadashi_full_shift_var :
  option isl_schedule_node -> Z -> Z -> outcome (option isl_schedule_node).
Variable tadashi_full_shift_val :
  option isl_schedule_node -> Z -> outcome (option isl_schedule_node).
Variable tadashi_full_shift_param :
  option isl_schedule_node -> Z -> Z -> outcome (option isl_schedule_node).
Variable tadashi_partial_shift_param :
  option isl_schedule_node -> Z -> Z -> Z ->
  outcome (option isl_schedule_node).
Variable tadashi_set_parallel :
  option isl_schedule_node -> outcome (option isl_schedule_node).

Local Abbreviation run :=
  (Ctadashi.run (pet_scop := pet_scop)
     tadashi_check_legality tadashi_check_legality_parallel
     tadashi_fuse tadashi_full_fuse tadashi_partial_shift_var
     tadashi_full_shift_var tadashi_full_shift_val tadashi_full_shift_param
     tadashi_partial_shift_param tadashi_set_parallel).
Local Abbreviation primitive :=
  (Ctadashi.primitive
     tadashi_fuse tadashi_full_fuse tadashi_partial_shift_var
     tadashi_full_shift_var tadashi_full_shift_val tadashi_full_shift_param
     tadashi_partial_shift_param tadashi_set_parallel).
Local Abbreviation verdict :=
  (Ctadashi.verdict tadashi_check_legality tadashi_check_legality_parallel).

(** [pre_transform] puts a copy of the current node in the scratch slot and
    changes nothing else. *)
Lemma pre_transform_spec (si : scop_t pet_scop) :
  pre_transform si = set_tmp_node si (current_node si).
Proof.
  unfold pre_transform. destruct si as [sc dep cur tmp m str]; simpl.
  destruct tmp; reflexivity.
Qed.

Lemma run_returns op (si : scop_t pet_scop) candidate :
  primitive op (current_node si) = Returns candidate ->
  run op si =
  Returns (committed si candidate,
           isl_bool_to_int (verdict op candidate (dependency si))).
Proof.
  intros H.
  destruct op; simpl in H |- *;
    unfold tile, interchange, fuse, full_fuse, partial_shift_var,
      partial_shift_val, full_shift_var, full_shift_val, full_shift_param,
      partial_shift_param, set_parallel;
    rewrite pre_transform_spec; simpl;
    try (injection H as <-); try rewrite H; reflexivity.
Qed.

Lemma run_aborts op (si : scop_t pet_scop) :
  primitive op (current_node si) = Aborts -> run op si = Aborts.
Proof.
  intros H.
  destruct op; simpl in H |- *; try discriminate;
    unfold fuse, full_fuse, partial_shift_var,
      partial_shift_val, full_shift_var, full_shift_val, full_shift_param,
      partial_shift_param, set_parallel;
    rewrite pre_transform_spec; simpl; rewrite H; reflexivity.
Qed.

Lemma run_inv op (si si' : scop_t pet_scop) r :
  run op si = Returns (si', r) ->
  exists candidate,
    primitive op (current_node si) = Returns candidate /\
    si' = committed si candidate /\
    r = isl_bool_to_int (verdict op candidate (dependency si)).
Proof.
  intros H.
  destruct (primitive op (current_node si)) as [candidate|] eqn:E.
  - rewrite (run_returns _ _ _ E) in H. injection H as <- <-.
    exists candidate. auto.
  - rewrite (run_aborts _ _ E) in H. discriminate.
Qed.

(** C1, as it holds of the code.  When the legality check rejects the
    candidate that a transformation operation has built, the operation
    returns 0, the rejected candidate has become the current node, and the
    scratch slot holds the node that was current before the operation. *)
Theorem rejected_candidate_is_swapped_in op (si : scop_t pet_scop) candidate :
  primitive op (current_node si) = Returns candidate ->
  verdict op candidate (dependency si) = isl_bool_false ->
  exists si',
    run op si = Returns (si', 0) /\
    current_node si' = candidate /\
    tmp_node si' = current_node si.
Proof.
  intros Hp Hv. exists (committed si candidate).
  rewrite (run_returns _ _ _ Hp), Hv. auto.
Qed.

(** C3, as it holds of the code.  Every transformation operation that
    returns leaves the dirty flag set, whatever the verdict of the legality
    check; moving the current node, [pre_transform] and [rollback] leave the
    flag as it is.  At code emission a record whose flag is clear is printed
    as the original SCoP, and a record whose flag is set is printed from the
    schedule of its current node. *)
Theorem dirty_flag_and_emission :
  (forall op (si si' : scop_t pet_scop) r,
      run op si = Returns (si', r) -> modified si' = true) /\
  (forall (si : scop_t pet_scop) child_idx,
      modified (goto_root si) = modified si /\
      modified (goto_parent si) = modified si /\
      modified (goto_child si child_idx) = modified si /\
      modified (pre_transform si) = modified si /\
      modified (rollback si) = modified si) /\
  (forall p scop' (scop_info : scop_t pet_scop) scop_idx,
      generate_code_callback pet_scop_print_original codegen
        (Some p) (Some scop') scop_info scop_idx =
      (if modified scop_info
       then codegen (Some p) (scop scop_info) (current_schedule scop_info)
       else pet_scop_print_original (Some scop') (Some p),
       S scop_idx)).
Proof.
  split; [|split].
  - intros op si si' r H.
    destruct (run_inv _ _ _ _ H) as (candidate & _ & -> & _). reflexivity.
  - intros si child_idx. rewrite pre_transform_spec. repeat split.
  - intros p scop' scop_info scop_idx. unfold generate_code_callback.
    destruct (modified scop_info); reflexivity.
Qed.

(** C7.  Whatever the transformation [P] and whatever the verdict of the
    legality check, after [pre_transform], [P] on the scratch node and
    [post_transform], [rollback] makes the current node the one that was
    current before [pre_transform]; so it is after every transformation
    operation of the binding. *)
Theorem rollback_restores_current_node :
  (forall (P : option isl_schedule_node -> outcome (option isl_schedule_node))
          (si si' : scop_t pet_scop) r,
      with_tmp_node (pre_transform si) (P (tmp_node (pre_transform si)))
        (post_transform tadashi_check_legality) = Returns (si', r) ->
      current_node (rollback si') = current_node si) /\
  (forall op (si si' : scop_t pet_scop) r,
      run op si = Returns (si', r) ->
      current_node (rollback si') = current_node si).
Proof.
  split.
  - intros P si si' r. rewrite pre_transform_spec. simpl.
    destruct (P (current_node si)); simpl; [|discriminate].
    intros H. injection H as <- _. reflexivity.
  - intros op si si' r H.
    destruct (run_inv _ _ _ _ H) as (candidate & _ & -> & _). reflexivity.
Qed.

(** C9, as it holds of the code.  The three moves leave the SCoP, the
    dependences, the dirty flag and the scratch node as they are, and the
    current node never ends up in another schedule: after a move it is a
    node of the same schedule, or NULL.  [goto_root] keeps the schedule of
    every node, [goto_parent] that of every node but a root, [goto_child]
    that of every node with a child at the given position, and that of
    every node whose only child is a leaf, where every position leads to
    that leaf.  The other moves lose the current node: [goto_parent] at the
    root, and [goto_child] at a leaf, or at a node with other children than
    a single leaf when the position, one that fits an [int], names none of
    them.  Without a current node, every move leaves the record without
    one. *)
Theorem navigation_moves_only_the_cursor (si : scop_t pet_scop) child_idx :
  (same_frame si (goto_root si) /\
   same_frame si (goto_parent si) /\
   same_frame si (goto_child si child_idx)) /\
  (forall si' n',
      si' = goto_root si \/ si' = goto_parent si \/
      si' = goto_child si child_idx ->
      current_node si' = Some n' ->
      exists n, current_node si = Some n /\
                node_schedule n' = node_schedule n) /\
  current_schedule (goto_root si) = current_schedule si /\
  (forall n, current_node si = Some n -> node_path n <> [] ->
             current_schedule (goto_parent si) = current_schedule si) /\
  (forall n t, current_node si = Some n -> node_tree n = Some t ->
               0 <= child_idx < Z.of_nat (length (tree_children t)) ->
               current_schedule (goto_child si child_idx) =
               current_schedule si) /\
  (forall n t, current_node si = Some n -> node_tree n = Some t ->
               tree_children t = [LeafNode] ->
               (exists n',
                   current_node (goto_child si child_idx) = Some n' /\
                   node_schedule n' = node_schedule n /\
                   node_tree n' = Some LeafNode /\
                   isl_schedule_node_parent (Some n') = Some n) /\
               current_schedule (goto_child si child_idx) =
               current_schedule si) /\
  (forall n, current_node si = Some n -> node_path n = [] ->
             current_node (goto_parent si) = None) /\
  (forall n, current_node si = Some n -> node_tree n = Some LeafNode ->
             current_node (goto_child si child_idx) = None) /\
  (forall n t, current_node si = Some n -> node_tree n = Some t ->
               tree_children t <> [LeafNode] ->
               child_idx < 2 ^ 31 ->
               ~ 0 <= child_idx < Z.of_nat (length (tree_children t)) ->
               current_node (goto_child si child_idx) = None) /\
  (current_node si = None ->
   current_node (goto_root si) = None /\
   current_node (goto_parent si) = None /\
   current_node (goto_child si child_idx) = None).
Proof.
  split; [repeat split | repeat apply conj].
  - intros si' n' Hsi' H.
    destruct Hsi' as [-> | [-> | ->]]; simpl in H;
      destruct (current_node si) as [n|]; try discriminate; simpl in H.
    + injection H as <-. eauto.
    + destruct (node_path n); try discriminate. injection H as <-. eauto.
    + destruct (node_tree n); try discriminate. simpl in H.
      destruct (only_implicit_leaf _);
        [|destruct (_ && _); try discriminate]; injection H as <-; eauto.
  - unfold current_schedule; simpl. destruct (current_node si); reflexivity.
  - intros n Hn Hp. unfold current_schedule; simpl. rewrite Hn; simpl.
    destruct (node_path n); [contradiction | reflexivity].
  - intros n t Hn Ht Hr. unfold current_schedule, goto_child.
    cbn [current_node set_current_node]. rewrite Hn.
    rewrite (TreeFacts.child_in_range n t child_idx Ht Hr). reflexivity.
  - intros n t Hn Ht L. unfold current_schedule, goto_child.
    cbn [current_node set_current_node]. rewrite Hn.
    destruct (TreeFacts.child_is_the_leaf n t child_idx Ht L)
      as (n' & E & Hs & Hl & Hp).
    rewrite E. split; [exists n'; auto|].
    cbn [isl_schedule_node_get_schedule option_map]. rewrite Hs. reflexivity.
  - intros n Hn Hp. unfold goto_parent. cbn [current_node set_current_node].
    rewrite Hn. unfold isl_schedule_node_parent. simpl. rewrite Hp.
    reflexivity.
  - intros n Hn Ht. unfold goto_child.
    cbn [current_node set_current_node]. rewrite Hn.
    apply (TreeFacts.child_out_of_range n LeafNode child_idx Ht).
    + discriminate.
    + simpl. lia.
  - intros n t Hn Ht L _ Hr. unfold goto_child.
    cbn [current_node set_current_node]. rewrite Hn.
    apply (TreeFacts.child_out_of_range n t child_idx Ht L Hr).
  - intros Hn. unfold goto_root, goto_parent, goto_child.
    cbn [current_node set_current_node]. rewrite Hn. repeat split.
Qed.

End Protocol.

Lemma rejected_candidate_is_swapped_in_witness :
  exists si',
    run_nest Interchange nest_scop = Returns (si', 0) /\
    current_node si' = tadashi_interchange (Some nest_outer) /\
    tmp_node si' = Some nest_outer.
Proof.
  unfold run_nest.
  apply (rejected_candidate_is_swapped_in unit legality no_parallel
           keep2 keep0 keep3 keep2 keep1 keep2 keep3 keep0
           Interchange nest_scop
           (tadashi_interchange (Some nest_outer))).
  - reflexivity.
  - vm_compute. reflexivity.
Defined.

(** C1 as the specification states it fails.  On the nest with the
    dependence from [S(0, 1)] to [S(1, 0)] the legality check rejects the
    interchange, and [interchange] returns 0, yet the current node is no
    longer the node it was. *)
Lemma current_node_kept_on_reject_counterexample :
  ~ (forall op (si : scop_t unit) candidate,
        primitive_nest op (current_node si) = Returns candidate ->
        verdict_nest op candidate (dependency si) = isl_bool_false ->
        exists si',
          run_nest op si = Returns (si', 0) /\
          current_node si' = current_node si /\
          tmp_node si' = candidate).
Proof.
  intros H.
  assert (Hv : verdict_nest Interchange (tadashi_interchange (Some nest_outer))
                 (dependency nest_scop) = isl_bool_false)
    by (vm_compute; reflexivity).
  destruct (H Interchange nest_scop _ eq_refl Hv) as (si' & Hrun & Hcur & _).
  vm_compute in Hrun. injection Hrun as <-.
  vm_compute in Hcur. discriminate Hcur.
Qed.

Lemma dirty_flag_and_emission_witness :
  exists si',
    run_nest Interchange nest_scop = Returns (si', 0) /\ modified si' = true.
Proof.
  exists (committed nest_scop (tadashi_interchange (Some nest_outer))).
  assert (E : run_nest Interchange nest_scop =
              Returns (committed nest_scop
                         (tadashi_interchange (Some nest_outer)), 0))
    by (vm_compute; reflexivity).
  split; [exact E|].
  exact (proj1 (dirty_flag_and_emission unit unit legality no_parallel
                  (fun _ p => p) (fun p _ _ => p)
                  keep2 keep0 keep3 keep2 keep1 keep2 keep3 keep0)
           Interchange nest_scop _ 0 E).
Defined.

(** C3 as the specification states it fails.  The flag of the nest is clear;
    the rejected interchange returns 0 and leaves the flag set. *)
Lemma dirty_only_when_legal_counterexample :
  ~ (forall op (si si' : scop_t unit) r,
        modified si = false ->
        run_nest op si = Returns (si', r) ->
        modified si' = true -> r = 1).
Proof.
  intros H.
  assert (E : run_nest Interchange nest_scop =
              Returns (committed nest_scop
                         (tadashi_interchange (Some nest_outer)), 0))
    by (vm_compute; reflexivity).
  specialize (H Interchange nest_scop _ 0 eq_refl E eq_refl). discriminate H.
Qed.

Lemma rollback_restores_current_node_witness :
  exists si',
    run_nest Interchange nest_scop = Returns (si', 0) /\
    current_node si' <> current_node nest_scop /\
    current_node (rollback si') = current_node nest_scop.
Proof.
  exists (committed nest_scop (tadashi_interchange (Some nest_outer))).
  assert (E : run_nest Interchange nest_scop =
              Returns (committed nest_scop
                         (tadashi_interchange (Some nest_outer)), 0))
    by (vm_compute; reflexivity).
  split; [exact E|]. split.
  - vm_compute. discriminate.
  - exact (proj2 (rollback_restores_current_node unit legality no_parallel
                    keep2 keep0 keep3 keep2 keep1 keep2 keep3 keep0)
             Interchange nest_scop _ 0 E).
Defined.

Lemma navigation_moves_only_the_cursor_witness :
  current_schedule (goto_parent nest_scop) = current_schedule nest_scop /\
  current_schedule (goto_child nest_scop 0) = current_schedule nest_scop /\
  current_node (goto_child nest_scop 1) = None /\
  current_schedule (goto_child (goto_child nest_scop 0) 7) =
  current_schedule nest_scop.
Proof.
  destruct (navigation_moves_only_the_cursor unit nest_scop 0)
    as (_ & _ & _ & Hparent & Hchild & _).
  destruct (navigation_moves_only_the_cursor unit nest_scop 1)
    as (_ & _ & _ & _ & _ & _ & _ & _ & Hnone & _).
  destruct (navigation_moves_only_the_cursor unit (goto_child nest_scop 0) 7)
    as (_ & _ & _ & _ & _ & Hleaf & _).
  split; [|split; [|split]].
  - apply (Hparent nest_outer eq_refl). discriminate.
  - apply (Hchild nest_outer _ eq_refl eq_refl). simpl. lia.
  - apply (Hnone nest_outer _ eq_refl eq_refl).
    + discriminate.
    + reflexivity.
    + simpl. lia.
  - exact (proj2 (Hleaf _ _ eq_refl eq_refl eq_refl)).
Defined.

(** C9 as the specification states it fails.  With the current node at the
    root, [goto_parent] leaves the record without a current node, hence
    without the schedule tree that the current node pointed into. *)
Lemma navigation_keeps_schedule_counterexample :
  ~ (forall (si : scop_t unit) child_idx,
        (same_frame si (goto_root si) /\
         current_schedule (goto_root si) = current_schedule si) /\
        (same_frame si (goto_parent si) /\
         current_schedule (goto_parent si) = current_schedule si) /\
        (same_frame si (goto_child si child_idx) /\
         current_schedule (goto_child si child_idx) = current_schedule si)).
Proof.
  intros H.
  destruct (H root_scop 0) as (_ & (_ & Hparent) & _).
  vm_compute in Hparent. discriminate Hparent.
Qed.

End SessionFacts.

(** * Further properties *)

(** ** The session *)

Module SessionMoreFacts.
Import Isl IslMore Transformations Legality Ctadashi CtadashiMore Examples.
Import TreeFacts.

Section Protocol.

Variable pet_scop : Type.
Variable isl_printer : Type.
Variable tadashi_check_legality :
  option isl_ctx -> option isl_schedule -> option isl_union_map -> isl_bool.
Variable tadashi_check_legality_parallel :
  option isl_ctx -> option isl_schedule_node -> option isl_union_map ->
  isl_bool.
Variable pet_scop_print_original :
  option pet_scop -> option isl_printer -> option isl_printer.
Variable codegen :
  option isl_printer -> option pet_scop -> option isl_schedule ->
  option isl_printer.
Variable tadashi_fuse :
  option isl_schedule_node -> Z -> Z -> outcome (option isl_schedule_node).
Variable tadashi_full_fuse :
  option isl_schedule_node -> outcome (option isl_schedule_node).
Variable tadashi_partial_shift_var :
  option isl_schedule_node -> Z -> Z -> Z ->
  outcome (option isl_schedule_node).
Variable tadashi_full_shift_var :
  option isl_schedule_node -> Z -> Z -> outcome (option isl_schedule_node).
Variable tadashi_full_shift_val :
  option isl_schedule_node -> Z -> outcome (option isl_schedule_node).
Variable tadashi_full_shift_param :
  option isl_schedule_node -> Z -> Z -> outcome (option isl_schedule_node).
Variable tadashi_partial_shift_param :
  option isl_schedule_node -> Z -> Z -> Z ->
  outcome (option isl_schedule_node).
Variable tadashi_set_parallel :
  option isl_schedule_node -> outcome (option isl_schedule_node).

Local Abbreviation run :=
  (Ctadashi.run (pet_scop := pet_scop)
     tadashi_check_legality tadashi_check_legality_parallel
     tadashi_fuse tadashi_full_fuse tadashi_partial_shift_var
     tadashi_full_shift_var tadashi_full_shift_val tadashi_full_shift_param
     tadashi_partial_shift_param tadashi_set_parallel).
Local Abbreviation primitive :=
  (Ctadashi.primitive
     tadashi_fuse tadashi_full_fuse tadashi_partial_shift_var
     tadashi_full_shift_var tadashi_full_shift_val tadashi_full_shift_param
     tadashi_partial_shift_param tadashi_set_parallel).
Local Abbreviation verdict :=
  (Ctadashi.verdict tadashi_check_legality tadashi_check_legality_parallel).
Local Abbreviation run_inv :=
  (SessionFacts.run_inv pet_scop
     tadashi_check_legality tadashi_check_legality_parallel
     tadashi_fuse tadashi_full_fuse tadashi_partial_shift_var
     tadashi_full_shift_var tadashi_full_shift_val tadashi_full_shift_param
     tadashi_partial_shift_param tadashi_set_parallel).
Local Abbreviation run_returns :=
  (SessionFacts.run_returns pet_scop
     tadashi_check_legality tadashi_check_legality_parallel
     tadashi_fuse tadashi_full_fuse tadashi_partial_shift_var
     tadashi_full_shift_var tadashi_full_shift_val tadashi_full_shift_param
     tadashi_partial_shift_param tadashi_set_parallel).

(** X1.  [rollback] is its own inverse: a second rollback brings back what
    the first one removed.  On a record whose scratch slot is empty, as it is
    before the first transformation, [rollback] therefore leaves the SCoP
    without a current node. *)
Theorem rollback_twice (si : scop_t pet_scop) :
  rollback (rollback si) = si /\
  (tmp_node si = None ->
   current_node (rollback si) = None /\
   tmp_node (rollback si) = current_node si).
Proof.
  destruct si as [sc dep cur tmp m str]. split; [reflexivity|].
  simpl. intros ->. auto.
Qed.

(** X2.  Only the last transformation can be undone: after two operations
    [rollback] makes current the result of the first one, and the scratch
    slot holds the result of the second; the node that was current before
    the first operation is in neither slot any more. *)
Theorem rollback_undoes_one_step op1 op2 (si si1 si2 : scop_t pet_scop) r1 r2 :
  run op1 si = Returns (si1, r1) ->
  run op2 si1 = Returns (si2, r2) ->
  current_node (rollback si2) = current_node si1 /\
  tmp_node (rollback si2) = current_node si2 /\
  exists candidate1 candidate2,
    primitive op1 (current_node si) = Returns candidate1 /\
    primitive op2 candidate1 = Returns candidate2 /\
    current_node si1 = candidate1 /\ current_node si2 = candidate2.
Proof.
  intros H1 H2.
  destruct (run_inv _ _ _ _ H1) as (c1 & P1 & -> & _).
  destruct (run_inv _ _ _ _ H2) as (c2 & P2 & -> & _).
  simpl in *. repeat split. exists c1, c2. auto.
Qed.

(** X3.  A transformation operation writes the two node slots and the dirty
    flag and nothing else: the SCoP, the dependences and the strings are the
    ones it found, whatever the transformation did; the value it returns is
    -1, 0 or 1. *)
Theorem transformation_frame op (si si' : scop_t pet_scop) r :
  run op si = Returns (si', r) ->
  scop si' = scop si /\ dependency si' = dependency si /\
  strings si' = strings si /\ (r = -1 \/ r = 0 \/ r = 1).
Proof.
  intros H. destruct (run_inv _ _ _ _ H) as (c & _ & -> & ->).
  repeat split. destruct (verdict op c (dependency si)); simpl; auto.
Qed.

(** X4.  The value that an operation returns is the verdict of its legality
    check on the node that is current when it returns, against the
    dependences of the record: the operation returns 1 exactly when the check
    accepts the schedule that is now current. *)
Theorem returned_value_judges_current_node op (si si' : scop_t pet_scop) r :
  run op si = Returns (si', r) ->
  r = isl_bool_to_int (verdict op (current_node si') (dependency si')) /\
  (r = 1 <->
   verdict op (current_node si') (dependency si') = isl_bool_true).
Proof.
  intros H. destruct (run_inv _ _ _ _ H) as (c & _ & -> & ->).
  simpl. split; [reflexivity|].
  destruct (verdict op c (dependency si)); simpl; split;
    congruence || discriminate.
Qed.

(** [tadashi_tile] and [tadashi_interchange] return NULL on a node that is
    not a band. *)
Lemma not_a_band_fails n t tile_size :
  node_tree n = Some t ->
  (forall b c, t <> BandNode b c) ->
  tadashi_tile (Some n) tile_size = None /\
  tadashi_interchange (Some n) = None.
Proof.
  intros Ht Hb.
  assert (Hs : isl_schedule_node_band_get_space (Some n) = None).
  { simpl. rewrite Ht. destruct t; try reflexivity.
    exfalso. eapply Hb. reflexivity. }
  assert (Hm : isl_schedule_node_band_get_partial_schedule (Some n) = None).
  { simpl. rewrite Ht. destruct t; try reflexivity.
    exfalso. eapply Hb. reflexivity. }
  split.
  - unfold tadashi_tile. rewrite Hs. reflexivity.
  - unfold tadashi_interchange. rewrite Hm.
    unfold isl_schedule_node_insert_partial_schedule.
    destruct (isl_schedule_node_first_child _); reflexivity.
Qed.

(** X5.  A transformation that fails is committed like any other.  When the
    current node is not a band, [tile] and [interchange] leave the record
    without a current node, with the former current node in the scratch
    slot and the dirty flag set; they return what the legality check answers
    on a NULL schedule, and [rollback] brings the node back. *)
Theorem failed_transformation_is_committed (si : scop_t pet_scop) n t
    tile_size op :
  current_node si = Some n ->
  node_tree n = Some t ->
  (forall b c, t <> BandNode b c) ->
  op = Tile tile_size \/ op = Interchange ->
  exists si',
    run op si =
    Returns (si', isl_bool_to_int
                    (tadashi_check_legality None None (dependency si))) /\
    current_node si' = None /\ tmp_node si' = Some n /\
    modified si' = true /\ current_node (rollback si') = Some n.
Proof.
  intros Hc Ht Hb Hop.
  destruct (not_a_band_fails n t (to_int tile_size) Ht Hb) as [Htile Hint].
  exists (committed si None).
  assert (Hp : primitive op (current_node si) = Returns None)
    by (destruct Hop as [-> | ->]; cbn [primitive]; rewrite Hc; congruence).
  rewrite (run_returns _ _ _ Hp).
  destruct Hop as [-> | ->]; simpl; rewrite Hc; auto.
Qed.

(** X6.  Moving to a child and back to the parent returns to the same
    record, and the child reached is the subtree at that position; the root
    is reached from a node and from its child alike, and from its parent
    when it has one. *)
Theorem navigation_round_trip (si : scop_t pet_scop) n t child_idx :
  current_node si = Some n ->
  node_tree n = Some t ->
  0 <= child_idx < Z.of_nat (length (tree_children t)) ->
  goto_parent (goto_child si child_idx) = si /\
  (exists n', current_node (goto_child si child_idx) = Some n' /\
              node_tree n' = nth_error (tree_children t) (Z.to_nat child_idx)) /\
  goto_root (goto_child si child_idx) = goto_root si /\
  (node_path n <> [] -> goto_root (goto_parent si) = goto_root si) /\
  goto_root (goto_root si) = goto_root si.
Proof.
  intros Hc Ht Hr.
  pose proof (child_in_range n t child_idx Ht Hr) as Hchild.
  destruct si as [sc dep cur tmp m str]; simpl in Hc; subst cur.
  destruct n as [sched path]. unfold node_tree in Ht; simpl in Ht.
  unfold goto_parent, goto_child, goto_root, set_current_node.
  cbn [current_node]. rewrite Hchild. simpl.
  repeat split.
  - destruct (path ++ [Z.to_nat child_idx]) eqn:E.
    + apply app_eq_nil in E. destruct E; discriminate.
    + rewrite <- E, removelast_last. reflexivity.
  - eexists. split; [reflexivity|]. unfold node_tree; simpl.
    rewrite tree_at_app, Ht. simpl.
    destruct (nth_error (tree_children t) (Z.to_nat child_idx)); reflexivity.
  - simpl. intros Hp. destruct path; [contradiction | reflexivity].
Qed.

(** X7.  [get_num_children] and [goto_child].  On a current node with [k]
    children [get_num_children] returns [k].  When the only child is a leaf,
    [k] is 1 and [goto_child] reaches that leaf for every position.  On any
    other node [goto_child], for a position that fits an [int], reaches a
    node exactly when the position is below [k]; a leaf (type 6) has no
    children, and [goto_child] leaves the record without a current node.
    Without a current node [get_type] returns -1 and [get_num_children] the
    largest [size_t]. *)
Theorem children_bound_moves (si : scop_t pet_scop) :
  (forall n t child_idx,
      current_node si = Some n ->
      node_tree n = Some t ->
      Z.of_nat (length (tree_children t)) < 2 ^ 64 ->
      get_num_children si = Z.of_nat (length (tree_children t)) /\
      (tree_children t = [LeafNode] ->
       get_num_children si = 1 /\
       exists n',
         current_node (goto_child si child_idx) = Some n' /\
         node_schedule n' = node_schedule n /\
         node_tree n' = Some LeafNode /\
         isl_schedule_node_parent (Some n') = Some n) /\
      (tree_children t <> [LeafNode] ->
       0 <= child_idx < 2 ^ 31 ->
       (current_node (goto_child si child_idx) <> None <->
        child_idx < get_num_children si)) /\
      (get_type si = 6 ->
       get_num_children si = 0 /\
       current_node (goto_child si child_idx) = None)) /\
  (current_node si = None ->
   get_type si = -1 /\ get_num_children si = 2 ^ 64 - 1 /\
   forall child_idx, current_node (goto_child si child_idx) = None).
Proof.
  split.
  - intros n t child_idx Hc Ht Hk.
    assert (Hn : get_num_children si = Z.of_nat (length (tree_children t))).
    { unfold get_num_children, size_t_of_int. rewrite Hc. simpl. rewrite Ht.
      apply Z.mod_small. lia. }
    rewrite Hn. split; [reflexivity|].
    unfold goto_child. cbn [current_node set_current_node]. rewrite Hc.
    split; [|split].
    + intros L. rewrite L. split; [reflexivity|].
      exact (child_is_the_leaf n t child_idx Ht L).
    + intros L Hi.
      destruct (Z_lt_dec child_idx (Z.of_nat (length (tree_children t))))
        as [Hlt|Hge].
      * rewrite (child_in_range n t child_idx Ht) by lia.
        split; [intros _; exact Hlt | discriminate].
      * rewrite (child_out_of_range n t child_idx Ht L) by lia.
        split; [congruence | contradiction].
    + unfold get_type. rewrite Hc. simpl. rewrite Ht.
      destruct t; simpl; try discriminate. intros _.
      split; [reflexivity|].
      destruct ((0 <=? child_idx) && (child_idx <? 0)) eqn:E; [|reflexivity].
      apply andb_true_iff in E. destruct E as [E1 E2].
      apply Z.leb_le in E1. apply Z.ltb_lt in E2. lia.
  - intros Hc. unfold get_type, get_num_children, goto_child.
    rewrite Hc. simpl. repeat split.
Qed.

Lemma band_member_set_ast_loop_type_value b pos type :
  isl_schedule_band_member_set_ast_loop_type (Some b) pos type =
  if (0 <=? pos) && (pos <? Z.of_nat (isl_schedule_band_n_member b))
  then Some {| band_mupa := band_mupa b;
               band_permutable := band_permutable b;
               band_coincident := band_coincident b;
               band_loop_type :=
                 list_set (band_loop_type b) (Z.to_nat pos) type |}
  else if type =? isl_ast_loop_error then Some b else None.
Proof.
  unfold isl_schedule_band_member_set_ast_loop_type,
    isl_schedule_band_member_get_ast_loop_type. cbv beta iota.
  destruct (pos <? 0) eqn:E1; cbn [orb].
  - apply Z.ltb_lt in E1.
    replace (0 <=? pos) with false by (symmetry; apply Z.leb_gt; lia).
    cbn [andb]. rewrite (Z.eqb_sym type). reflexivity.
  - apply Z.ltb_ge in E1.
    replace (0 <=? pos) with true by (symmetry; apply Z.leb_le; lia).
    cbn [andb]. rewrite (Z.leb_antisym pos).
    destruct (pos <? Z.of_nat (isl_schedule_band_n_member b));
      cbn [negb]; [|rewrite (Z.eqb_sym type); reflexivity].
    destruct (_ =? type) eqn:E; [|reflexivity].
    apply Z.eqb_eq in E. destruct b as [m p c l].
    cbn [band_mupa band_permutable band_coincident band_loop_type] in *.
    do 2 f_equal. symmetry. exact (list_set_same _ _ _ _ E).
Qed.

(** X8.  [set_loop_opt] with one of the values -1 to 3 of the enumeration
    of loop types returns 1 whatever happens and never sets the dirty flag:
    a SCoP that only [set_loop_opt] has touched is still emitted as its
    original text.  On a band with a member at [pos] it sets the loop type
    of that member and keeps the partial schedule.  On a band without a
    member at [pos] it keeps the current node when [opt] is -1, the error
    value, and leaves the record without a current node for the other
    values.  On a node that is not a band, and without a current node, it
    leaves the record without a current node. *)
Theorem set_loop_opt_is_not_a_transformation (si : scop_t pet_scop) pos opt :
  -1 <= opt <= 3 ->
  snd (set_loop_opt si pos opt) = 1 /\
  modified (fst (set_loop_opt si pos opt)) = modified si /\
  tmp_node (fst (set_loop_opt si pos opt)) = tmp_node si /\
  (forall p scop' scop_idx,
      modified si = false ->
      generate_code_callback pet_scop_print_original codegen
        (Some p) (Some scop') (fst (set_loop_opt si pos opt)) scop_idx =
      (pet_scop_print_original (Some scop') (Some p), S scop_idx)) /\
  (forall n b c,
      current_node si = Some n ->
      node_tree n = Some (BandNode b c) ->
      0 <= pos < Z.of_nat (isl_schedule_band_n_member b) ->
      exists n' b',
        current_node (fst (set_loop_opt si pos opt)) = Some n' /\
        node_path n' = node_path n /\
        node_tree n' = Some (BandNode b' c) /\
        band_mupa b' = band_mupa b /\
        band_loop_type b' = list_set (band_loop_type b) (Z.to_nat pos) opt) /\
  (forall n b c,
      current_node si = Some n ->
      node_tree n = Some (BandNode b c) ->
      ~ 0 <= pos < Z.of_nat (isl_schedule_band_n_member b) ->
      (opt = isl_ast_loop_error ->
       current_node (fst (set_loop_opt si pos opt)) = Some n) /\
      (opt <> isl_ast_loop_error ->
       current_node (fst (set_loop_opt si pos opt)) = None)) /\
  (forall n t,
      current_node si = Some n ->
      node_tree n = Some t ->
      (forall b c, t <> BandNode b c) ->
      current_node (fst (set_loop_opt si pos opt)) = None) /\
  (current_node si = None ->
   current_node (fst (set_loop_opt si pos opt)) = None).
Proof.
  intros _.
  split; [reflexivity|]. split; [reflexivity|]. split; [reflexivity|].
  split; [|split; [|split; [|split]]].
  - intros p scop' scop_idx Hm. unfold generate_code_callback. simpl.
    rewrite Hm. reflexivity.
  - intros n b c Hc Ht Hp. unfold set_loop_opt.
    cbn [fst current_node set_current_node]. rewrite Hc.
    unfold isl_schedule_node_band_member_set_ast_loop_type,
      isl_schedule_tree_band_member_set_ast_loop_type.
    cbv beta iota. rewrite Ht. cbv beta iota.
    rewrite band_member_set_ast_loop_type_value.
    replace ((0 <=? pos) && (pos <? Z.of_nat (isl_schedule_band_n_member b)))
      with true
      by (symmetry; apply andb_true_iff; split;
          [apply Z.leb_le | apply Z.ltb_lt]; lia).
    cbv beta iota.
    destruct (TransformationFacts.graft_tree_defined n
                (BandNode
                   {| band_mupa := band_mupa b;
                      band_permutable := band_permutable b;
                      band_coincident := band_coincident b;
                      band_loop_type :=
                        list_set (band_loop_type b) (Z.to_nat pos) opt |} c)
                _ Ht) as [n' G].
    rewrite G.
    destruct (TransformationFacts.graft_tree_inv _ _ _ G) as (Hpath & Hn' & _).
    eexists n', _. split; [reflexivity|]. split; [exact Hpath|].
    split; [exact Hn'|]. split; reflexivity.
  - intros n b c Hc Ht Hp. unfold set_loop_opt.
    cbn [fst current_node set_current_node]. rewrite Hc.
    unfold isl_schedule_node_band_member_set_ast_loop_type,
      isl_schedule_tree_band_member_set_ast_loop_type.
    cbv beta iota. rewrite Ht. cbv beta iota.
    rewrite band_member_set_ast_loop_type_value.
    replace ((0 <=? pos) && (pos <? Z.of_nat (isl_schedule_band_n_member b)))
      with false.
    2:{ symmetry. apply not_true_is_false. intros K.
        apply andb_true_iff in K. destruct K as [K1 K2].
        apply Z.leb_le in K1. apply Z.ltb_lt in K2. lia. }
    split.
    + intros ->. cbn [Z.eqb isl_ast_loop_error Pos.eqb].
      unfold isl_schedule_node_graft_tree.
      rewrite (tree_graft_same _ _ _ Ht). destruct n as [[ctx root] path].
      reflexivity.
    + intros Ho. replace (opt =? isl_ast_loop_error) with false
        by (symmetry; apply Z.eqb_neq; exact Ho).
      reflexivity.
  - intros n t Hc Ht Hb. unfold set_loop_opt.
    cbn [fst current_node set_current_node]. rewrite Hc.
    unfold isl_schedule_node_band_member_set_ast_loop_type,
      isl_schedule_tree_band_member_set_ast_loop_type.
    cbv beta iota. rewrite Ht. cbv beta iota.
    destruct t; try reflexivity. exfalso. exact (Hb _ _ eq_refl).
  - intros Hc. unfold set_loop_opt.
    cbn [fst current_node set_current_node]. rewrite Hc. reflexivity.
Qed.

(** X27.  The modified flag is never cleared.  Through any sequence of
    transformations, moves, rollbacks and loop options that runs to its
    end, the SCoP and the dependences of the record stay what they were,
    and the flag is set at the end exactly when it was set at the start or
    the sequence holds a transformation: a rollback does not clear it.  On
    the record that [get_scop_callback] creates, a transformation followed
    by a rollback therefore leaves the current node of the start with the
    flag set, and the code of the SCoP is then generated from the schedule
    instead of being printed as it was written. *)
Theorem modified_flag_is_never_cleared :
  (forall cs (si si' : scop_t pet_scop),
      call_all run cs si = Returns si' ->
      scop si' = scop si /\ dependency si' = dependency si /\
      modified si' = modified si || existsb is_transformation cs) /\
  (forall get_dependencies pet_scop_get_schedule scop' scops op si si' p
          front_end_scop scop_idx,
      get_scop_callback get_dependencies pet_scop_get_schedule scop' scops =
      scops ++ [si] ->
      call_all run [Transform op; Rollback] si = Returns si' ->
      current_node si' =
      isl_schedule_get_root (pet_scop_get_schedule scop') /\
      modified si' = true /\
      generate_code_callback pet_scop_print_original codegen
        (Some p) (Some front_end_scop) si' scop_idx =
      (codegen (Some p) (Some scop') (pet_scop_get_schedule scop'),
       S scop_idx)).
Proof.
  assert (Hone : forall c (si si' : scop_t pet_scop),
             call_one run c si = Returns si' ->
             scop si' = scop si /\ dependency si' = dependency si /\
             modified si' = modified si || is_transformation c).
  { intros c si si' H. destruct c; cbn [call_one is_transformation] in H |- *;
      try (injection H as <-;
           destruct si as [sc dep cur tmp m str]; cbn;
           rewrite ?orb_false_r; auto; fail).
    destruct (run op si) as [[si1 r]|] eqn:E; [|discriminate].
    injection H as <-. destruct (run_inv _ _ _ _ E) as (cand & _ & -> & _).
    cbn. rewrite orb_true_r. auto. }
  split.
  - induction cs as [|c cs IH]; intros si si' H; cbn [call_all] in H.
    + injection H as <-. cbn. rewrite orb_false_r. auto.
    + destruct (call_one run c si) as [si1|] eqn:E; [|discriminate].
      destruct (Hone _ _ _ E) as (S1 & D1 & M1).
      destruct (IH _ _ H) as (S2 & D2 & M2).
      cbn [existsb]. rewrite S2, D2, M2, S1, D1, M1, orb_assoc. auto.
  - intros get_dependencies pet_scop_get_schedule scop' scops op si si' p
      front_end_scop scop_idx Hsi H.
    unfold get_scop_callback in Hsi. apply app_inv_head in Hsi.
    injection Hsi as <-. cbn [call_all call_one] in H.
    destruct (run op _) as [[si1 r]|] eqn:E; [|discriminate].
    injection H as <-. destruct (run_inv _ _ _ _ E) as (cand & _ & -> & _).
    cbn. destruct (pet_scop_get_schedule scop'); auto.
Qed.

End Protocol.

Lemma rollback_twice_witness :
  rollback (rollback nest_scop) = nest_scop /\
  current_node (rollback nest_scop) = None.
Proof.
  destruct (rollback_twice unit nest_scop) as [H1 H2].
  split; [exact H1 | exact (proj1 (H2 eq_refl))].
Defined.

Lemma rollback_undoes_one_step_witness :
  exists si1 si2 r1 r2,
    run_nest Interchange nest_scop = Returns (si1, r1) /\
    run_nest (Tile 2) si1 = Returns (si2, r2) /\
    current_node (rollback si2) = current_node si1 /\
    current_node si1 <> current_node nest_scop.
Proof.
  destruct (run_nest Interchange nest_scop) as [[si1 r1]|] eqn:E1;
    [|vm_compute in E1; discriminate E1].
  destruct (run_nest (Tile 2) si1) as [[si2 r2]|] eqn:E2;
    [|unfold run_nest in E2; simpl in E2; discriminate E2].
  exists si1, si2, r1, r2. split; [reflexivity|]. split; [exact E2|].
  split.
  - exact (proj1 (rollback_undoes_one_step unit legality no_parallel
                    keep2 keep0 keep3 keep2 keep1 keep2 keep3 keep0
                    Interchange (Tile 2) nest_scop si1 si2 r1 r2 E1 E2)).
  - vm_compute in E1. injection E1 as <- _. vm_compute. discriminate.
Defined.

Lemma transformation_frame_witness :
  exists si',
    run_nest Interchange nest_scop = Returns (si', 0) /\
    dependency si' = Some nest_dependency.
Proof.
  exists (committed nest_scop (tadashi_interchange (Some nest_outer))).
  assert (E : run_nest Interchange nest_scop =
              Returns (committed nest_scop
                         (tadashi_interchange (Some nest_outer)), 0))
    by (vm_compute; reflexivity).
  split; [exact E|].
  destruct (transformation_frame unit legality no_parallel
              keep2 keep0 keep3 keep2 keep1 keep2 keep3 keep0
              Interchange nest_scop _ 0 E) as (_ & Hd & _).
  exact Hd.
Defined.

Lemma returned_value_judges_current_node_witness :
  exists si',
    run_nest (Tile 2) nest_scop = Returns (si', 1) /\
    verdict_nest (Tile 2) (current_node si') (dependency si') = isl_bool_true.
Proof.
  exists (committed nest_scop (tadashi_tile (Some nest_outer) 2)).
  assert (E : run_nest (Tile 2) nest_scop =
              Returns (committed nest_scop
                         (tadashi_tile (Some nest_outer) 2), 1))
    by (vm_compute; reflexivity).
  split; [exact E|].
  exact (proj1 (proj2 (returned_value_judges_current_node unit
                         legality no_parallel
                         keep2 keep0 keep3 keep2 keep1 keep2 keep3 keep0
                         (Tile 2) nest_scop _ 1 E)) eq_refl).
Defined.

Lemma failed_transformation_is_committed_witness :
  exists si',
    run_nest (Tile 2) root_scop = Returns (si', -1) /\
    current_node si' = None /\ tmp_node si' = Some nest_root /\
    modified si' = true /\ current_node (rollback si') = Some nest_root.
Proof.
  assert (Hb : forall b c, schedule_root nest <> BandNode b c)
    by (intros b c; discriminate).
  exact (failed_transformation_is_committed unit legality no_parallel
           keep2 keep0 keep3 keep2 keep1 keep2 keep3 keep0
           root_scop nest_root (schedule_root nest) 2 (Tile 2)
           eq_refl eq_refl Hb (or_introl eq_refl)).
Defined.

Lemma navigation_round_trip_witness :
  goto_parent (goto_child nest_scop 0) = nest_scop /\
  goto_root (goto_child nest_scop 0) = goto_root nest_scop.
Proof.
  assert (Hr : 0 <= 0 < Z.of_nat (length (tree_children
                                            (BandNode band_i
                                               (BandNode band_j LeafNode)))))
    by (simpl; lia).
  destruct (navigation_round_trip unit nest_scop nest_outer _ 0
              eq_refl eq_refl Hr) as (H1 & _ & H3 & _).
  split; [exact H1 | exact H3].
Defined.

Lemma children_bound_moves_witness :
  get_num_children nest_scop = 1 /\
  current_node (goto_child nest_scop 0) <> None /\
  ~ current_node (goto_child nest_scop 1) <> None.
Proof.
  assert (Hk : Z.of_nat (length (tree_children
                                   (BandNode band_i
                                      (BandNode band_j LeafNode)))) < 2 ^ 64)
    by reflexivity.
  assert (Hl : tree_children (BandNode band_i (BandNode band_j LeafNode)) <>
               [LeafNode]) by discriminate.
  destruct (proj1 (children_bound_moves unit nest_scop)
              nest_outer _ 0 eq_refl eq_refl Hk) as (Hn & _ & H0 & _).
  destruct (proj1 (children_bound_moves unit nest_scop)
              nest_outer _ 1 eq_refl eq_refl Hk) as (_ & _ & H1 & _).
  split; [exact Hn|]. split.
  - apply (H0 Hl); [lia|]. rewrite Hn. simpl. lia.
  - intros H. apply (H1 Hl) in H; [|lia]. rewrite Hn in H. simpl in H. lia.
Defined.

Lemma set_loop_opt_is_not_a_transformation_witness :
  (exists n' b',
      current_node (fst (set_loop_opt nest_scop 0 isl_ast_loop_unroll)) =
      Some n' /\
      node_tree n' = Some (BandNode b' (BandNode band_j LeafNode)) /\
      band_loop_type b' = [isl_ast_loop_unroll]) /\
  current_node (fst (set_loop_opt nest_scop 5 isl_ast_loop_error)) =
  Some nest_outer /\
  current_node (fst (set_loop_opt nest_scop 5 isl_ast_loop_unroll)) = None.
Proof.
  assert (Hr : 0 <= 0 < Z.of_nat (isl_schedule_band_n_member band_i))
    by (simpl; lia).
  assert (Hr' : ~ 0 <= 5 < Z.of_nat (isl_schedule_band_n_member band_i))
    by (simpl; lia).
  assert (Hu : -1 <= isl_ast_loop_unroll <= 3)
    by (unfold isl_ast_loop_unroll; lia).
  assert (He : -1 <= isl_ast_loop_error <= 3)
    by (unfold isl_ast_loop_error; lia).
  destruct (set_loop_opt_is_not_a_transformation unit unit
              (fun _ p => p) (fun p _ _ => p)
              nest_scop 0 isl_ast_loop_unroll Hu)
    as (_ & _ & _ & _ & Hband & _).
  destruct (set_loop_opt_is_not_a_transformation unit unit
              (fun _ p => p) (fun p _ _ => p)
              nest_scop 5 isl_ast_loop_error He)
    as (_ & _ & _ & _ & _ & Hkeep & _).
  destruct (set_loop_opt_is_not_a_transformation unit unit
              (fun _ p => p) (fun p _ _ => p)
              nest_scop 5 isl_ast_loop_unroll Hu)
    as (_ & _ & _ & _ & _ & Hlose & _).
  destruct (Hband nest_outer band_i _ eq_refl eq_refl Hr)
    as (n' & b' & H1 & _ & H3 & _ & H5).
  split; [|split].
  - exists n', b'. split; [exact H1|]. split; [exact H3 | exact H5].
  - exact (proj1 (Hkeep nest_outer band_i _ eq_refl eq_refl Hr') eq_refl).
  - apply (proj2 (Hlose nest_outer band_i _ eq_refl eq_refl Hr')).
    discriminate.
Defined.

Lemma modified_flag_is_never_cleared_witness :
  exists si',
    call_all run_nest [Transform Interchange; Rollback; GotoRoot] nest_scop =
    Returns si' /\
    modified si' = true /\ dependency si' = Some nest_dependency.
Proof.
  destruct (call_all run_nest [Transform Interchange; Rollback; GotoRoot]
              nest_scop) as [si'|] eqn:E; [|vm_compute in E; discriminate E].
  exists si'. split; [reflexivity|].
  destruct (proj1 (modified_flag_is_never_cleared unit unit
                     legality no_parallel (fun _ p => p) (fun p _ _ => p)
                     keep2 keep0 keep3 keep2 keep1 keep2 keep3 keep0)
              _ nest_scop si' E) as (_ & D & M).
  split; [exact M | exact D].
Defined.

End SessionMoreFacts.

(** ** Scaling, tiling, interchange, shifts and the helpers of the fusion *)

Module TransformationMoreFacts.
Import Isl IslMore Transformations TransformationsMore Examples ExamplesMore
       TreeFacts TransformationFacts.

(** *** Scaling *)

(** The factors that [tadashi_tile] and [tadashi_scale] build from their
    one integer. *)
Lemma one_value_sizes n b c v :
  node_tree n = Some (BandNode b c) ->
  isl_multi_val_from_val_list
    (isl_schedule_node_band_get_space (Some n))
    (isl_val_list_from_val
       (isl_val_int_from_si (isl_schedule_node_get_ctx (Some n)) v)) =
  if Nat.eqb 1 (isl_schedule_band_n_member b)
  then Some {| mv_space := isl_multi_union_pw_aff_get_space (band_mupa b);
               mv_list := [v] |}
  else None.
Proof.
  intros Ht. simpl. rewrite Ht. simpl. unfold isl_space_dim. simpl.
  rewrite repeat_length. reflexivity.
Qed.

Lemma scale_spec n b c scale :
  node_tree n = Some (BandNode b c) ->
  isl_schedule_band_n_member b = 1%nat ->
  isl_schedule_tree_is_subtree_anchored c = false ->
  exists n',
    tadashi_scale (Some n) scale = Some n' /\
    node_path n' = node_path n /\
    node_tree n' =
    Some (BandNode
            (isl_schedule_band_scale b
               {| mv_space := isl_multi_union_pw_aff_get_space (band_mupa b);
                  mv_list := [scale] |}) c).
Proof.
  intros Ht Hd Ha. unfold tadashi_scale.
  rewrite (one_value_sizes n b c scale Ht), Hd. cbn [Nat.eqb].
  unfold isl_schedule_node_band_scale. rewrite Ht. cbn [mv_space].
  rewrite isl_space_is_equal_refl.
  cbn [isl_schedule_tree_is_subtree_anchored]. rewrite Ha. cbn [negb andb].
  match goal with
  | |- exists n', isl_schedule_node_graft_tree n ?t = _ /\ _ =>
      destruct (graft_tree_defined n t _ Ht) as [n' G]
  end.
  destruct (graft_tree_inv _ _ _ G) as (Hp & Hn' & _).
  exists n'. auto.
Qed.

Lemma scaled_value b scale p :
  isl_schedule_band_n_member b = 1%nat ->
  isl_multi_union_pw_aff_eval
    (band_mupa
       (isl_schedule_band_scale b
          {| mv_space := isl_multi_union_pw_aff_get_space (band_mupa b);
             mv_list := [scale] |})) p =
  option_map (map (Z.mul scale))
    (isl_multi_union_pw_aff_eval (band_mupa b) p).
Proof.
  unfold isl_schedule_band_n_member, isl_multi_union_pw_aff_eval. intros Hd.
  destruct (mupa_list (band_mupa b)) as [|upa [|? ?]] eqn:El; try discriminate.
  simpl. rewrite El. simpl. rewrite union_pw_aff_eval_map.
  destruct (isl_union_pw_aff_eval upa p); reflexivity.
Qed.

Lemma scaled_members b mv :
  length (mv_list mv) = isl_schedule_band_n_member b ->
  isl_schedule_band_n_member (isl_schedule_band_scale b mv) =
  isl_schedule_band_n_member b.
Proof.
  unfold isl_schedule_band_n_member. simpl. intros H.
  rewrite LegalityFacts.zip_with_length, H. apply Nat.min_id.
Qed.

(** X9.  On a band with one dimension and nothing anchored below it,
    [tadashi_scale] succeeds for every factor: the node stays where it is,
    the child, the tuple identifier and the annotations of the band are
    kept, and every value of the partial schedule is multiplied by the
    factor.  Scaling by [s1] and then by [s2] gives the values of scaling by
    [s1 * s2]. *)
Theorem scale_multiplies_and_composes n b c s1 s2 :
  node_tree n = Some (BandNode b c) ->
  isl_schedule_band_n_member b = 1%nat ->
  isl_schedule_tree_is_subtree_anchored c = false ->
  exists n1 n2 n12 b1 b2 b12,
    tadashi_scale (Some n) s1 = Some n1 /\
    tadashi_scale (Some n1) s2 = Some n2 /\
    tadashi_scale (Some n) (s1 * s2) = Some n12 /\
    (node_path n1 = node_path n /\ node_tree n1 = Some (BandNode b1 c)) /\
    (node_path n2 = node_path n /\ node_tree n2 = Some (BandNode b2 c)) /\
    (node_path n12 = node_path n /\ node_tree n12 = Some (BandNode b12 c)) /\
    (mupa_tuple_id (band_mupa b1) = mupa_tuple_id (band_mupa b) /\
     band_permutable b1 = band_permutable b /\
     band_coincident b1 = band_coincident b /\
     band_loop_type b1 = band_loop_type b) /\
    forall p,
      isl_multi_union_pw_aff_eval (band_mupa b1) p =
      option_map (map (Z.mul s1))
        (isl_multi_union_pw_aff_eval (band_mupa b) p) /\
      isl_multi_union_pw_aff_eval (band_mupa b2) p =
      isl_multi_union_pw_aff_eval (band_mupa b12) p.
Proof.
  intros Ht Hd Ha.
  destruct (scale_spec n b c s1 Ht Hd Ha) as (n1 & E1 & P1 & T1).
  set (b1 := isl_schedule_band_scale b _) in T1.
  assert (Hd1 : isl_schedule_band_n_member b1 = 1%nat).
  { unfold b1. rewrite scaled_members; [exact Hd|]. rewrite Hd. reflexivity. }
  destruct (scale_spec n1 b1 c s2 T1 Hd1 Ha) as (n2 & E2 & P2 & T2).
  destruct (scale_spec n b c (s1 * s2) Ht Hd Ha) as (n12 & E12 & P12 & T12).
  do 6 eexists.
  split; [exact E1|]. split; [exact E2|]. split; [exact E12|].
  split; [split; [exact P1 | exact T1]|].
  split; [split; [congruence | exact T2]|].
  split; [split; [exact P12 | exact T12]|].
  split; [repeat split|].
  intros p. rewrite (scaled_value b1 s2 p Hd1).
  unfold b1. rewrite !(scaled_value b _ p Hd). split; [reflexivity|].
  destruct (isl_multi_union_pw_aff_eval (band_mupa b) p) as [l|]; simpl; auto.
  f_equal. rewrite map_map. apply map_ext. intros d. lia.
Qed.

Lemma scale_multiplies_and_composes_witness :
  exists n2,
    tadashi_scale (tadashi_scale (Some loop_band) 2) 3 = Some n2 /\
    band_value (Some n2) (instance "T" [3]) = Some [18].
Proof.
  destruct (scale_multiplies_and_composes loop_band _ LeafNode 2 3
              eq_refl eq_refl eq_refl)
    as (n1 & n2 & n12 & b1 & b2 & b12 & E1 & E2 & E12 & _ & [_ T2] &
        [_ T12] & _ & Hv).
  exists n2. rewrite E1. split; [exact E2|].
  unfold band_value. rewrite T2.
  rewrite (proj2 (Hv (instance "T" [3]))).
  vm_compute in E12. injection E12 as <-.
  vm_compute in T12. injection T12 as <-. reflexivity.
Defined.

(** *** Tiling *)

(** Tile and point loops together keep the order of the loop they split,
    whatever the tiling options of the context. *)
Lemma tile_order ctx v d1 d2 :
  0 < v ->
  lex_lt [tile_loop ctx v d1; point_loop ctx v d1]
         [tile_loop ctx v d2; point_loop ctx v d2] = true <-> d1 < d2.
Proof.
  intros Hv. unfold tile_loop, point_loop. cbn [lex_lt].
  rewrite andb_false_r, orb_false_r.
  assert (B : forall d, v * (d / v) <= d < v * (d / v) + v).
  { intros d. pose proof (Z.mod_pos_bound d v Hv).
    pose proof (Z.mod_eq d v ltac:(lia)). lia. }
  pose proof (B d1) as B1. pose proof (B d2) as B2.
  generalize dependent (d1 / v). generalize dependent (d2 / v).
  intros q2 B2 q1 B1. clear B.
  rewrite orb_true_iff, andb_true_iff, !Z.ltb_lt, Z.eqb_eq.
  destruct (Z.lt_trichotomy q1 q2) as [L | [-> | L]];
    destruct (tile_scale_tile_loops ctx), (tile_shift_point_loops ctx);
    split; intros K; nia.
Qed.

(** X10.  Tiling keeps the order of the loop.  On a band with one dimension
    and nothing anchored below it, for a positive tile size and whatever the
    tiling options of the context, [tadashi_tile] builds a tower of a tile
    band over a point band on which every instance is scheduled, and two
    instances are ordered by the pair of their tile and point values exactly
    as they were by the value of the band. *)
Theorem tile_keeps_the_order n b c tile_size :
  node_tree n = Some (BandNode b c) ->
  isl_schedule_band_n_member b = 1%nat ->
  isl_schedule_tree_is_subtree_anchored c = false ->
  0 < tile_size ->
  exists n' outer inner,
    tadashi_tile (Some n) tile_size = Some n' /\
    node_tree n' = Some (BandNode outer (BandNode inner c)) /\
    forall p q d1 d2,
      isl_multi_union_pw_aff_eval (band_mupa b) p = Some [d1] ->
      isl_multi_union_pw_aff_eval (band_mupa b) q = Some [d2] ->
      exists o1 i1 o2 i2,
        isl_multi_union_pw_aff_eval (band_mupa outer) p = Some [o1] /\
        isl_multi_union_pw_aff_eval (band_mupa inner) p = Some [i1] /\
        isl_multi_union_pw_aff_eval (band_mupa outer) q = Some [o2] /\
        isl_multi_union_pw_aff_eval (band_mupa inner) q = Some [i2] /\
        (lex_lt [o1; i1] [o2; i2] = true <-> d1 < d2) /\
        (d1 = d2 -> o1 = o2 /\ i1 = i2).
Proof.
  intros Ht Hd Ha Hs.
  destruct (tile_builds_tower n b c tile_size Ht Hd Ha Hs)
    as (n' & outer & inner & E & _ & T & Hv).
  exists n', outer, inner. split; [exact E|]. split; [exact T|].
  intros p q d1 d2 Hp Hq.
  destruct (Hv p d1 Hp) as [Po Pi]. destruct (Hv q d2 Hq) as [Qo Qi].
  do 4 eexists.
  split; [exact Po|]. split; [exact Pi|]. split; [exact Qo|].
  split; [exact Qi|]. split.
  - apply tile_order. exact Hs.
  - intros ->. split; reflexivity.
Qed.

Lemma tile_keeps_the_order_witness :
  exists n' outer inner,
    tadashi_tile (Some loop_band) 3 = Some n' /\
    node_tree n' = Some (BandNode outer (BandNode inner LeafNode)) /\
    isl_multi_union_pw_aff_eval (band_mupa outer) (instance "T" [2]) =
    Some [0] /\
    isl_multi_union_pw_aff_eval (band_mupa outer) (instance "T" [3]) =
    Some [3].
Proof.
  destruct (tile_keeps_the_order loop_band _ LeafNode 3
              eq_refl eq_refl eq_refl eq_refl)
    as (n' & outer & inner & E & T & _).
  exists n', outer, inner. split; [exact E|]. split; [exact T|].
  vm_compute in E. injection E as <-.
  vm_compute in T. injection T as <- <-. split; reflexivity.
Defined.

(** X11.  [tadashi_tile] and [tadashi_scale] pass a single value for the
    whole band and never look at the band themselves: on a band that does
    not have exactly one dimension, and on a band with a context node
    somewhere below it, both return NULL, whatever the value. *)
Theorem tile_and_scale_refuse n b c v :
  node_tree n = Some (BandNode b c) ->
  isl_schedule_band_n_member b <> 1%nat \/
  isl_schedule_tree_is_subtree_anchored c = true ->
  tadashi_tile (Some n) v = None /\ tadashi_scale (Some n) v = None.
Proof.
  intros Ht H. unfold tadashi_tile, tadashi_scale.
  rewrite (one_value_sizes n b c v Ht).
  destruct (Nat.eqb 1 (isl_schedule_band_n_member b)) eqn:E;
    [|split; reflexivity].
  apply Nat.eqb_eq in E. destruct H as [H | H]; [congruence|].
  unfold isl_schedule_node_band_tile, isl_schedule_node_band_scale.
  rewrite Ht. cbn [isl_schedule_tree_is_subtree_anchored]. rewrite H.
  cbn [negb]. rewrite !andb_false_r. split; reflexivity.
Qed.

Lemma tile_and_scale_refuse_witness :
  tadashi_tile (Some wide_band) 2 = None /\
  tadashi_scale (Some wide_band) 2 = None.
Proof.
  refine (tile_and_scale_refuse wide_band _ LeafNode 2 eq_refl _).
  left. vm_compute. discriminate.
Defined.

(** *** Interchange *)

Lemma anchored_child t c cs :
  isl_schedule_tree_is_subtree_anchored t = false ->
  tree_children t = c :: cs ->
  isl_schedule_tree_is_subtree_anchored c = false.
Proof.
  destruct t; simpl; intros Ha Hc; try discriminate;
    try (injection Hc as <- _; exact Ha);
    rewrite Hc in Ha; simpl in Ha; apply orb_false_iff in Ha; tauto.
Qed.

Lemma parent_of_last n p i :
  node_path n = p ++ [i] ->
  isl_schedule_node_parent (Some n) =
  Some {| node_schedule := node_schedule n; node_path := p |}.
Proof.
  intros E. unfold isl_schedule_node_parent. simpl. rewrite E.
  rewrite removelast_last. destruct (p ++ [i]) eqn:K; [|reflexivity].
  apply app_eq_nil in K. destruct K; discriminate.
Qed.

(** [tadashi_interchange] sinks the band at the node below the node that
    was its child. *)
Lemma interchange_sinks n b t c cs :
  node_tree n = Some (BandNode b t) ->
  node_path n <> [] ->
  (forall parent, node_parent_tree n = Some parent ->
                  is_set_or_sequence parent = false) ->
  tree_children t = c :: cs ->
  is_set_or_sequence t = false ->
  isl_schedule_tree_is_subtree_anchored t = false ->
  let inner := isl_schedule_band_from_multi_union_pw_aff (band_mupa b) in
  exists n',
    tadashi_interchange (Some n) = Some n' /\
    tree_graft (schedule_root (node_schedule n)) (node_path n)
      (tree_set_child t 0 (BandNode inner c)) =
    Some (schedule_root (node_schedule n')) /\
    node_path n' = node_path n ++ [0%nat] /\
    node_tree n' = Some (BandNode inner c) /\
    schedule_ctx (node_schedule n') = schedule_ctx (node_schedule n).
Proof.
  intros Ht Hp Hpar Hc Hk Ha inner.
  pose proof (anchored_child t c cs Ha Hc) as Hac.
  destruct (tree_at_removelast _ _ _ Ht) as [parent Hparent].
  unfold tadashi_interchange.
  assert (Hm : isl_schedule_node_band_get_partial_schedule (Some n) =
               Some (band_mupa b)) by (simpl; rewrite Ht; reflexivity).
  rewrite Hm, (delete_band _ _ _ _ Ht Hp Hparent (Hpar _ Hparent) Ha).
  destruct (graft_tree_defined n t _ Ht) as [n1 G1].
  rewrite G1. destruct (graft_tree_inv _ _ _ G1) as (P1 & T1 & C1 & R1).
  rewrite (first_child_spec n1 t c cs T1 Hc).
  set (n2 := {| node_schedule := node_schedule n1;
                node_path := node_path n1 ++ [0%nat] |}).
  assert (T2 : node_tree n2 = Some c).
  { unfold node_tree, n2; simpl. rewrite tree_at_app.
    unfold node_tree in T1. rewrite T1. simpl. rewrite Hc. reflexivity. }
  assert (Par2 : node_parent_tree n2 = Some t).
  { unfold node_parent_tree, n2; simpl. rewrite removelast_last. exact T1. }
  assert (P2 : node_path n2 <> []).
  { unfold n2; simpl. intros E. apply app_eq_nil in E.
    destruct E; discriminate. }
  rewrite (insert_partial_schedule_spec n2 c t (band_mupa b)
             T2 P2 Par2 Hk Hac).
  destruct (graft_tree_defined n2 (BandNode inner c) _ T2) as [n3 G3].
  fold inner. rewrite G3.
  destruct (graft_tree_inv _ _ _ G3) as (P3 & T3 & C3 & R3).
  exists n3. split; [reflexivity|]. split.
  - rewrite <- R3. unfold n2; simpl. rewrite P1.
    unfold node_tree in T1. rewrite P1 in T1.
    rewrite (tree_graft_app _ _ _ _ _ T1). simpl. rewrite Hc.
    apply (tree_graft_graft _ _ _ (tree_set_child t 0 (BandNode inner c)))
      in R1.
    exact (eq_sym R1).
  - split; [rewrite P3; unfold n2; simpl; rewrite P1; reflexivity|].
    split; [exact T3|]. rewrite C3. unfold n2; simpl. exact C1.
Qed.

Lemma delete_band_inv n b t n1 :
  node_tree n = Some (BandNode b t) ->
  isl_schedule_node_delete (Some n) = Some n1 ->
  node_path n <> [] /\
  (forall parent, node_parent_tree n = Some parent ->
                  is_set_or_sequence parent = false) /\
  isl_schedule_tree_is_subtree_anchored t = false /\
  node_path n1 = node_path n /\
  node_tree n1 = Some t.
Proof.
  intros Ht D. unfold isl_schedule_node_delete in D. rewrite Ht in D.
  destruct (node_parent_tree n) as [parent|] eqn:Hpar; try discriminate.
  destruct (node_path n) as [|i path] eqn:Hp; try discriminate.
  cbn [tree_children] in D.
  destruct (is_set_or_sequence parent) eqn:Hk; try discriminate.
  cbn [isl_schedule_tree_is_subtree_anchored] in D.
  destruct (isl_schedule_tree_is_subtree_anchored t) eqn:Ha; try discriminate.
  destruct (graft_tree_inv _ _ _ D) as (P1 & T1 & _).
  split; [discriminate|]. split; [intros q Hq; congruence|].
  split; [reflexivity|]. split; [congruence | exact T1].
Qed.

(** Below the band there must be a node that is neither a leaf nor a set or
    sequence node. *)
Lemma interchange_none n b t :
  node_tree n = Some (BandNode b t) ->
  tree_children t = [] \/ is_set_or_sequence t = true ->
  tadashi_interchange (Some n) = None.
Proof.
  intros Ht H. unfold tadashi_interchange.
  destruct (isl_schedule_node_delete (Some n)) as [n1|] eqn:D;
    [|reflexivity].
  destruct (delete_band_inv n b t n1 Ht D) as (_ & _ & _ & P1 & T1).
  unfold isl_schedule_node_first_child.
  destruct (tree_children t) as [|c cs] eqn:Hc.
  { rewrite (child_out_of_range n1 t 0 T1);
      [reflexivity | rewrite Hc; discriminate | rewrite Hc; simpl; lia]. }
  destruct H as [H | H]; [discriminate|].
  rewrite (child_in_range n1 t 0 T1) by (rewrite Hc; simpl; lia).
  change (Z.to_nat 0) with 0%nat.
  set (n2 := {| node_schedule := node_schedule n1;
                node_path := node_path n1 ++ [0%nat] |}).
  assert (Par2 : node_parent_tree n2 = Some t).
  { unfold node_parent_tree, n2; simpl. rewrite removelast_last. exact T1. }
  unfold isl_schedule_node_insert_partial_schedule.
  destruct (isl_schedule_node_band_get_partial_schedule (Some n)) as [mupa|];
    [|reflexivity].
  destruct (node_tree n2) as [t2|]; [|reflexivity].
  rewrite Par2, H. destruct (node_path n2); reflexivity.
Qed.

(** X12.  When [tadashi_interchange] succeeds.  On a band node it returns a
    node exactly when the band is not the root and not a child of a set or
    sequence node, nothing below it is anchored, and its child is neither a
    leaf nor a set or sequence node: an innermost band, and a band over a
    sequence of statements, make it return NULL. *)
Theorem interchange_succeeds_exactly n b t :
  node_tree n = Some (BandNode b t) ->
  tadashi_interchange (Some n) <> None <->
  node_path n <> [] /\
  (forall parent, node_parent_tree n = Some parent ->
                  is_set_or_sequence parent = false) /\
  isl_schedule_tree_is_subtree_anchored t = false /\
  tree_children t <> [] /\
  is_set_or_sequence t = false.
Proof.
  intros Ht. split.
  - intros H.
    destruct (isl_schedule_node_delete (Some n)) as [n1|] eqn:D.
    + destruct (delete_band_inv n b t n1 Ht D) as (Hp & Hpar & Ha & _).
      split; [exact Hp|]. split; [exact Hpar|]. split; [exact Ha|].
      split.
      * intros E. apply H. apply (interchange_none n b t Ht). left. exact E.
      * destruct (is_set_or_sequence t) eqn:Hk; [|reflexivity].
        exfalso. apply H. apply (interchange_none n b t Ht). right. exact Hk.
    + exfalso. apply H. unfold tadashi_interchange. rewrite D. reflexivity.
  - intros (Hp & Hpar & Ha & Hc & Hk).
    destruct (tree_children t) as [|c cs] eqn:E; [contradiction|].
    destruct (interchange_sinks n b t c cs Ht Hp Hpar E Hk Ha)
      as (n' & -> & _).
    discriminate.
Qed.

Lemma interchange_succeeds_exactly_witness :
  tadashi_interchange (Some nest_outer) <> None /\
  tadashi_interchange
    (Some {| node_schedule := nest; node_path := [0%nat; 0%nat] |}) = None.
Proof.
  split.
  - apply (proj2 (interchange_succeeds_exactly nest_outer band_i
                    (BandNode band_j LeafNode) eq_refl)).
    split; [discriminate|].
    split; [intros parent H; vm_compute in H; injection H as <-; reflexivity|].
    split; [reflexivity|]. split; [discriminate | reflexivity].
  - destruct (tadashi_interchange
                (Some {| node_schedule := nest;
                         node_path := [0%nat; 0%nat] |})) eqn:E;
      [|reflexivity].
    assert (H : tadashi_interchange
                  (Some {| node_schedule := nest;
                           node_path := [0%nat; 0%nat] |}) <> None)
      by (rewrite E; discriminate).
    apply (proj1 (interchange_succeeds_exactly
                    {| node_schedule := nest; node_path := [0%nat; 0%nat] |}
                    band_j LeafNode eq_refl))
      in H.
    destruct H as (_ & _ & _ & H & _). exfalso. apply H. reflexivity.
Defined.

(** X13.  Interchanging twice.  After an interchange the returned node is
    the band that sank; interchanging again from its parent brings the two
    partial schedules back in their first order, on two new bands: the
    annotations of the two original bands are lost.  Interchanging again
    from the returned node itself sinks the same band once more, and
    returns NULL when there is only a leaf below. *)
Theorem interchange_twice n b1 b2 c :
  node_tree n = Some (BandNode b1 (BandNode b2 c)) ->
  node_path n <> [] ->
  (forall parent, node_parent_tree n = Some parent ->
                  is_set_or_sequence parent = false) ->
  isl_schedule_tree_is_subtree_anchored c = false ->
  let fresh := isl_schedule_band_from_multi_union_pw_aff in
  exists n1 n2,
    tadashi_interchange (Some n) = Some n1 /\
    tadashi_interchange (isl_schedule_node_parent (Some n1)) = Some n2 /\
    tree_at (schedule_root (node_schedule n2)) (node_path n) =
    Some (BandNode (fresh (band_mupa b1)) (BandNode (fresh (band_mupa b2)) c)) /\
    node_path n2 = node_path n ++ [0%nat] /\
    (c = LeafNode -> tadashi_interchange (Some n1) = None).
Proof.
  intros Ht Hp Hpar Ha fresh.
  destruct (interchange_sinks n b1 (BandNode b2 c) c [] Ht Hp Hpar
              eq_refl eq_refl Ha) as (n1 & E1 & R1 & P1 & T1 & _).
  cbn [tree_set_child] in R1.
  pose proof (parent_of_last n1 (node_path n) 0%nat P1) as Hup.
  set (up := {| node_schedule := node_schedule n1;
                node_path := node_path n |}) in *.
  assert (Tup : node_tree up =
                Some (BandNode b2 (BandNode (fresh (band_mupa b1)) c)))
    by exact (tree_at_graft _ _ _ _ R1).
  assert (Hparup : forall parent, node_parent_tree up = Some parent ->
                                  is_set_or_sequence parent = false).
  { intros parent' Hq. unfold node_parent_tree, up in Hq. simpl in Hq.
    destruct (exists_last Hp) as (q & i & Eq). rewrite Eq in *.
    rewrite removelast_last in Hq.
    destruct (tree_at_removelast _ _ _ Ht) as [parent Hparent].
    pose proof (Hpar _ Hparent) as Hk.
    rewrite Eq, removelast_last in Hparent.
    destruct (parent_kind_after_graft _ _ _ _ _ _ R1 Hparent)
      as (parent'' & A & K).
    rewrite A in Hq. injection Hq as <-. congruence. }
  destruct (interchange_sinks up b2 (BandNode (fresh (band_mupa b1)) c) c []
              Tup Hp Hparup eq_refl eq_refl Ha)
    as (n2 & E2 & R2 & P2 & _).
  exists n1, n2. rewrite Hup. split; [exact E1|]. split; [exact E2|].
  split; [exact (tree_at_graft _ _ _ _ R2)|]. split; [exact P2|].
  intros ->. apply (interchange_none n1 _ LeafNode T1). left. reflexivity.
Qed.

Lemma interchange_twice_witness :
  exists n2,
    tadashi_interchange
      (isl_schedule_node_parent (tadashi_interchange (Some nest_outer))) =
    Some n2 /\
    node_path n2 = [0%nat; 0%nat] /\
    tadashi_interchange (tadashi_interchange (Some nest_outer)) = None.
Proof.
  destruct (interchange_twice nest_outer band_i band_j LeafNode eq_refl)
    as (n1 & n2 & E1 & E2 & _ & P2 & Hn).
  - discriminate.
  - intros parent H. vm_compute in H. injection H as <-. reflexivity.
  - reflexivity.
  - exists n2. rewrite E1. split; [exact E2|]. split; [exact P2|].
    exact (Hn eq_refl).
Defined.

(** X14.  What the interchange does to the schedule.  Where the two bands
    give an instance the values [v1] and [v2], the subtree at the band gave
    it the schedule points [v1 ++ v2 ++ r], for the points [r] of the
    subtree below the two bands; after [tadashi_interchange] the subtree at
    the same place gives it the points [v2 ++ v1 ++ r]. *)
Theorem interchange_swaps_schedule_dimensions n b1 b2 c :
  node_tree n = Some (BandNode b1 (BandNode b2 c)) ->
  node_path n <> [] ->
  (forall parent, node_parent_tree n = Some parent ->
                  is_set_or_sequence parent = false) ->
  isl_schedule_tree_is_subtree_anchored c = false ->
  exists n' t',
    tadashi_interchange (Some n) = Some n' /\
    tree_at (schedule_root (node_schedule n')) (node_path n) = Some t' /\
    forall p v1 v2,
      isl_multi_union_pw_aff_eval (band_mupa b1) p = Some v1 ->
      isl_multi_union_pw_aff_eval (band_mupa b2) p = Some v2 ->
      subtree_schedule (BandNode b1 (BandNode b2 c)) p =
      map (fun r => v1 ++ v2 ++ r) (subtree_schedule c p) /\
      subtree_schedule t' p =
      map (fun r => v2 ++ v1 ++ r) (subtree_schedule c p).
Proof.
  intros Ht Hp Hpar Ha.
  destruct (interchange_sinks n b1 (BandNode b2 c) c [] Ht Hp Hpar
              eq_refl eq_refl Ha) as (n1 & E1 & R1 & _).
  cbn [tree_set_child] in R1.
  exists n1. eexists. split; [exact E1|].
  split; [exact (tree_at_graft _ _ _ _ R1)|].
  intros p v1 v2 H1 H2. cbn [subtree_schedule band_mupa
    isl_schedule_band_from_multi_union_pw_aff].
  rewrite H1, H2, !map_map. split; reflexivity.
Qed.

Lemma interchange_swaps_schedule_dimensions_witness :
  exists n' t',
    tadashi_interchange (Some nest_outer) = Some n' /\
    tree_at (schedule_root (node_schedule n')) [0%nat] = Some t' /\
    subtree_schedule (BandNode band_i (BandNode band_j LeafNode))
      (instance "S" [1; 0]) = [[1; 0]] /\
    subtree_schedule t' (instance "S" [1; 0]) = [[0; 1]].
Proof.
  destruct (interchange_swaps_schedule_dimensions
              nest_outer band_i band_j LeafNode eq_refl)
    as (n' & t' & E & T & Hv).
  - discriminate.
  - intros parent H. vm_compute in H. injection H as <-. reflexivity.
  - reflexivity.
  - exists n', t'. split; [exact E|]. split; [exact T|].
    destruct (Hv (instance "S" [1; 0]) [1] [0] eq_refl eq_refl) as [H1 H2].
    split; [exact H1 | exact H2].
Defined.

(** *** Shifts *)

Lemma fold_left_ext_in {A B} (f g : A -> B -> A) l a :
  (forall x acc, In x l -> f acc x = g acc x) ->
  fold_left f l a = fold_left g l a.
Proof.
  revert a; induction l as [|x l IH]; intros a H; simpl; [reflexivity|].
  rewrite (H x a (or_introl eq_refl)). apply IH.
  intros y acc Hy. apply H. right. exact Hy.
Qed.

(** On pieces of distinct spaces, the value at a point of a piece is the
    value of that piece. *)
Lemma eval_nth_piece upa j pa p :
  distinct_spaces (map pa_domain upa) = true ->
  nth_error upa j = Some pa ->
  isl_set_contains (pa_domain pa) p = true ->
  isl_union_pw_aff_eval upa p = Some (pa_aff pa (pt_coords p)).
Proof.
  intros Hd Hj Hc. revert j Hj Hd.
  induction upa as [|a upa IH]; intros j Hj Hd; [destruct j; discriminate|].
  cbn [map] in Hd. destruct (distinct_spaces_tail _ _ Hd) as [Hd' Hne].
  cbn [isl_union_pw_aff_eval]. unfold isl_pw_aff_eval at 1.
  destruct j as [|j]; simpl in Hj.
  - injection Hj as ->. rewrite Hc. reflexivity.
  - destruct (isl_set_contains (pa_domain a) p) eqn:Ca.
    + pose proof (contains_same_space _ _ _ Ca Hc) as K.
      rewrite Hne in K; [discriminate|].
      apply in_map. eapply nth_error_In. exact Hj.
    + exact (IH j Hj Hd').
Qed.

(** With an index that names no piece, the loop of [_shift_partial] never
    calls the function it was given. *)
Lemma shift_partial_missing_piece n b c id upa fn idx v :
  node_tree n = Some (BandNode b c) ->
  band_mupa b = {| mupa_tuple_id := id; mupa_list := [upa] |} ->
  ~ (0 <= idx < Z.of_nat (length upa)) ->
  _shift_partial (Some n) fn idx v = _shift_partial (Some n) _pa_val idx v.
Proof.
  intros Ht Hm Hi. unfold _shift_partial.
  cbn [isl_schedule_node_get_ctx option_map
         isl_schedule_node_band_get_partial_schedule].
  rewrite Ht, Hm.
  cbn [isl_multi_union_pw_aff_get_tuple_id mupa_tuple_id
         isl_multi_union_pw_aff_dim mupa_list length Z.of_nat
         Pos.of_succ_nat Z.eqb Pos.eqb negb
         isl_multi_union_pw_aff_get_at nth_error
         isl_union_pw_aff_domain option_map isl_union_set_get_set_list
         isl_union_pw_aff_empty_ctx isl_set_list_n_set].
  rewrite Nat2Z.id, length_map.
  do 4 f_equal. apply fold_left_ext_in. intros x acc Hx.
  apply in_map_iff in Hx. destruct Hx as (k & <- & Hk).
  apply in_seq in Hk.
  replace (idx =? Z.of_nat k) with false
    by (symmetry; apply Z.eqb_neq; lia).
  reflexivity.
Qed.

(** X15.  A shift of a piece that does not exist.  When [pa_idx] is not the
    index of a piece of the partial schedule, the four shifts do the same
    thing whatever their last argument: they return a node at the same
    place, and the band there gives every instance the value it had. *)
Theorem shift_of_a_missing_piece n b c id upa pa_idx id_idx :
  node_tree n = Some (BandNode b c) ->
  band_mupa b = {| mupa_tuple_id := Some id; mupa_list := [upa] |} ->
  distinct_spaces (map pa_domain upa) = true ->
  isl_schedule_tree_is_subtree_anchored c = false ->
  ~ (0 <= pa_idx < Z.of_nat (length upa)) ->
  exists n' b',
    tadashi_partial_shift_var (Some n) pa_idx id_idx = Returns (Some n') /\
    tadashi_partial_shift_val (Some n) pa_idx id_idx = Returns (Some n') /\
    tadashi_full_shift_var (Some n) pa_idx id_idx = Returns (Some n') /\
    tadashi_full_shift_val (Some n) pa_idx id_idx = Returns (Some n') /\
    node_path n' = node_path n /\
    node_tree n' = Some (BandNode b' c) /\
    forall j pa p,
      nth_error upa j = Some pa ->
      isl_set_contains (pa_domain pa) p = true ->
      isl_multi_union_pw_aff_eval (band_mupa b) p =
      Some [pa_aff pa (pt_coords p)] /\
      isl_multi_union_pw_aff_eval (band_mupa b') p =
      Some [pa_aff pa (pt_coords p)].
Proof.
  intros Ht Hm Hd Ha Hi.
  destruct (shift_val_adds_on_one_piece n b c id upa pa_idx id_idx
              Ht Hm Hd Ha) as (n' & b' & E & _ & Hp & Hn' & _ & Hv).
  exists n', b'.
  unfold tadashi_partial_shift_var, tadashi_full_shift_var,
    tadashi_full_shift_val.
  rewrite (shift_partial_missing_piece n b c (Some id) upa _pa_id
             pa_idx id_idx Ht Hm Hi).
  unfold tadashi_partial_shift_val in E.
  repeat (split; [assumption|]).
  intros j pa p Hj Hc.
  pose proof (Hv j pa p Hj Hc) as Hv'.
  assert (Hlt : (j < length upa)%nat)
    by (apply nth_error_Some; rewrite Hj; discriminate).
  unfold shift_amount in Hv'.
  replace (pa_idx =? Z.of_nat j) with false in Hv'
    by (symmetry; apply Z.eqb_neq; lia).
  rewrite Z.add_0_r in Hv'. split; [|exact Hv'].
  unfold isl_multi_union_pw_aff_eval. rewrite Hm.
  cbn [mupa_list eval_all].
  rewrite (eval_nth_piece upa j pa p Hd Hj Hc). reflexivity.
Qed.

Lemma shift_of_a_missing_piece_witness :
  exists n',
    tadashi_partial_shift_var (Some two_node) 2 7 = Returns (Some n') /\
    tadashi_full_shift_val (Some two_node) 2 7 = Returns (Some n') /\
    band_value (Some n') (instance "B" [1]) = Some [1].
Proof.
  assert (Hi : ~ (0 <= 2 < Z.of_nat (length
                     [{| pa_domain := A_domain; pa_aff := coordinate 0 |};
                      {| pa_domain := B_domain; pa_aff := coordinate 0 |}])))
    by (simpl; lia).
  destruct (shift_of_a_missing_piece two_node two_band LeafNode "L_0"%string _
              2 7 eq_refl eq_refl eq_refl eq_refl Hi)
    as (n' & b' & E1 & _ & _ & E4 & _ & T & Hv).
  exists n'. split; [exact E1|]. split; [exact E4|].
  unfold band_value. rewrite T.
  exact (proj2 (Hv 1%nat _ (instance "B" [1]) eq_refl eq_refl)).
Defined.

(** X16.  The shifts need a named band.  [_shift_partial] copies the tuple
    identifier of the partial schedule onto the shift it builds; when the
    partial schedule of a one-dimensional band has no tuple identifier
    there is none to copy, and each of the four shifts returns NULL (it
    does not stop on its assertion). *)
Theorem shift_needs_a_tuple_id n b c pa_idx id_idx :
  node_tree n = Some (BandNode b c) ->
  isl_schedule_band_n_member b = 1%nat ->
  mupa_tuple_id (band_mupa b) = None ->
  (forall fn, _shift_partial (Some n) fn pa_idx id_idx = Returns None) /\
  tadashi_partial_shift_var (Some n) pa_idx id_idx = Returns None /\
  tadashi_partial_shift_val (Some n) pa_idx id_idx = Returns None /\
  tadashi_full_shift_var (Some n) pa_idx id_idx = Returns None /\
  tadashi_full_shift_val (Some n) pa_idx id_idx = Returns None.
Proof.
  intros Ht Hd Hid.
  assert (H : forall fn,
             _shift_partial (Some n) fn pa_idx id_idx = Returns None).
  { intros fn. unfold _shift_partial.
    cbn [isl_schedule_node_band_get_partial_schedule]. rewrite Ht.
    cbn [isl_multi_union_pw_aff_get_tuple_id isl_multi_union_pw_aff_dim].
    fold (isl_schedule_band_n_member b). rewrite Hd, Hid.
    cbn [Z.of_nat Pos.of_succ_nat Z.eqb Pos.eqb negb].
    match goal with
    | |- context [isl_multi_union_pw_aff_from_union_pw_aff ?u] =>
        destruct (isl_multi_union_pw_aff_from_union_pw_aff u)
    end; reflexivity. }
  split; [exact H|]. repeat split; apply H.
Qed.

Lemma shift_needs_a_tuple_id_witness :
  tadashi_partial_shift_val (Some anonymous_band) 0 5 = Returns None /\
  tadashi_full_shift_var (Some anonymous_band) 0 0 = Returns None.
Proof.
  split.
  - exact (proj1 (proj2 (proj2 (shift_needs_a_tuple_id anonymous_band _
                                  LeafNode 0 5 eq_refl eq_refl eq_refl)))).
  - exact (proj1 (proj2 (proj2 (proj2
             (shift_needs_a_tuple_id anonymous_band _ LeafNode 0 0
                eq_refl eq_refl eq_refl))))).
Defined.

Lemma tuple_is_equal_spec t1 t2 :
  tuple_is_equal t1 t2 = true <->
  (tuple_name t1, length (tuple_dim_ids t1)) =
  (tuple_name t2, length (tuple_dim_ids t2)).
Proof.
  unfold tuple_is_equal.
  rewrite andb_true_iff, option_eqb_string_eq, Nat.eqb_eq.
  split; [intros [-> ->]; reflexivity | intros H; injection H; auto].
Qed.

Lemma isl_space_is_equal_spec s1 s2 :
  isl_space_is_equal s1 s2 = true <->
  option_map (fun t => (tuple_name t, length (tuple_dim_ids t)))
    (space_in s1) =
  option_map (fun t => (tuple_name t, length (tuple_dim_ids t)))
    (space_in s2) /\
  (tuple_name (space_out s1), length (tuple_dim_ids (space_out s1))) =
  (tuple_name (space_out s2), length (tuple_dim_ids (space_out s2))).
Proof.
  unfold isl_space_is_equal.
  rewrite andb_true_iff, tuple_is_equal_spec.
  destruct (space_in s1) as [t1|], (space_in s2) as [t2|]; simpl;
    try rewrite tuple_is_equal_spec;
    split; intros [H1 H2]; split; auto; congruence.
Qed.

Lemma isl_space_is_equal_sym s1 s2 :
  isl_space_is_equal s1 s2 = isl_space_is_equal s2 s1.
Proof.
  destruct (isl_space_is_equal s1 s2) eqn:E1,
           (isl_space_is_equal s2 s1) eqn:E2; try reflexivity; exfalso.
  - apply isl_space_is_equal_spec in E1. destruct E1 as [A B].
    assert (K : isl_space_is_equal s2 s1 = true)
      by (apply isl_space_is_equal_spec; split; congruence).
    congruence.
  - apply isl_space_is_equal_spec in E2. destruct E2 as [A B].
    assert (K : isl_space_is_equal s1 s2 = true)
      by (apply isl_space_is_equal_spec; split; congruence).
    congruence.
Qed.

(** Whether the sets of a union set live in distinct spaces does not depend
    on the order in which they are listed. *)
Lemma distinct_spaces_listing (u u' : list isl_set) :
  Permutation u u' -> distinct_spaces u = true -> distinct_spaces u' = true.
Proof.
  induction 1 as [|x l l' P IH|x y l|l l' l'' P1 IH1 P2 IH2]; intros H.
  - reflexivity.
  - cbn [distinct_spaces] in *. apply andb_true_iff in H.
    destruct H as [Hx Hl]. apply andb_true_iff. split; [|exact (IH Hl)].
    rewrite forallb_forall in *. intros s Hs. apply Hx.
    exact (Permutation_in _ (Permutation_sym P) Hs).
  - cbn [distinct_spaces forallb] in *.
    repeat (apply andb_true_iff in H; destruct H as [? H]).
    apply andb_true_iff in H0. destruct H0 as [Hyx Hy].
    rewrite isl_space_is_equal_sym in Hyx.
    rewrite Hyx, Hy, H1, H. reflexivity.
  - exact (IH2 (IH1 H)).
Qed.

(** Among pieces of distinct spaces, a space names one position. *)
Lemma distinct_spaces_index (l : isl_union_pw_aff) i j a b :
  distinct_spaces (map pa_domain l) = true ->
  nth_error l i = Some a ->
  nth_error l j = Some b ->
  isl_space_is_equal (set_space (pa_domain a)) (set_space (pa_domain b)) =
  true ->
  i = j.
Proof.
  revert i j; induction l as [|x l IH]; intros i j Hd Hi Hj He;
    [destruct i; discriminate|].
  cbn [map] in Hd. destruct (distinct_spaces_tail _ _ Hd) as [Hd' Hne].
  destruct i as [|i], j as [|j]; simpl in Hi, Hj.
  - reflexivity.
  - injection Hi as ->. rewrite Hne in He; [discriminate|].
    apply in_map. eapply nth_error_In. exact Hj.
  - injection Hj as ->. rewrite isl_space_is_equal_sym, Hne in He;
      [discriminate|].
    apply in_map. eapply nth_error_In. exact Hi.
  - f_equal. exact (IH i j Hd' Hi Hj He).
Qed.

Lemma points_intersect_self pts : points_intersect pts pts = pts.
Proof.
  destruct pts as [|a]; simpl; [reflexivity|]. f_equal.
  apply forallb_filter_id. apply forallb_forall. intros c Hc.
  apply existsb_exists. exists c. split; [exact Hc | apply list_eqb_Z_refl].
Qed.

Lemma add_constant_domain pa x :
  pa_domain (isl_pw_aff_add pa {| pa_domain := pa_domain pa;
                                  pa_aff := fun _ => x |}) = pa_domain pa.
Proof.
  unfold isl_pw_aff_add. cbn [pa_domain]. rewrite points_intersect_self.
  destruct (pa_domain pa). reflexivity.
Qed.

Lemma add_constants_domains (upa : isl_union_pw_aff) (amount : nat -> Z) k :
  map pa_domain
    (map (fun jp => isl_pw_aff_add (snd jp)
                      {| pa_domain := pa_domain (snd jp);
                         pa_aff := fun _ => amount (fst jp) |})
         (combine (seq k (length upa)) upa)) =
  map pa_domain upa.
Proof.
  revert k; induction upa as [|a l IH]; intros k; [reflexivity|].
  cbn [length seq combine map snd fst].
  rewrite add_constant_domain. f_equal. apply IH.
Qed.

Lemma nth_error_numbered {A} (l : list A) k j :
  nth_error (combine (seq k (length l)) l) j =
  option_map (fun x => ((k + j)%nat, x)) (nth_error l j).
Proof.
  revert k j; induction l as [|a l IH]; intros k [|j]; simpl; auto.
  - rewrite Nat.add_0_r. reflexivity.
  - rewrite IH, Nat.add_succ_r. reflexivity.
Qed.

(** The sum of a union expression without empty pieces and constant pieces
    on its domains, piece by piece. *)
Lemma add_val_pieces_shape upa amount :
  distinct_spaces (map pa_domain upa) = true ->
  (forall pa, In pa upa ->
              points_is_empty (set_points (pa_domain pa)) = false) ->
  isl_union_pw_aff_add upa (val_pieces (map pa_domain upa) 0 amount) =
  map (fun jp => isl_pw_aff_add (snd jp)
                   {| pa_domain := pa_domain (snd jp);
                      pa_aff := fun _ => amount (fst jp) |})
      (combine (seq 0 (length upa)) upa).
Proof.
  intros Hd Hne. unfold isl_union_pw_aff_add.
  set (pieces := val_pieces (map pa_domain upa) 0 amount).
  assert (G : forall l k,
             (forall i pa, nth_error l i = Some pa ->
                           nth_error upa (k + i) = Some pa) ->
             flat_map
               (fun pa1 =>
                  match find_part pieces (set_space (pa_domain pa1)) with
                  | Some pa2 =>
                      let r := isl_pw_aff_add pa1 pa2 in
                      if points_is_empty (set_points (pa_domain r))
                      then [] else [r]
                  | None => []
                  end) l =
             map (fun jp => isl_pw_aff_add (snd jp)
                              {| pa_domain := pa_domain (snd jp);
                                 pa_aff := fun _ => amount (fst jp) |})
                 (combine (seq k (length l)) l)).
  { induction l as [|a l IH]; intros k Hl; [reflexivity|].
    pose proof (Hl 0%nat a eq_refl) as Ha. rewrite Nat.add_0_r in Ha.
    assert (Ea : points_is_empty (set_points (pa_domain a)) = false)
      by (apply Hne; eapply nth_error_In; exact Ha).
    cbn [flat_map length seq combine map fst snd].
    unfold pieces at 1.
    rewrite (find_part_val_piece _ amount 0 k (pa_domain a) Hd)
      by (rewrite ?nth_error_map, ?Ha; auto).
    rewrite Nat.add_0_r. cbv zeta. rewrite add_constant_domain, Ea.
    cbn [app]. f_equal. apply IH. intros i pa Hi.
    rewrite Nat.add_succ_l, <- Nat.add_succ_r. apply Hl. exact Hi. }
  apply (G upa 0%nat). intros i pa Hi. exact Hi.
Qed.

Lemma shift_val_band n b c id upa pa_idx val :
  node_tree n = Some (BandNode b c) ->
  band_mupa b = {| mupa_tuple_id := Some id; mupa_list := [upa] |} ->
  distinct_spaces (map pa_domain upa) = true ->
  isl_schedule_tree_is_subtree_anchored c = false ->
  exists n',
    tadashi_partial_shift_val (Some n) pa_idx val = Returns (Some n') /\
    node_path n' = node_path n /\
    node_tree n' =
    Some (BandNode
            (set_band_mupa b
               {| mupa_tuple_id := Some id;
                  mupa_list :=
                    [isl_union_pw_aff_add upa
                       (val_pieces (map pa_domain upa) 0
                          (shift_amount pa_idx val))] |}) c).
Proof.
  intros Ht Hm Hd Ha.
  set (pieces := val_pieces (map pa_domain upa) 0 (shift_amount pa_idx val)).
  set (shift := {| mupa_tuple_id := Some id; mupa_list := [pieces] |}).
  match goal with
  | |- exists n', _ /\ _ /\ node_tree n' = Some ?t =>
      destruct (graft_tree_defined n t _ Ht) as [n' G]
  end.
  destruct (graft_tree_inv _ _ _ G) as (Hp & Hn' & _).
  exists n'. split; [|split; [exact Hp | exact Hn']].
  rewrite <- G.
  unfold tadashi_partial_shift_val, _shift_partial.
  cbn [isl_schedule_node_get_ctx option_map
         isl_schedule_node_band_get_partial_schedule].
  rewrite Ht, Hm.
  cbn [isl_multi_union_pw_aff_get_tuple_id mupa_tuple_id
         isl_multi_union_pw_aff_dim mupa_list length Z.of_nat
         Pos.of_succ_nat Z.eqb Pos.eqb negb
         isl_multi_union_pw_aff_get_at nth_error
         isl_union_pw_aff_domain option_map isl_union_set_get_set_list
         isl_union_pw_aff_empty_ctx isl_set_list_n_set].
  rewrite Nat2Z.id.
  pose proof (shift_loop_val pa_idx val (map pa_domain upa) [] []) as L.
  simpl app in L. simpl length in L. rewrite L; [|exact Hd|intros q []].
  fold pieces.
  cbn [isl_multi_union_pw_aff_from_union_pw_aff
         isl_multi_union_pw_aff_set_tuple_id mupa_list].
  fold shift. f_equal.
  unfold isl_schedule_node_band_shift. rewrite Ht.
  assert (S1 : isl_space_is_equal
                 (isl_multi_union_pw_aff_get_space (band_mupa b))
                 (isl_multi_union_pw_aff_get_space shift) = true)
    by (rewrite Hm; apply isl_space_is_equal_refl).
  rewrite S1. cbn [isl_schedule_tree_is_subtree_anchored]. rewrite Ha.
  cbn [negb andb]. unfold isl_schedule_band_shift.
  assert (S2 : isl_union_set_is_subset
                 (isl_multi_union_pw_aff_domain (band_mupa b))
                 (isl_multi_union_pw_aff_domain shift) = true)
    by (rewrite Hm; unfold isl_multi_union_pw_aff_domain; simpl;
        apply val_pieces_cover, Hd).
  rewrite S2. unfold isl_multi_union_pw_aff_add. rewrite S1.
  rewrite Hm. reflexivity.
Qed.

(** X17.  Shifts of one piece add up.  On a one-dimensional band with a
    tuple identifier whose pieces live in distinct spaces and are not
    empty, a shift of the piece of a statement by [v] returns a node at the
    same place over the same child.  A shift by [w] of the piece of the same
    statement in that band, under whatever listing of its pieces and at the
    index that the statement has in that listing, gives every instance the
    value that one shift by [v + w] gives it; with [w = - v] every instance
    is back at the value it had. *)
Theorem shifts_of_a_piece_add_up n b c id upa pa_idx pa0 v w :
  node_tree n = Some (BandNode b c) ->
  band_mupa b = {| mupa_tuple_id := Some id; mupa_list := [upa] |} ->
  distinct_spaces (map pa_domain upa) = true ->
  (forall pa, In pa upa ->
              points_is_empty (set_points (pa_domain pa)) = false) ->
  isl_schedule_tree_is_subtree_anchored c = false ->
  0 <= pa_idx ->
  nth_error upa (Z.to_nat pa_idx) = Some pa0 ->
  exists n1 b1 upa1,
    tadashi_partial_shift_val (Some n) pa_idx v = Returns (Some n1) /\
    node_path n1 = node_path n /\
    node_tree n1 = Some (BandNode b1 c) /\
    band_mupa b1 = {| mupa_tuple_id := Some id; mupa_list := [upa1] |} /\
    forall m bm upa' pa_idx' pa0',
      node_tree m = Some (BandNode bm c) ->
      band_mupa bm = {| mupa_tuple_id := Some id; mupa_list := [upa'] |} ->
      Permutation upa1 upa' ->
      0 <= pa_idx' ->
      nth_error upa' (Z.to_nat pa_idx') = Some pa0' ->
      isl_space_is_equal (set_space (pa_domain pa0'))
        (set_space (pa_domain pa0)) = true ->
      exists n2 b2,
        tadashi_partial_shift_val (Some m) pa_idx' w = Returns (Some n2) /\
        node_path n2 = node_path m /\
        node_tree n2 = Some (BandNode b2 c) /\
        forall j pa p,
          nth_error upa j = Some pa ->
          isl_set_contains (pa_domain pa) p = true ->
          isl_multi_union_pw_aff_eval (band_mupa b2) p =
          Some [pa_aff pa (pt_coords p) + shift_amount pa_idx (v + w) j] /\
          (w = - v ->
           isl_multi_union_pw_aff_eval (band_mupa b2) p =
           isl_multi_union_pw_aff_eval (band_mupa b) p).
Proof.
  intros Ht Hm Hd Hne Ha Hi Hsel.
  destruct (shift_val_band n b c id upa pa_idx v Ht Hm Hd Ha)
    as (n1 & E1 & P1 & T1).
  rewrite (add_val_pieces_shape upa _ Hd Hne) in T1.
  set (upa1 := map _ (combine _ upa)) in T1.
  assert (Hdom : map pa_domain upa1 = map pa_domain upa)
    by apply add_constants_domains.
  exists n1, (set_band_mupa b {| mupa_tuple_id := Some id;
                                 mupa_list := [upa1] |}), upa1.
  split; [exact E1|]. split; [exact P1|]. split; [exact T1|].
  split; [reflexivity|].
  intros m bm upa' pa_idx' pa0' Tm Mm Hperm Hi' Hsel' Hsame.
  assert (Hd' : distinct_spaces (map pa_domain upa') = true).
  { apply (distinct_spaces_listing (map pa_domain upa1));
      [apply Permutation_map, Hperm | rewrite Hdom; exact Hd]. }
  destruct (shift_val_adds_on_one_piece m bm c id upa' pa_idx' w
              Tm Mm Hd' Ha) as (n2 & b2 & E2 & _ & P2 & T2 & _ & Hv).
  exists n2, b2. split; [exact E2|]. split; [exact P2|]. split; [exact T2|].
  intros j pa p Hj Hc.
  set (pa1 := isl_pw_aff_add pa
                {| pa_domain := pa_domain pa;
                   pa_aff := fun _ => shift_amount pa_idx v j |}).
  assert (Hdom1 : pa_domain pa1 = pa_domain pa) by apply add_constant_domain.
  assert (Hj1 : nth_error upa1 j = Some pa1).
  { unfold upa1. rewrite nth_error_map, nth_error_numbered, Hj.
    reflexivity. }
  destruct (In_nth_error upa' pa1) as [j' Hj'].
  { apply (Permutation_in _ Hperm). eapply nth_error_In. exact Hj1. }
  assert (Hc1 : isl_set_contains (pa_domain pa1) p = true)
    by (rewrite Hdom1; exact Hc).
  pose proof (Hv j' pa1 p Hj' Hc1) as K.
  assert (Hsel_eq : (pa_idx' =? Z.of_nat j') = (pa_idx =? Z.of_nat j)).
  { destruct (pa_idx =? Z.of_nat j) eqn:E.
    - apply Z.eqb_eq in E. apply Z.eqb_eq.
      assert (Hpa : pa0 = pa)
        by (rewrite E, Nat2Z.id in Hsel; congruence).
      assert (Hjj : Z.to_nat pa_idx' = j').
      { apply (distinct_spaces_index upa' _ _ pa0' pa1 Hd' Hsel' Hj').
        rewrite Hdom1, <- Hpa. exact Hsame. }
      lia.
    - apply Z.eqb_neq in E. apply Z.eqb_neq. intros E'.
      assert (Hpa : pa0' = pa1)
        by (rewrite E', Nat2Z.id in Hsel'; congruence).
      assert (Hjj : j = Z.to_nat pa_idx).
      { apply (distinct_spaces_index upa _ _ pa pa0 Hd Hj Hsel).
        rewrite <- Hdom1, <- Hpa. exact Hsame. }
      lia. }
  assert (S : shift_amount pa_idx v j + shift_amount pa_idx' w j' =
              shift_amount pa_idx (v + w) j)
    by (unfold shift_amount; rewrite Hsel_eq;
        destruct (pa_idx =? Z.of_nat j); lia).
  rewrite K. unfold pa1. cbn [isl_pw_aff_add pa_aff].
  rewrite <- S, Z.add_assoc. split; [reflexivity|].
  intros ->. unfold isl_multi_union_pw_aff_eval at 1. rewrite Hm.
  cbn [mupa_list eval_all].
  rewrite (eval_nth_piece upa j pa p Hd Hj Hc).
  do 2 f_equal. unfold shift_amount. rewrite Hsel_eq.
  destruct (pa_idx =? Z.of_nat j); lia.
Qed.

Lemma shifts_of_a_piece_add_up_witness :
  exists n1 b1 upa1,
    tadashi_partial_shift_val (Some two_node) 0 5 = Returns (Some n1) /\
    node_tree n1 = Some (BandNode b1 LeafNode) /\
    mupa_list (band_mupa b1) = [upa1] /\
    (exists n2,
        tadashi_partial_shift_val (Some n1) 0 (-5) = Returns (Some n2) /\
        band_value (Some n2) (instance "A" [1]) = Some [1]) /\
    (exists n2,
        tadashi_partial_shift_val
          (Some {| node_schedule :=
                     {| schedule_ctx := isl_ctx_alloc_with_pet_options;
                        schedule_root :=
                          DomainNode [A_domain; B_domain]
                            (BandNode
                               (set_band_mupa b1
                                  {| mupa_tuple_id := Some "L_0"%string;
                                     mupa_list := [rev upa1] |})
                               LeafNode) |};
                   node_path := [0%nat] |}) 1 (-5) = Returns (Some n2) /\
        band_value (Some n2) (instance "A" [1]) = Some [1]).
Proof.
  assert (Hne : forall pa,
             In pa [{| pa_domain := A_domain; pa_aff := coordinate 0 |};
                    {| pa_domain := B_domain; pa_aff := coordinate 0 |}] ->
             points_is_empty (set_points (pa_domain pa)) = false)
    by (intros pa [<- | [<- | []]]; reflexivity).
  assert (H0 : 0 <= 0) by lia.
  assert (H1 : 0 <= 1) by lia.
  destruct (shifts_of_a_piece_add_up two_node two_band LeafNode
              "L_0"%string _ 0 _ 5 (-5) eq_refl eq_refl eq_refl Hne eq_refl
              H0 eq_refl)
    as (n1 & b1 & upa1 & E1 & _ & T1 & M1 & H).
  exists n1, b1, upa1. split; [exact E1|]. split; [exact T1|].
  split; [rewrite M1; reflexivity|].
  assert (Hsel : exists a b, upa1 = [a; b] /\
                   isl_space_is_equal (set_space (pa_domain a))
                     (set_space A_domain) = true).
  { vm_compute in E1. injection E1 as <-. vm_compute in T1.
    injection T1 as <-. cbn in M1. injection M1 as <-.
    do 2 eexists. split; reflexivity. }
  destruct Hsel as (a & b & -> & Hsame).
  split.
  - destruct (H n1 b1 [a; b] 0 a T1 M1 (Permutation_refl _) H0 eq_refl Hsame)
      as (n2 & b2 & E2 & _ & T2 & Hv).
    exists n2. split; [exact E2|]. unfold band_value. rewrite T2.
    exact (proj1 (Hv 0%nat _ (instance "A" [1]) eq_refl eq_refl)).
  - match goal with
    | |- exists n2, tadashi_partial_shift_val (Some ?m) _ _ = _ /\ _ =>
        destruct (H m (set_band_mupa b1
                         {| mupa_tuple_id := Some "L_0"%string;
                            mupa_list := [[b; a]] |})
                    [b; a] 1 a eq_refl eq_refl (perm_swap b a []) H1
                    eq_refl Hsame)
          as (n2 & b2 & E2 & _ & T2 & Hv)
    end.
    exists n2. split; [exact E2|]. unfold band_value. rewrite T2.
    exact (proj1 (Hv 0%nat _ (instance "A" [1]) eq_refl eq_refl)).
Defined.

(** *** The coordinate expression of the variable shifts *)

Lemma list_set_middle {A} (l1 : list A) x l2 a :
  list_set (l1 ++ x :: l2) (length l1) a = l1 ++ a :: l2.
Proof. induction l1 as [|b l1 IH]; simpl; [reflexivity | rewrite IH; auto]. Qed.

Lemma firstn_snoc {A} (l : list A) k x :
  nth_error l k = Some x -> firstn (S k) l = firstn k l ++ [x].
Proof.
  revert k; induction l as [|a l IH]; intros [|k] H; simpl in *;
    try discriminate.
  - injection H as ->. reflexivity.
  - rewrite <- (IH k H). reflexivity.
Qed.

(** The loop of [_pa_id] copies the identifiers of the set dimensions one
    by one, and is lost at the first dimension that has none. *)
Lemma pa_id_loop name (dims : list (option isl_id)) k :
  (k <= length dims)%nat ->
  fold_left
    (fun space i =>
       isl_space_set_dim_id_in space i (isl_space_get_dim_id_out space i))
    (seq 0 k)
    (Some {| space_in :=
               Some {| tuple_name := None;
                       tuple_dim_ids := repeat None (length dims) |};
             space_out := {| tuple_name := name; tuple_dim_ids := dims |} |}) =
  if forallb (fun d : option isl_id =>
                match d with Some _ => true | None => false end)
             (firstn k dims)
  then Some {| space_in :=
                 Some {| tuple_name := None;
                         tuple_dim_ids :=
                           firstn k dims ++ repeat None (length dims - k) |};
               space_out := {| tuple_name := name; tuple_dim_ids := dims |} |}
  else None.
Proof.
  induction k as [|k IH]; intros Hk.
  - simpl. rewrite Nat.sub_0_r. reflexivity.
  - rewrite seq_S, fold_left_app, IH by lia. cbn [Nat.add fold_left].
    destruct (nth_error dims k) as [d|] eqn:Ek;
      [|apply nth_error_None in Ek; lia].
    rewrite (firstn_snoc dims k d Ek), forallb_app. cbn [forallb].
    rewrite andb_true_r.
    destruct (forallb _ (firstn k dims)); [|reflexivity].
    cbn [andb isl_space_get_dim_id_out space_out tuple_dim_ids].
    rewrite Ek. destruct d as [id|]; [|reflexivity].
    cbn [isl_space_set_dim_id_in space_in tuple_dim_ids tuple_name space_out].
    assert (Hl : length (firstn k dims) = k)
      by (rewrite length_firstn; lia).
    replace (length dims - k)%nat with (S (length dims - S k)) by lia.
    cbn [repeat].
    replace (Nat.ltb k _) with true
      by (symmetry; apply Nat.ltb_lt; rewrite length_app, Hl; simpl; lia).
    pose proof (list_set_middle (firstn k dims) None
                  (repeat None (length dims - S k)) (Some id)) as M.
    rewrite Hl in M. rewrite M, <- app_assoc. reflexivity.
Qed.

Lemma to_int_small z : - 2 ^ 31 <= z < 2 ^ 31 -> to_int z = z.
Proof.
  intros H. unfold to_int. rewrite Z.mod_small by lia. lia.
Qed.

(** What [_pa_id] returns on a set whose space has the dimensions [dims]:
    the index reaches the kernel as an [int]. *)
Lemma pa_id_value set name dims id_idx :
  set_space set = set_space_of name dims ->
  _pa_id (Some set) id_idx =
  if forallb (fun d : option isl_id =>
                match d with Some _ => true | None => false end) dims
     && ((0 <=? to_int id_idx) && (to_int id_idx <? Z.of_nat (length dims)))
  then Some {| pa_domain := {| set_space := set_space set;
                               set_points := Universe |};
               pa_aff := fun c => nth (Z.to_nat (to_int id_idx)) c 0 |}
  else None.
Proof.
  intros Hs. unfold _pa_id. generalize (to_int id_idx). clear id_idx.
  intros id_idx.
  cbn [isl_set_get_space option_map isl_space_dim_out]. rewrite Hs.
  unfold isl_space_dim. cbn [set_space_of space_out tuple_dim_ids].
  unfold isl_space_add_dims_in.
  replace (Z.of_nat (length dims) <? 0) with false
    by (symmetry; apply Z.ltb_ge; lia).
  cbn [space_in space_out set_space_of tuple_name tuple_dim_ids app].
  rewrite Nat2Z.id, (pa_id_loop name dims (length dims) (le_n _)).
  rewrite firstn_all, Nat.sub_diag. cbn [repeat]. rewrite app_nil_r.
  destruct (forallb _ dims); [|reflexivity].
  cbn [andb isl_space_get_tuple_name_out isl_space_set_tuple_name_in
         space_in space_out tuple_name tuple_dim_ids isl_multi_aff_identity].
  unfold isl_space_dim. cbn [space_out tuple_dim_ids].
  rewrite Nat.eqb_refl. unfold isl_multi_aff_get_at.
  cbn [ma_space space_in ma_list].
  destruct (0 <=? id_idx) eqn:E0.
  - apply Z.leb_le in E0.
    replace (id_idx <? 0) with false by (symmetry; apply Z.ltb_ge; lia).
    destruct (id_idx <? Z.of_nat (length dims)) eqn:E1.
    + apply Z.ltb_lt in E1.
      assert (Hlt : (Z.to_nat id_idx < length dims)%nat) by lia.
      rewrite nth_error_map,
        (nth_error_nth' (seq 0 (length dims)) 0%nat)
        by (rewrite length_seq; exact Hlt).
      rewrite seq_nth by exact Hlt. reflexivity.
    + apply Z.ltb_ge in E1.
      assert (Hn : nth_error
                     (map (fun (i : nat) (c : list Z) => nth i c 0)
                        (seq 0 (length dims))) (Z.to_nat id_idx) = None)
        by (apply nth_error_None; rewrite length_map, length_seq; lia).
      rewrite Hn. reflexivity.
  - apply Z.leb_gt in E0.
    replace (id_idx <? 0) with true by (symmetry; apply Z.ltb_lt; lia).
    reflexivity.
Qed.

(** X18.  The expression that the variable shifts add.  [_pa_id] takes the
    index as a [long] and hands it to the kernel as an [int]: let [i] be
    [id_idx] so reduced, which is [id_idx] itself when it fits an [int].
    For a set whose space has the dimensions [dims], all of them named, and
    for [i] the index of one of them, [_pa_id] returns the coordinate [i] of
    the instance, on the whole space of the set: the points of the set play
    no role.  It returns NULL when [i] is not the index of a dimension, and
    when some dimension of the set has no identifier. *)
Theorem pa_id_is_a_coordinate set name dims id_idx :
  set_space set = set_space_of name dims ->
  (~ In None dims -> 0 <= to_int id_idx < Z.of_nat (length dims) ->
   _pa_id (Some set) id_idx =
   Some {| pa_domain := {| set_space := set_space set;
                           set_points := Universe |};
           pa_aff := fun c => nth (Z.to_nat (to_int id_idx)) c 0 |}) /\
  (In None dims -> _pa_id (Some set) id_idx = None) /\
  (~ (0 <= to_int id_idx < Z.of_nat (length dims)) ->
   _pa_id (Some set) id_idx = None) /\
  (- 2 ^ 31 <= id_idx < 2 ^ 31 -> to_int id_idx = id_idx).
Proof.
  intros Hs. rewrite (pa_id_value set name dims id_idx Hs).
  assert (Hnamed : forallb (fun d : option isl_id =>
                              match d with Some _ => true | None => false end)
                           dims = true <-> ~ In None dims).
  { rewrite forallb_forall. split.
    - intros H Hin. specialize (H None Hin). discriminate.
    - intros H [x|] Hx; [reflexivity | contradiction]. }
  assert (Hrange : (0 <=? to_int id_idx) &&
                   (to_int id_idx <? Z.of_nat (length dims)) =
                   true <-> 0 <= to_int id_idx < Z.of_nat (length dims))
    by (rewrite andb_true_iff, Z.leb_le, Z.ltb_lt; tauto).
  split; [|split; [|split]].
  - intros Hn Hr. apply Hnamed in Hn. apply Hrange in Hr.
    rewrite Hn, Hr. reflexivity.
  - intros Hin. destruct (forallb _ dims); [|reflexivity].
    exfalso. exact (proj1 Hnamed eq_refl Hin).
  - intros Hr. destruct ((0 <=? to_int id_idx) && _).
    + exfalso. exact (Hr (proj1 Hrange eq_refl)).
    + rewrite andb_false_r. reflexivity.
  - apply to_int_small.
Qed.

Lemma pa_id_is_a_coordinate_witness :
  option_map (fun pa => pa_aff pa [4; 9]) (_pa_id (Some S_domain) 1) =
  Some 9 /\
  option_map (fun pa => pa_aff pa [4; 9])
    (_pa_id (Some S_domain) (2 ^ 32 + 1)) = Some 9 /\
  _pa_id (Some S_domain) 2 = None.
Proof.
  destruct (pa_id_is_a_coordinate S_domain (Some "S"%string)
              [Some "i"%string; Some "j"%string] 1 eq_refl) as (H1 & _ & _).
  destruct (pa_id_is_a_coordinate S_domain (Some "S"%string)
              [Some "i"%string; Some "j"%string] (2 ^ 32 + 1) eq_refl)
    as (H3 & _ & _).
  destruct (pa_id_is_a_coordinate S_domain (Some "S"%string)
              [Some "i"%string; Some "j"%string] 2 eq_refl)
    as (_ & _ & H2 & _).
  assert (Hn : ~ In None [Some "i"%string; Some "j"%string])
    by (intros [H | [H | []]]; discriminate).
  split; [|split].
  - rewrite (H1 Hn); [reflexivity | vm_compute; split; congruence].
  - rewrite (H3 Hn); [reflexivity | vm_compute; split; congruence].
  - apply H2. vm_compute. intros [_ H]. discriminate H.
Defined.

(** *** The helpers of the fusion *)


Lemma insert_at_end (acc : isl_union_set_list) f :
  isl_union_set_list_insert (Some acc) (Z.of_nat (length acc)) (Some f) =
  Some (acc ++ [f]).
Proof.
  unfold isl_union_set_list_insert.
  replace ((0 <=? Z.of_nat (length acc)) &&
           (Z.of_nat (length acc) <=? Z.of_nat (length acc))) with true
    by (symmetry; apply andb_true_iff; split; apply Z.leb_le; lia).
  rewrite Nat2Z.id, firstn_all, skipn_all. reflexivity.
Qed.




Lemma coords_in_intersect a b c :
  coords_in (points_intersect a b) c = coords_in a c && coords_in b c.
Proof.
  destruct a as [|a], b as [|b]; cbn [points_intersect coords_in andb];
    try reflexivity; [symmetry; apply andb_true_r|].
  induction a as [|x a IH]; [reflexivity|].
  cbn [filter existsb].
  destruct (list_eqb Z.eqb c x) eqn:E.
  - apply list_eqb_Z_eq in E. subst x. cbn [orb andb].
    change (coords_in (Points b) c) with (existsb (list_eqb Z.eqb c) b).
    destruct (existsb (list_eqb Z.eqb c) b) eqn:Eb.
    + cbn [existsb]. rewrite list_eqb_Z_refl. reflexivity.
    + rewrite IH. apply andb_false_r.
  - cbn [orb]. destruct (coords_in (Points b) x); [|exact IH].
    cbn [existsb]. rewrite E. exact IH.
Qed.

Lemma isl_space_is_equal_right s sp1 sp2 :
  isl_space_is_equal sp1 sp2 = true ->
  isl_space_is_equal s sp1 = isl_space_is_equal s sp2.
Proof.
  intros H. apply isl_space_is_equal_spec in H. destruct H as [H1 H2].
  destruct (isl_space_is_equal s sp1) eqn:E1,
           (isl_space_is_equal s sp2) eqn:E2; try reflexivity; exfalso.
  - apply isl_space_is_equal_spec in E1. destruct E1 as [A B].
    assert (K : isl_space_is_equal s sp2 = true)
      by (apply isl_space_is_equal_spec; split; congruence).
    congruence.
  - apply isl_space_is_equal_spec in E2. destruct E2 as [A B].
    assert (K : isl_space_is_equal s sp1 = true)
      by (apply isl_space_is_equal_spec; split; congruence).
    congruence.
Qed.

Lemma find_set_equal_space u sp1 sp2 :
  isl_space_is_equal sp1 sp2 = true -> find_set u sp1 = find_set u sp2.
Proof.
  intros H. unfold find_set. induction u as [|s u IH]; simpl; auto.
  rewrite (isl_space_is_equal_right _ _ _ H), IH. reflexivity.
Qed.

Lemma point_in_equal_space s1 s2 p :
  isl_space_is_equal s1 s2 = true ->
  point_in_space s1 p = point_in_space s2 p.
Proof.
  intros H. apply isl_space_is_equal_spec in H. destruct H as [H1 H2].
  unfold point_in_space, space_tuple_name, isl_space_dim.
  injection H2 as -> ->.
  destruct (space_in s1), (space_in s2); simpl in *;
    try discriminate; reflexivity.
Qed.

(** A union expression restricted to a union set, one piece at a time. *)
Lemma restricted_piece_eval pa u p :
  distinct_spaces u = true ->
  isl_union_pw_aff_eval (isl_union_pw_aff_intersect_domain [pa] u) p =
  if isl_union_set_contains u p then isl_pw_aff_eval pa p else None.
Proof.
  intros Hd. unfold isl_union_pw_aff_intersect_domain.
  cbn [flat_map]. rewrite app_nil_r.
  assert (Hfound : isl_set_contains (pa_domain pa) p = true ->
                   isl_union_set_contains u p = true ->
                   exists s', find_set u (set_space (pa_domain pa)) = Some s' /\
                              isl_set_contains s' p = true).
  { intros Cp Cu. apply existsb_exists in Cu. destruct Cu as (s' & Hin & Cs).
    exists s'. split; [|exact Cs].
    rewrite <- (find_set_self u s' Hd Hin).
    apply find_set_equal_space. exact (contains_same_space _ _ _ Cp Cs). }
  unfold isl_pw_aff_eval.
  destruct (find_set u (set_space (pa_domain pa))) as [s|] eqn:F.
  - assert (Hin : In s u /\
                  isl_space_is_equal (set_space s)
                    (set_space (pa_domain pa)) = true)
      by (unfold find_set in F; apply find_some in F; exact F).
    destruct Hin as [Hin Heq]. cbv zeta.
    set (pts := points_intersect (set_points (pa_domain pa)) (set_points s)).
    assert (C : isl_set_contains
                  {| set_space := set_space (pa_domain pa);
                     set_points := pts |} p =
                isl_set_contains (pa_domain pa) p && isl_set_contains s p).
    { unfold isl_set_contains. cbn [set_space set_points]. unfold pts.
      rewrite coords_in_intersect, (point_in_equal_space _ _ p Heq).
      destruct (point_in_space (set_space (pa_domain pa)) p),
               (coords_in (set_points (pa_domain pa)) (pt_coords p)),
               (coords_in (set_points s) (pt_coords p)); reflexivity. }
    assert (Cu : isl_set_contains (pa_domain pa) p = true ->
                 isl_union_set_contains u p = isl_set_contains s p).
    { intros Cp. destruct (isl_union_set_contains u p) eqn:E.
      - destruct (Hfound Cp eq_refl) as (s' & Hs' & Cs').
        injection Hs' as <-. symmetry. exact Cs'.
      - symmetry. destruct (isl_set_contains s p) eqn:Cs; [|reflexivity].
        rewrite <- E. symmetry. apply existsb_exists. exists s. auto. }
    destruct (isl_set_contains (pa_domain pa) p) eqn:Cp.
    + rewrite (Cu eq_refl). cbn [andb] in C.
      destruct (points_is_empty pts) eqn:Ee.
      * cbn [isl_union_pw_aff_eval].
        destruct (isl_set_contains s p); [|reflexivity].
        unfold isl_set_contains in C. cbn [set_points] in C.
        apply andb_true_iff in C.
        rewrite (coords_in_not_empty _ _ (proj2 C)) in Ee. discriminate.
      * cbn [isl_union_pw_aff_eval]. unfold isl_pw_aff_eval.
        cbn [pa_domain pa_aff]. rewrite C.
        destruct (isl_set_contains s p); reflexivity.
    + cbn [andb] in C.
      assert (R : isl_union_pw_aff_eval
                    (if points_is_empty pts then []
                     else [{| pa_domain :=
                                {| set_space := set_space (pa_domain pa);
                                   set_points := pts |};
                              pa_aff := pa_aff pa |}]) p = None).
      { destruct (points_is_empty pts); [reflexivity|].
        cbn [isl_union_pw_aff_eval]. unfold isl_pw_aff_eval.
        cbn [pa_domain]. rewrite C. reflexivity. }
      transitivity (@None Z); [exact R|].
      destruct (isl_union_set_contains u p); reflexivity.
  - cbn [isl_union_pw_aff_eval].
    destruct (isl_set_contains (pa_domain pa) p) eqn:Cp;
      destruct (isl_union_set_contains u p) eqn:E; try reflexivity.
    destruct (Hfound eq_refl eq_refl) as (s' & Hs' & _). discriminate.
Qed.

Lemma restricted_eval upa u p :
  distinct_spaces u = true ->
  isl_union_pw_aff_eval (isl_union_pw_aff_intersect_domain upa u) p =
  if isl_union_set_contains u p then isl_union_pw_aff_eval upa p else None.
Proof.
  intros Hd. induction upa as [|pa upa IH].
  - simpl. destruct (isl_union_set_contains u p); reflexivity.
  - assert (E : isl_union_pw_aff_intersect_domain (pa :: upa) u =
                isl_union_pw_aff_intersect_domain [pa] u ++
                isl_union_pw_aff_intersect_domain upa u)
      by (unfold isl_union_pw_aff_intersect_domain; cbn [flat_map];
          rewrite app_nil_r; reflexivity).
    rewrite E, union_pw_aff_eval_app, (restricted_piece_eval pa u p Hd), IH.
    cbn [isl_union_pw_aff_eval].
    destruct (isl_union_set_contains u p); reflexivity.
Qed.

Lemma child_spec n t k x :
  node_tree n = Some t ->
  nth_error (tree_children t) k = Some x ->
  isl_schedule_node_child (Some n) (Z.of_nat k) =
  Some {| node_schedule := node_schedule n;
          node_path := node_path n ++ [k] |} /\
  node_tree {| node_schedule := node_schedule n;
               node_path := node_path n ++ [k] |} = Some x.
Proof.
  intros Ht Hk.
  assert (Hlt : (k < length (tree_children t))%nat)
    by (apply nth_error_Some; rewrite Hk; discriminate).
  rewrite (child_in_range n t (Z.of_nat k) Ht) by lia.
  rewrite Nat2Z.id. split; [reflexivity|].
  unfold node_tree. cbn [node_schedule node_path]. rewrite tree_at_app.
  unfold node_tree in Ht. rewrite Ht. simpl. rewrite Hk. reflexivity.
Qed.

(** X20.  What the fusion reads from one branch.  On a node whose child
    [idx] is a filter over a band, [_fuse_get_filter_and_mupa] returns to
    the node it started from, reports the filter of the child, appends that
    filter to the list, and leaves the [filters] field of the result
    untouched.  The partial schedule it reports is the one of the band
    without its tuple identifier and restricted to the filter: it has the
    values of the band on the instances of the filter and no value on any
    other instance. *)
Theorem fuse_get_filter_and_mupa_restricts n t idx f b c result l :
  node_tree n = Some t ->
  0 <= idx ->
  nth_error (tree_children t) (Z.to_nat idx) =
  Some (FilterNode f (BandNode b c)) ->
  exists mupa,
    _fuse_get_filter_and_mupa (Some n) idx result (Some l) =
    (Some n,
     {| result_filter := Some f;
        result_filters := result_filters result;
        result_mupa := Some mupa |},
     Some (l ++ [f])) /\
    mupa_tuple_id mupa = None /\
    length (mupa_list mupa) = isl_schedule_band_n_member b /\
    (distinct_spaces f = true ->
     forall p,
       (isl_union_set_contains f p = true ->
        isl_multi_union_pw_aff_eval mupa p =
        isl_multi_union_pw_aff_eval (band_mupa b) p) /\
       (isl_union_set_contains f p = false ->
        isl_schedule_band_n_member b <> 0%nat ->
        isl_multi_union_pw_aff_eval mupa p = None)).
Proof.
  intros Ht Hi Hk.
  exists {| mupa_tuple_id := None;
            mupa_list :=
              map (fun upa => isl_union_pw_aff_intersect_domain upa f)
                  (mupa_list (band_mupa b)) |}.
  split; [|split; [reflexivity|split; [apply length_map|]]].
  - unfold _fuse_get_filter_and_mupa.
    rewrite <- (Z2Nat.id idx Hi).
    destruct (child_spec n t _ _ Ht Hk) as [-> Tc].
    set (nc := {| node_schedule := node_schedule n;
                  node_path := node_path n ++ [Z.to_nat idx] |}) in *.
    unfold isl_schedule_node_first_child.
    destruct (child_spec nc _ 0%nat (BandNode b c) Tc eq_refl) as [Eg Tg].
    cbn [Z.of_nat] in Eg. rewrite Eg.
    cbn [isl_schedule_node_filter_get_filter
           isl_schedule_node_band_get_partial_schedule].
    rewrite Tc, Tg.
    rewrite (parent_of_last
               {| node_schedule := node_schedule nc;
                  node_path := node_path nc ++ [0%nat] |}
               (node_path nc) 0%nat eq_refl).
    cbn [node_schedule].
    change {| node_schedule := node_schedule nc; node_path := node_path nc |}
      with nc.
    rewrite (parent_of_last nc (node_path n) (Z.to_nat idx) eq_refl).
    f_equal; [f_equal|].
    + destruct n; reflexivity.
    + exact (insert_at_end l f).
  - intros Hd p. unfold isl_multi_union_pw_aff_eval, isl_schedule_band_n_member.
    cbn [mupa_list].
    assert (G : forall dims,
               eval_all
                 (map (fun upa => isl_union_pw_aff_intersect_domain upa f)
                      dims) p =
               if isl_union_set_contains f p then eval_all dims p
               else match dims with [] => Some [] | _ :: _ => None end).
    { induction dims as [|upa dims IH]; cbn [map eval_all].
      - destruct (isl_union_set_contains f p); reflexivity.
      - rewrite (restricted_eval upa f p Hd), IH.
        destruct (isl_union_set_contains f p); reflexivity. }
    rewrite G. split; intros ->; [reflexivity|].
    destruct (mupa_list (band_mupa b)); [contradiction | reflexivity].
Qed.

Lemma fuse_get_filter_and_mupa_restricts_witness :
  exists mupa,
    _fuse_get_filter_and_mupa (Some three_sequence) 1
      {| result_filter := None; result_filters := None; result_mupa := None |}
      (Some [[A_domain]]) =
    (Some three_sequence,
     {| result_filter := Some [B_domain]; result_filters := None;
        result_mupa := Some mupa |},
     Some [[A_domain]; [B_domain]]) /\
    isl_multi_union_pw_aff_eval mupa (instance "B" [1]) = Some [1] /\
    isl_multi_union_pw_aff_eval mupa (instance "A" [1]) = None.
Proof.
  assert (Hi : 0 <= 1) by lia.
  destruct (fuse_get_filter_and_mupa_restricts three_sequence _ 1
              [B_domain] _ LeafNode
              {| result_filter := None; result_filters := None;
                 result_mupa := None |}
              [[A_domain]] eq_refl Hi eq_refl)
    as (mupa & E & _ & _ & Hv).
  exists mupa. split; [exact E|].
  destruct (Hv eq_refl (instance "B" [1])) as [HB _].
  destruct (Hv eq_refl (instance "A" [1])) as [_ HA].
  split.
  - rewrite (HB eq_refl). reflexivity.
  - apply HA; [reflexivity | discriminate].
Defined.

End TransformationMoreFacts.

(** ** Legality under changes of the dependences and of the schedule *)

Module LegalityMoreFacts.
Import Isl Legality LegalityMore Examples TreeFacts LegalityFacts.

(** On a schedule map into one space that schedules every dependence, the
    verdict is never an error: it is legal when no delta is below or at
    zero, and illegal with a delta that is. *)
Lemma verdict_cases ctx n (S D : isl_union_map) :
  D <> [] -> schedule_into n S -> schedules_all S D ->
  (check_legality ctx (Some S) (Some D) = isl_bool_true /\
   forall d, in_delta S D d -> lex_le d (repeat 0 n) = false) \/
  (check_legality ctx (Some S) (Some D) = isl_bool_false /\
   exists d, in_delta S D d /\ lex_le d (repeat 0 n) = true).
Proof.
  intros Hne Hinto Hall.
  rewrite (check_legality_one_space ctx n S D Hne Hinto Hall).
  match goal with
  | |- context [flat_map ?f (map pt_coords ?l)] =>
      destruct (flat_map f (map pt_coords l)) as [|pr rest] eqn:E
  end.
  - left. split; [reflexivity|]. intros d Hd.
    apply (in_delta_points n S D d Hinto) in Hd.
    exact (proj1 (no_pair_below _ _) E d Hd).
  - right. split; [reflexivity|].
    assert (Hin : In pr (pr :: rest)) by (left; reflexivity).
    rewrite <- E in Hin. apply in_flat_map in Hin.
    destruct Hin as (x & Hx & Hpr). apply in_map_iff in Hpr.
    destruct Hpr as (y & _ & Hy). apply filter_In in Hy.
    destruct Hy as [[<- | []] Hle].
    exists x. split; [|exact Hle].
    apply (in_delta_points n S D x Hinto). exact Hx.
Qed.

Lemma in_delta_incl (S D D' : isl_union_map) d :
  incl D D' -> in_delta S D d -> in_delta S D' d.
Proof.
  intros Hi (a & b & x & y & HD & H). exists a, b, x, y.
  split; [apply Hi, HD | exact H].
Qed.

Lemma legal_from_deltas ctx n (S D : isl_union_map) :
  schedule_into n S -> schedules_all S D ->
  (forall d, in_delta S D d -> lex_le d (repeat 0 n) = false) ->
  check_legality ctx (Some S) (Some D) = isl_bool_true.
Proof.
  intros Hinto Hall H. destruct D as [|e D']; [reflexivity|].
  destruct (verdict_cases ctx n S (e :: D') ltac:(discriminate) Hinto Hall)
    as [[E _] | [_ (d & Hd & Hle)]]; [exact E|].
  rewrite (H d Hd) in Hle. discriminate.
Qed.

Lemma deltas_from_legal ctx n (S D : isl_union_map) :
  schedule_into n S -> schedules_all S D ->
  check_legality ctx (Some S) (Some D) = isl_bool_true ->
  forall d, in_delta S D d -> lex_le d (repeat 0 n) = false.
Proof.
  intros Hinto Hall E d Hd.
  assert (Hne : D <> []).
  { intros ->. destruct Hd as (a & b & _ & _ & [] & _). }
  destruct (verdict_cases ctx n S D Hne Hinto Hall)
    as [[_ H] | [E' _]]; [exact (H d Hd) | congruence].
Qed.

(** X21.  Legality and the set of dependences.  For a schedule map into
    one space that schedules every dependence, a schedule that is legal for
    a set of dependences is legal for every part of it, and a schedule is
    legal for the dependences of two lists together exactly when it is
    legal for each list. *)
Theorem legality_splits_over_dependences ctx n (S D1 D2 : isl_union_map) :
  schedule_into n S ->
  schedules_all S (D1 ++ D2) ->
  (forall D, incl D (D1 ++ D2) ->
             check_legality ctx (Some S) (Some (D1 ++ D2)) = isl_bool_true ->
             check_legality ctx (Some S) (Some D) = isl_bool_true) /\
  (check_legality ctx (Some S) (Some (D1 ++ D2)) = isl_bool_true <->
   check_legality ctx (Some S) (Some D1) = isl_bool_true /\
   check_legality ctx (Some S) (Some D2) = isl_bool_true).
Proof.
  intros Hinto Hall.
  assert (Hsub : forall D, incl D (D1 ++ D2) -> schedules_all S D)
    by (intros D Hi a b Hab; apply Hall, Hi, Hab).
  assert (Hpart : forall D, incl D (D1 ++ D2) ->
             check_legality ctx (Some S) (Some (D1 ++ D2)) = isl_bool_true ->
             check_legality ctx (Some S) (Some D) = isl_bool_true).
  { intros D Hi E. apply (legal_from_deltas ctx n S D Hinto (Hsub D Hi)).
    intros d Hd. apply (deltas_from_legal ctx n S _ Hinto Hall E).
    exact (in_delta_incl S D _ d Hi Hd). }
  split; [exact Hpart|]. split.
  - intros E. split; apply Hpart; auto using incl_appl, incl_appr, incl_refl.
  - intros [E1 E2]. apply (legal_from_deltas ctx n S _ Hinto Hall).
    intros d (a & b & x & y & HD & H). apply in_app_or in HD.
    destruct HD as [HD | HD].
    + apply (deltas_from_legal ctx n S D1 Hinto
               (Hsub D1 (incl_appl _ (incl_refl _))) E1).
      exists a, b, x, y. auto.
    + apply (deltas_from_legal ctx n S D2 Hinto
               (Hsub D2 (incl_appr _ (incl_refl _))) E2).
      exists a, b, x, y. auto.
Qed.

Lemma legality_splits_over_dependences_witness :
  check_legality (Some isl_ctx_alloc_with_pet_options)
    (Some order_schedule) (Some (tie_dependency ++ tie_dependency)) =
  isl_bool_true.
Proof.
  assert (Hinto : schedule_into 1 order_schedule)
    by exact (proj1 (two_point_schedule_into order_schedule _ _ 0 1 eq_refl)).
  assert (Hall : schedules_all order_schedule
                   (tie_dependency ++ tie_dependency)).
  { intros a b [H | [H | []]]; injection H as <- <-;
      split; eexists; simpl; eauto. }
  apply (proj2 (legality_splits_over_dependences
                  (Some isl_ctx_alloc_with_pet_options) 1%nat
                  order_schedule tie_dependency tie_dependency Hinto Hall)).
  split; reflexivity.
Defined.

Lemma rescheduled_into k c n (S : isl_union_map) :
  length c = n -> schedule_into n S -> schedule_into n (reschedule k c S).
Proof.
  intros Hc Hinto a t Hin. unfold reschedule in Hin.
  apply in_map_iff in Hin. destruct Hin as ([a' t'] & E & Hin).
  injection E as <- <-. destruct (Hinto _ _ Hin) as [Ht Hl].
  cbn [snd pt_tuple pt_coords]. split; [exact Ht|].
  rewrite zip_with_length, Hl, Hc. apply Nat.min_id.
Qed.

Lemma in_rescheduled k c (S : isl_union_map) a t' :
  In (a, t') (reschedule k c S) <->
  exists t, In (a, t) S /\
            t' = {| pt_tuple := pt_tuple t;
                    pt_coords := zip_with (fun x ci => k * x + ci)
                                          (pt_coords t) c |}.
Proof.
  unfold reschedule. rewrite in_map_iff. split.
  - intros ([a0 t] & E & Hin). injection E as <- <-. eauto.
  - intros (t & Hin & ->). exists (a, t). auto.
Qed.

Lemma rescheduled_difference k c a b :
  length a = length c -> length b = length c ->
  coords_sub (zip_with (fun x ci => k * x + ci) a c)
             (zip_with (fun x ci => k * x + ci) b c) =
  map (Z.mul k) (coords_sub a b).
Proof.
  unfold coords_sub. revert a b.
  induction c as [|ci c IH]; intros [|x a] [|y b] Ha Hb;
    simpl in *; try discriminate; [reflexivity|].
  rewrite IH by lia. f_equal. lia.
Qed.

Lemma rescheduled_delta k c n (S D : isl_union_map) d' :
  length c = n -> schedule_into n S ->
  in_delta (reschedule k c S) D d' <->
  exists d, in_delta S D d /\ d' = map (Z.mul k) d.
Proof.
  intros Hc Hinto. unfold in_delta. split.
  - intros (a & b & x' & y' & HD & Hx & Hy & _ & ->).
    apply in_rescheduled in Hx, Hy.
    destruct Hx as (x & Hx & ->). destruct Hy as (y & Hy & ->).
    destruct (Hinto _ _ Hx) as [Tx Lx]. destruct (Hinto _ _ Hy) as [Ty Ly].
    exists (coords_sub (pt_coords y) (pt_coords x)). split.
    + exists a, b, x, y. repeat split; auto.
      unfold same_space. rewrite Tx, Ty, Lx, Ly, Nat.eqb_refl. reflexivity.
    + cbn [pt_coords]. apply rescheduled_difference; congruence.
  - intros (d & (a & b & x & y & HD & Hx & Hy & _ & ->) & ->).
    destruct (Hinto _ _ Hx) as [Tx Lx]. destruct (Hinto _ _ Hy) as [Ty Ly].
    eexists a, b, _, _. split; [exact HD|].
    split; [apply in_rescheduled; exists x; split; [exact Hx | reflexivity]|].
    split; [apply in_rescheduled; exists y; split; [exact Hy | reflexivity]|].
    cbn [pt_coords]. split.
    + unfold same_space. cbn [pt_tuple pt_coords].
      rewrite Tx, Ty, !zip_with_length, Lx, Ly, Nat.eqb_refl. reflexivity.
    + symmetry. apply rescheduled_difference; congruence.
Qed.

Lemma scaled_below_zero k d n :
  0 < k -> lex_le (map (Z.mul k) d) (repeat 0 n) = lex_le d (repeat 0 n).
Proof.
  intros Hk. unfold lex_le.
  assert (L : forall n, lex_lt (map (Z.mul k) d) (repeat 0 n) =
                        lex_lt d (repeat 0 n)).
  { induction d as [|x d IH]; intros [|m]; cbn [map repeat lex_lt];
      try reflexivity.
    rewrite IH.
    replace (k * x <? 0) with (x <? 0)
      by (destruct (x <? 0) eqn:E; symmetry;
          [apply Z.ltb_lt in E; apply Z.ltb_lt; nia
          |apply Z.ltb_ge in E; apply Z.ltb_ge; nia]).
    replace (k * x =? 0) with (x =? 0)
      by (destruct (x =? 0) eqn:E; symmetry;
          [apply Z.eqb_eq in E; apply Z.eqb_eq; nia
          |apply Z.eqb_neq in E; apply Z.eqb_neq; nia]).
    reflexivity. }
  assert (Q : forall n, list_eqb Z.eqb (map (Z.mul k) d) (repeat 0 n) =
                        list_eqb Z.eqb d (repeat 0 n)).
  { clear L.
    induction d as [|x d IH]; intros [|m]; cbn [map repeat list_eqb];
      try reflexivity.
    rewrite IH.
    replace (k * x =? 0) with (x =? 0)
      by (destruct (x =? 0) eqn:E; symmetry;
          [apply Z.eqb_eq in E; apply Z.eqb_eq; nia
          |apply Z.eqb_neq in E; apply Z.eqb_neq; nia]).
    reflexivity. }
  rewrite L, Q. reflexivity.
Qed.

(** X22.  Legality does not depend on the origin or the unit of time.  For
    a schedule map into one space that schedules every dependence, moving
    every schedule point [t] to [k * t + c], for a positive factor [k] and
    a tuple [c], leaves the verdict of [check_legality] unchanged. *)
Theorem legality_invariant_under_rescheduling ctx n k c (S D : isl_union_map) :
  0 < k -> length c = n ->
  schedule_into n S -> schedules_all S D ->
  check_legality ctx (Some (reschedule k c S)) (Some D) =
  check_legality ctx (Some S) (Some D).
Proof.
  intros Hk Hc Hinto Hall.
  destruct D as [|e D'] eqn:ED; [reflexivity|]. rewrite <- ED in *.
  assert (Hne : D <> []) by (rewrite ED; discriminate).
  assert (Hinto' := rescheduled_into k c n S Hc Hinto).
  assert (Hall' : schedules_all (reschedule k c S) D).
  { intros a b Hab. destruct (Hall a b Hab) as [[x Hx] [y Hy]].
    split; eexists; apply in_rescheduled; eauto. }
  destruct (verdict_cases ctx n S D Hne Hinto Hall)
    as [[E H] | [E (d & Hd & Hle)]];
    destruct (verdict_cases ctx n _ D Hne Hinto' Hall')
      as [[E' H'] | [E' (d' & Hd' & Hle')]];
    try congruence; exfalso.
  - apply (rescheduled_delta k c n S D d' Hc Hinto) in Hd'.
    destruct Hd' as (d & Hd & ->).
    rewrite (scaled_below_zero k d n Hk), (H d Hd) in Hle'. discriminate.
  - assert (Hd' : in_delta (reschedule k c S) D (map (Z.mul k) d))
      by (apply (rescheduled_delta k c n S D _ Hc Hinto); eauto).
    rewrite <- (scaled_below_zero k d n Hk), (H' _ Hd') in Hle.
    discriminate.
Qed.

Lemma legality_invariant_under_rescheduling_witness :
  check_legality (Some isl_ctx_alloc_with_pet_options)
    (Some (reschedule 3 [10] order_schedule)) (Some tie_dependency) =
  isl_bool_true.
Proof.
  destruct (two_point_schedule_into order_schedule _ _ 0 1 eq_refl)
    as [Hinto Hall].
  assert (Hk : 0 < 3) by lia.
  rewrite (legality_invariant_under_rescheduling
             (Some isl_ctx_alloc_with_pet_options) 1%nat 3 [10]
             order_schedule tie_dependency Hk eq_refl Hinto Hall).
  reflexivity.
Defined.

(** X23.  What the check answers when it cannot check.  A NULL dependence
    relation is answered as legal, whatever the schedule.  With
    dependences, a NULL schedule map, and a schedule map under which no
    dependence has its two ends scheduled in the same space, are answered
    with [isl_bool_error].  [transform_scop] replaces the schedule it read
    by the schedule of the SCoP only on the answer [isl_bool_false]: on
    [isl_bool_error] it reports the schedule as legal and generates code
    for it, also when the schedule is NULL. *)
Theorem unchecked_schedules_count_as_legal ctx (D : isl_union_map) :
  D <> [] ->
  (forall S, check_legality ctx S None = isl_bool_true) /\
  check_legality ctx None (Some D) = isl_bool_error /\
  (forall S : isl_union_map,
      (forall source sink ts tk,
          In (source, sink) D -> In (source, ts) S -> In (sink, tk) S ->
          same_space ts tk = false) ->
      check_legality ctx (Some S) (Some D) = isl_bool_error) /\
  (forall from_stdin dependencies scop_schedule,
      transform_scop ctx from_stdin dependencies scop_schedule =
      match check_schedule_legality ctx from_stdin dependencies with
      | isl_bool_false => ("Illegal schedule!"%string, scop_schedule)
      | _ => ("Schedule is legal!"%string, from_stdin)
      end) /\
  (forall scop_schedule,
      transform_scop ctx None (Some D) scop_schedule =
      ("Schedule is legal!"%string, None)).
Proof.
  intros Hne.
  assert (Hnull : check_legality ctx None (Some D) = isl_bool_error)
    by (destruct D; [contradiction | reflexivity]).
  split; [reflexivity|]. split; [exact Hnull|]. split; [|split].
  - intros S Hno. unfold check_legality.
    destruct D as [|e D'] eqn:ED; [contradiction|]. rewrite <- ED in *.
    replace (isl_bool_holds (isl_union_map_is_empty (Some D))) with false
      by (rewrite ED; reflexivity).
    cbn [isl_union_map_copy isl_union_map_apply_domain
           isl_union_map_apply_range isl_union_map_deltas isl_union_set_copy].
    match goal with
    | |- context [deltas_points ?m] =>
        assert (E : deltas_points m = [])
    end.
    { match goal with
      | |- ?l = [] => destruct l as [|p rest] eqn:El; [reflexivity|]
      end.
      exfalso. assert (Hp : In p (p :: rest)) by (left; reflexivity).
      rewrite <- El in Hp. apply in_deltas_points in Hp.
      destruct Hp as (x & y & Hxy & Hs & _).
      apply in_schedule_pairs in Hxy.
      destruct Hxy as (a & b & HD & Hx & Hy).
      rewrite (Hno a b x y HD Hx Hy) in Hs. discriminate. }
    rewrite E. reflexivity.
  - intros from_stdin dependencies scop_schedule. unfold transform_scop.
    destruct (check_schedule_legality ctx from_stdin dependencies);
      reflexivity.
  - intros scop_schedule. unfold transform_scop, check_schedule_legality.
    cbn [isl_schedule_get_map]. rewrite Hnull. reflexivity.
Qed.

Lemma unchecked_schedules_count_as_legal_witness :
  check_legality (Some isl_ctx_alloc_with_pet_options)
    (Some []) (Some tie_dependency) = isl_bool_error /\
  transform_scop (Some isl_ctx_alloc_with_pet_options)
    None (Some tie_dependency) (Some nest) =
  ("Schedule is legal!"%string, None).
Proof.
  assert (Hne : tie_dependency <> []) by discriminate.
  destruct (unchecked_schedules_count_as_legal
              (Some isl_ctx_alloc_with_pet_options) tie_dependency Hne)
    as (_ & _ & Hno & _ & Hnull).
  split; [|exact (Hnull (Some nest))].
  apply (Hno []). intros source sink ts tk _ [].
Defined.

End LegalityMoreFacts.

(** ** The experiment with the schedule tree *)

Module ExperimentFacts.
Import Isl Transformations Experiments Examples TreeFacts TransformationFacts.

Lemma if_same {A} (b : bool) (x : A) : (if b then x else x) = x.
Proof.
  destruct b; reflexivity.
Qed.

(** X24.  The experiment [tree_manipulation] and [tadashi_interchange].  On
    a schedule of a domain over two nested bands, [tree_manipulation] lifts
    the inner band above the outer one: it ends on a new band with the
    partial schedule of the inner band, directly under the domain, over the
    outer band, which keeps its annotations; what it calls [leaf] is that
    outer band.  [tadashi_interchange] on the outer band puts the same
    partial schedules at the same two levels, but there the band that is
    made anew is the lower one, and the node returned is the lower one. *)
Theorem tree_manipulation_lifts_the_inner_band ctx d b1 b2 c :
  isl_schedule_tree_is_subtree_anchored c = false ->
  let fresh := isl_schedule_band_from_multi_union_pw_aff in
  let schedule :=
    {| schedule_ctx := ctx;
       schedule_root := DomainNode d (BandNode b1 (BandNode b2 c)) |} in
  exists jn leaf n',
    tree_manipulation (Some schedule) = (Some jn, Some leaf) /\
    node_schedule jn =
    {| schedule_ctx := ctx;
       schedule_root :=
         DomainNode d (BandNode (fresh (band_mupa b2)) (BandNode b1 c)) |} /\
    node_path jn = [0%nat] /\
    node_schedule leaf = node_schedule jn /\
    node_path leaf = [0%nat; 0%nat] /\
    node_tree leaf = Some (BandNode b1 c) /\
    tadashi_interchange
      (Some {| node_schedule := schedule; node_path := [0%nat] |}) =
    Some n' /\
    node_schedule n' =
    {| schedule_ctx := ctx;
       schedule_root :=
         DomainNode d (BandNode b2 (BandNode (fresh (band_mupa b1)) c)) |} /\
    node_path n' = [0%nat; 0%nat].
Proof.
  intros Ha fresh schedule.
  unfold tree_manipulation, tadashi_interchange, isl_schedule_node_get_child,
    isl_schedule_node_first_child, isl_schedule_node_child.
  repeat (cbn -[only_implicit_leaf]; rewrite ?if_same, ?Ha).
  do 3 eexists. repeat split.
Qed.

Lemma tree_manipulation_lifts_the_inner_band_witness :
  exists jn leaf,
    tree_manipulation (Some nest) = (Some jn, Some leaf) /\
    node_path jn = [0%nat] /\
    node_tree leaf = Some (BandNode band_i LeafNode).
Proof.
  destruct (tree_manipulation_lifts_the_inner_band
              isl_ctx_alloc_with_pet_options [S_domain] band_i band_j
              LeafNode eq_refl)
    as (jn & leaf & n' & E & _ & Hp & _ & _ & Ht & _).
  exists jn, leaf. split; [exact E|]. split; [exact Hp | exact Ht].
Defined.

End ExperimentFacts.

(** ** The variable shifts *)

Module ShiftVarFacts.
Import Isl IslMore Transformations TransformationsMore ShiftPieces Examples
       ExamplesMore TreeFacts TransformationFacts TransformationMoreFacts.

Lemma find_in_map {A B} (f : B -> bool) (g : A -> B) l :
  find f (map g l) = option_map g (find (fun x => f (g x)) l).
Proof.
  induction l as [|a l IH]; simpl; [reflexivity|].
  destruct (f (g a)); [reflexivity | exact IH].
Qed.

Section Pieces.

Variable piece : nat -> isl_set -> isl_pw_aff.
Hypothesis piece_space :
  forall j s, set_space (pa_domain (piece j s)) = set_space s.
Hypothesis piece_covers :
  forall j s, points_subset (set_points s)
                (set_points (pa_domain (piece j s))) = true.

(** The loop of [_shift_partial] when the expression of round [j] is
    [piece j]. *)
Lemma shift_loop_pieces (F : Z -> option isl_pw_aff) rest :
  forall pre acc,
    distinct_spaces (pre ++ rest) = true ->
    (forall q, In q acc ->
       exists s, In s pre /\ set_space (pa_domain q) = set_space s) ->
    (forall j s, nth_error (pre ++ rest) j = Some s ->
                 F (Z.of_nat j) = Some (piece j s)) ->
    fold_left (fun upa set_idx => isl_union_pw_aff_add_pw_aff upa (F set_idx))
      (map Z.of_nat (seq (length pre) (length rest))) (Some acc) =
    Some (acc ++ shift_pieces rest (length pre) piece).
Proof.
  induction rest as [|s rest IH]; intros pre acc Hd Hacc HF.
  - simpl. rewrite app_nil_r. reflexivity.
  - cbn [length seq map fold_left shift_pieces].
    assert (G : nth_error (pre ++ s :: rest) (length pre) = Some s)
      by (rewrite nth_error_app2, Nat.sub_diag by lia; reflexivity).
    rewrite (HF _ _ G), add_pw_aff_some.
    replace (pre ++ s :: rest) with ((pre ++ [s]) ++ rest) in *
      by (rewrite <- app_assoc; reflexivity).
    replace (S (length pre)) with (length (pre ++ [s]))
      by (rewrite length_app; simpl; lia).
    destruct (points_is_empty (set_points (pa_domain (piece (length pre) s))))
      eqn:E.
    + cbn [app]. apply (IH (pre ++ [s]) acc Hd); [|exact HF].
      intros q Hq. destruct (Hacc q Hq) as (s' & Hs' & Hq').
      exists s'. split; [apply in_or_app; left; exact Hs' | exact Hq'].
    + rewrite add_part_fresh.
      * rewrite app_assoc. apply (IH (pre ++ [s]) _ Hd); [|exact HF].
        intros q Hq. apply in_app_or in Hq. destruct Hq as [Hq | [<- | []]].
        -- destruct (Hacc q Hq) as (s' & Hs' & Hq').
           exists s'. split; [apply in_or_app; left; exact Hs' | exact Hq'].
        -- exists s. split; [apply in_or_app; right; left; reflexivity|].
           apply piece_space.
      * intros q Hq. destruct (Hacc q Hq) as (s' & Hs' & Hq').
        rewrite Hq', piece_space.
        rewrite <- app_assoc in Hd. simpl in Hd.
        exact (distinct_spaces_app _ _ _ _ Hd Hs').
Qed.

Lemma covered_not_empty j s :
  points_is_empty (set_points s) = false ->
  points_is_empty (set_points (pa_domain (piece j s))) = false.
Proof.
  intros He. pose proof (piece_covers j s) as H.
  destruct (set_points s) as [|[|x a]]; try discriminate;
    destruct (set_points (pa_domain (piece j s))) as [|[|y l]];
    try reflexivity; simpl in H; discriminate.
Qed.

Lemma find_shift_piece domains :
  forall start j s,
    distinct_spaces domains = true ->
    nth_error domains j = Some s ->
    points_is_empty (set_points s) = false ->
    find_part (shift_pieces domains start piece) (set_space s) =
    Some (piece (j + start)%nat s).
Proof.
  unfold find_part.
  induction domains as [|a rest IH]; intros start j s Hd Hn He.
  - destruct j; discriminate.
  - destruct (distinct_spaces_tail _ _ Hd) as [Hd' Ha].
    destruct j as [|j]; simpl in Hn.
    + injection Hn as ->. cbn [shift_pieces].
      rewrite (covered_not_empty start s He). cbn [app find].
      rewrite piece_space, isl_space_is_equal_refl. reflexivity.
    + cbn [shift_pieces].
      assert (Hin : In s rest) by (eapply nth_error_In; eauto).
      destruct (points_is_empty (set_points (pa_domain (piece start a)))).
      * cbn [app].
        rewrite (IH (S start) j s Hd' Hn He), Nat.add_succ_r. reflexivity.
      * cbn [app find]. rewrite piece_space, (Ha s Hin).
        rewrite (IH (S start) j s Hd' Hn He), Nat.add_succ_r. reflexivity.
Qed.

Lemma shift_pieces_cover domains :
  forall start,
    distinct_spaces domains = true ->
    isl_union_set_is_subset domains
      (map pa_domain (shift_pieces domains start piece)) = true.
Proof.
  intros start Hd. unfold isl_union_set_is_subset.
  apply forallb_forall. intros s Hs.
  destruct (points_is_empty (set_points s)) eqn:E; [reflexivity|].
  cbn [orb]. destruct (In_nth_error _ _ Hs) as [j Hj].
  pose proof (find_shift_piece domains start j s Hd Hj E) as F.
  unfold find_part in F. unfold find_set.
  rewrite find_in_map, F. cbn [option_map]. apply piece_covers.
Qed.

(** The sum of a union expression and the pieces on its domains, at a point
    of its [j]-th piece. *)
Lemma add_shift_pieces_eval (upa : isl_union_pw_aff) j pa p :
  distinct_spaces (map pa_domain upa) = true ->
  nth_error upa j = Some pa ->
  isl_set_contains (pa_domain pa) p = true ->
  isl_union_pw_aff_eval
    (isl_union_pw_aff_add upa (shift_pieces (map pa_domain upa) 0 piece)) p =
  Some (pa_aff pa (pt_coords p) +
        pa_aff (piece j (pa_domain pa)) (pt_coords p)).
Proof.
  intros Hd Hn Hp.
  assert (He : points_is_empty (set_points (pa_domain pa)) = false).
  { unfold isl_set_contains in Hp. apply andb_true_iff in Hp.
    exact (coords_in_not_empty _ _ (proj2 Hp)). }
  assert (Hfind : find_part (shift_pieces (map pa_domain upa) 0 piece)
                    (set_space (pa_domain pa)) =
                  Some (piece j (pa_domain pa))).
  { rewrite (find_shift_piece _ 0 j (pa_domain pa) Hd).
    - rewrite Nat.add_0_r. reflexivity.
    - rewrite nth_error_map, Hn. reflexivity.
    - exact He. }
  unfold isl_union_pw_aff_add.
  set (pieces := shift_pieces (map pa_domain upa) 0 piece) in *.
  clearbody pieces.
  remember (piece j (pa_domain pa)) as x eqn:Hx.
  assert (Sx : set_space (pa_domain x) = set_space (pa_domain pa))
    by (rewrite Hx; apply piece_space).
  assert (Cx : points_subset (set_points (pa_domain pa))
                 (set_points (pa_domain x)) = true)
    by (rewrite Hx; apply piece_covers).
  clear Hx. revert j Hn.
  induction upa as [|a upa IH]; intros j Hn; [destruct j; discriminate|].
  cbn [map] in Hd. destruct (distinct_spaces_tail _ _ Hd) as [Hd' Ha].
  cbn [flat_map]. rewrite union_pw_aff_eval_app.
  destruct j as [|j]; simpl in Hn.
  - injection Hn as ->. rewrite Hfind.
    assert (Hc : isl_set_contains (pa_domain (isl_pw_aff_add pa x)) p = true).
    { unfold isl_set_contains in *. cbn [isl_pw_aff_add pa_domain set_space
        set_points].
      apply andb_true_iff in Hp. destruct Hp as [Hs Hc].
      rewrite Hs, coords_in_intersect, Hc. cbn [andb].
      clear - Cx Hc. destruct (set_points (pa_domain pa)) as [|l],
        (set_points (pa_domain x)) as [|l']; try reflexivity;
        try discriminate.
      simpl in *. rewrite forallb_forall in Cx.
      apply existsb_exists in Hc. destruct Hc as (y & Hy & E).
      apply list_eqb_Z_eq in E. subst y. exact (Cx _ Hy). }
    unfold isl_set_contains in Hc. apply andb_true_iff in Hc.
    cbv zeta. rewrite (coords_in_not_empty _ _ (proj2 Hc)).
    cbn [isl_union_pw_aff_eval]. unfold isl_pw_aff_eval, isl_set_contains.
    rewrite (proj1 Hc), (proj2 Hc). reflexivity.
  - assert (Hin : In (pa_domain pa) (map pa_domain upa))
      by (apply in_map; eapply nth_error_In; eauto).
    assert (Hne : isl_space_is_equal (set_space (pa_domain a))
                    (set_space (pa_domain pa)) = false) by (apply Ha, Hin).
    match goal with
    | |- match ?e with Some _ => _ | None => _ end = _ =>
        assert (Hnone : e = None)
    end.
    { destruct (find_part pieces (set_space (pa_domain a))) as [pa2|]; auto.
      cbv zeta.
      destruct (points_is_empty
                  (set_points (pa_domain (isl_pw_aff_add a pa2)))); auto.
      cbn [isl_union_pw_aff_eval]. unfold isl_pw_aff_eval.
      destruct (isl_set_contains (pa_domain (isl_pw_aff_add a pa2)) p) eqn:C;
        auto.
      exfalso.
      assert (C' : isl_set_contains
                     {| set_space := set_space (pa_domain a);
                        set_points := Universe |} p = true).
      { unfold isl_set_contains in *. simpl in *.
        apply andb_true_iff in C. rewrite (proj1 C). reflexivity. }
      pose proof (contains_same_space _ _ _ C' Hp) as K.
      cbn [set_space] in K. congruence. }
    rewrite Hnone. exact (IH Hd' j Hn).
Qed.

End Pieces.

Lemma var_piece_space idx id_idx j s :
  set_space (pa_domain (var_piece idx id_idx j s)) = set_space s.
Proof. unfold var_piece. destruct (idx =? Z.of_nat j); reflexivity. Qed.

Lemma var_piece_covers idx id_idx j s :
  points_subset (set_points s)
    (set_points (pa_domain (var_piece idx id_idx j s))) = true.
Proof.
  unfold var_piece. destruct (idx =? Z.of_nat j); cbn [pa_domain set_points].
  - destruct (set_points s); reflexivity.
  - apply points_subset_refl.
Qed.

Lemma lost_in_the_loop (F : Z -> option isl_pw_aff) l x :
  In x l -> F x = None ->
  forall acc,
    fold_left (fun upa set_idx => isl_union_pw_aff_add_pw_aff upa (F set_idx))
      l acc = None.
Proof.
  intros Hin HF.
  assert (N : forall l',
             fold_left
               (fun upa set_idx => isl_union_pw_aff_add_pw_aff upa (F set_idx))
               l' None = None)
    by (induction l' as [|y l' IH]; simpl; auto).
  induction l as [|y l IH]; intros acc; [contradiction|].
  cbn [fold_left]. destruct Hin as [-> | Hin]; [|apply IH, Hin].
  rewrite HF. destruct acc; apply N.
Qed.

(** X25.  The variable shifts.  The index [id_idx] of the coordinate is a
    [long] that reaches the kernel as an [int]: let [i] be [id_idx] so
    reduced, which is [id_idx] itself when it fits an [int].  On a
    one-dimensional named band whose pieces live in distinct spaces,
    [tadashi_partial_shift_var] and [tadashi_full_shift_var] with the index
    [pa_idx] of a piece, for [i] the index of a dimension of the statement
    of that piece, all of whose dimensions are named, add to the value of
    every instance of that statement its coordinate [i], and leave the
    other statements where they were.  When the statement has a dimension
    without a name, or [i] is not the index of one of its dimensions, the
    two shifts return NULL. *)
Theorem shift_var_adds_a_coordinate n b c id upa pa_idx id_idx pa0 name dims :
  node_tree n = Some (BandNode b c) ->
  band_mupa b = {| mupa_tuple_id := Some id; mupa_list := [upa] |} ->
  distinct_spaces (map pa_domain upa) = true ->
  isl_schedule_tree_is_subtree_anchored c = false ->
  0 <= pa_idx ->
  nth_error upa (Z.to_nat pa_idx) = Some pa0 ->
  set_space (pa_domain pa0) = set_space_of name dims ->
  (forallb (fun d : option isl_id =>
              match d with Some _ => true | None => false end) dims = true ->
   0 <= to_int id_idx < Z.of_nat (length dims) ->
   exists n' b',
     tadashi_partial_shift_var (Some n) pa_idx id_idx = Returns (Some n') /\
     tadashi_full_shift_var (Some n) pa_idx id_idx = Returns (Some n') /\
     node_path n' = node_path n /\
     node_tree n' = Some (BandNode b' c) /\
     mupa_tuple_id (band_mupa b') = Some id /\
     forall j pa p,
       nth_error upa j = Some pa ->
       isl_set_contains (pa_domain pa) p = true ->
       isl_multi_union_pw_aff_eval (band_mupa b') p =
       Some [pa_aff pa (pt_coords p) +
             if pa_idx =? Z.of_nat j
             then nth (Z.to_nat (to_int id_idx)) (pt_coords p) 0 else 0]) /\
  (In None dims \/ ~ (0 <= to_int id_idx < Z.of_nat (length dims)) ->
   tadashi_partial_shift_var (Some n) pa_idx id_idx = Returns None /\
   tadashi_full_shift_var (Some n) pa_idx id_idx = Returns None) /\
  (- 2 ^ 31 <= id_idx < 2 ^ 31 -> to_int id_idx = id_idx).
Proof.
  intros Ht Hm Hd Ha Hi Hsel Hs.
  pose proof (pa_id_value (pa_domain pa0) name dims id_idx Hs) as Hid.
  assert (Hget : forall j s,
             nth_error (map pa_domain upa) j = Some s ->
             isl_set_list_get_at (Some (map pa_domain upa)) (Z.of_nat j) =
             Some s).
  { intros j s Hj. unfold isl_set_list_get_at.
    replace (Z.of_nat j <? 0) with false by (symmetry; apply Z.ltb_ge; lia).
    rewrite Nat2Z.id. exact Hj. }
  assert (Hsel' : nth_error (map pa_domain upa) (Z.to_nat pa_idx) =
                  Some (pa_domain pa0))
    by (rewrite nth_error_map, Hsel; reflexivity).
  assert (Hunfold : forall fold_result,
             fold_left
               (fun upa0 set_idx =>
                  isl_union_pw_aff_add_pw_aff upa0
                    (if pa_idx =? set_idx
                     then _pa_id
                            (isl_set_list_get_at (Some (map pa_domain upa))
                               set_idx) id_idx
                     else _pa_val
                            (isl_set_list_get_at (Some (map pa_domain upa))
                               set_idx) 0))
               (map Z.of_nat (seq 0 (length (map pa_domain upa)))) (Some []) =
             fold_result ->
             _shift_partial (Some n) _pa_id pa_idx id_idx =
             Returns
               (isl_schedule_node_band_shift (Some n)
                  (isl_multi_union_pw_aff_set_tuple_id
                     (isl_multi_union_pw_aff_from_union_pw_aff fold_result)
                     (Some id)))).
  { intros fold_result <-. unfold _shift_partial.
    cbn [isl_schedule_node_get_ctx option_map
           isl_schedule_node_band_get_partial_schedule].
    rewrite Ht, Hm.
    cbn [isl_multi_union_pw_aff_get_tuple_id mupa_tuple_id
           isl_multi_union_pw_aff_dim mupa_list length Z.of_nat
           Pos.of_succ_nat Z.eqb Pos.eqb negb
           isl_multi_union_pw_aff_get_at nth_error
           isl_union_pw_aff_domain option_map isl_union_set_get_set_list
           isl_union_pw_aff_empty_ctx isl_set_list_n_set].
    rewrite Nat2Z.id. reflexivity. }
  unfold tadashi_partial_shift_var, tadashi_full_shift_var.
  split; [|split; [|apply to_int_small]].
  - intros Hnamed Hrange. rewrite Hnamed in Hid.
    replace ((0 <=? to_int id_idx) &&
             (to_int id_idx <? Z.of_nat (length dims)))
      with true in Hid
      by (symmetry; apply andb_true_iff; split;
          [apply Z.leb_le | apply Z.ltb_lt]; lia).
    cbn [andb] in Hid.
    set (pieces := shift_pieces (map pa_domain upa) 0
                     (var_piece pa_idx (to_int id_idx))).
    set (shift := {| mupa_tuple_id := Some id; mupa_list := [pieces] |}).
    set (b' := set_band_mupa b
                 {| mupa_tuple_id := Some id;
                    mupa_list := [isl_union_pw_aff_add upa pieces] |}).
    assert (E : _shift_partial (Some n) _pa_id pa_idx id_idx =
                Returns (isl_schedule_node_graft_tree n (BandNode b' c))).
    { rewrite (Hunfold (Some pieces)).
      - cbn [isl_multi_union_pw_aff_from_union_pw_aff
               isl_multi_union_pw_aff_set_tuple_id mupa_list].
        fold shift. f_equal.
        unfold isl_schedule_node_band_shift. rewrite Ht.
        assert (S1 : isl_space_is_equal
                       (isl_multi_union_pw_aff_get_space (band_mupa b))
                       (isl_multi_union_pw_aff_get_space shift) = true)
          by (rewrite Hm; apply isl_space_is_equal_refl).
        rewrite S1. cbn [isl_schedule_tree_is_subtree_anchored]. rewrite Ha.
        cbn [negb andb]. unfold isl_schedule_band_shift.
        assert (S2 : isl_union_set_is_subset
                       (isl_multi_union_pw_aff_domain (band_mupa b))
                       (isl_multi_union_pw_aff_domain shift) = true).
        { rewrite Hm. unfold isl_multi_union_pw_aff_domain. simpl.
          apply (shift_pieces_cover _ (var_piece_space pa_idx (to_int id_idx))
                   (var_piece_covers pa_idx (to_int id_idx))), Hd. }
        rewrite S2. unfold isl_multi_union_pw_aff_add. rewrite S1.
        rewrite Hm. reflexivity.
      - apply (shift_loop_pieces _ (var_piece_space pa_idx (to_int id_idx))
                 _ (map pa_domain upa) [] []);
          [exact Hd | intros q [] |].
        intros j s Hj. cbn [app] in Hj. rewrite (Hget j s Hj).
        unfold var_piece. destruct (pa_idx =? Z.of_nat j) eqn:Ej.
        + apply Z.eqb_eq in Ej.
          assert (Es : s = pa_domain pa0)
            by (rewrite Ej, Nat2Z.id in Hsel'; congruence).
          rewrite Es. exact Hid.
        + reflexivity. }
    destruct (graft_tree_defined n (BandNode b' c) _ Ht) as [n' G].
    destruct (graft_tree_inv _ _ _ G) as (Hp & Hn' & _).
    exists n', b'. rewrite E, G.
    repeat (split; [reflexivity || assumption|]).
    intros j pa p Hj Hc. unfold isl_multi_union_pw_aff_eval.
    cbn [b' set_band_mupa band_mupa mupa_list eval_all]. unfold pieces.
    rewrite (add_shift_pieces_eval _ (var_piece_space pa_idx (to_int id_idx))
               (var_piece_covers pa_idx (to_int id_idx)) upa j pa p Hd Hj Hc).
    unfold var_piece. destruct (pa_idx =? Z.of_nat j); reflexivity.
  - intros Hbad.
    assert (Hnone : _pa_id (Some (pa_domain pa0)) id_idx = None).
    { rewrite Hid. destruct Hbad as [Hin | Hr].
      - replace (forallb _ dims) with false; [reflexivity|].
        symmetry. apply not_true_is_false. intros K.
        rewrite forallb_forall in K. specialize (K None Hin). discriminate.
      - destruct (forallb _ dims); [|reflexivity].
        replace ((0 <=? to_int id_idx) &&
                 (to_int id_idx <? Z.of_nat (length dims)))
          with false; [reflexivity|].
        symmetry. apply not_true_is_false. intros K.
        apply andb_true_iff in K. destruct K as [K1 K2].
        apply Z.leb_le in K1. apply Z.ltb_lt in K2. lia. }
    rewrite (Hunfold None); [split; reflexivity|].
    apply (lost_in_the_loop
             (fun set_idx =>
                if pa_idx =? set_idx
                then _pa_id
                       (isl_set_list_get_at (Some (map pa_domain upa))
                          set_idx) id_idx
                else _pa_val
                       (isl_set_list_get_at (Some (map pa_domain upa))
                          set_idx) 0)
             _ pa_idx).
    + apply in_map_iff. exists (Z.to_nat pa_idx). split; [lia|].
      apply in_seq. split; [lia|]. cbn [Nat.add].
      apply nth_error_Some. rewrite Hsel'. discriminate.
    + rewrite Z.eqb_refl, <- (Z2Nat.id pa_idx Hi) at 1.
      rewrite (Hget _ _ Hsel'). exact Hnone.
Qed.

Lemma shift_var_adds_a_coordinate_witness :
  exists n',
    tadashi_partial_shift_var (Some two_node) 1 0 = Returns (Some n') /\
    band_value (Some n') (instance "B" [1]) = Some [2] /\
    band_value (Some n') (instance "A" [1]) = Some [1] /\
    tadashi_full_shift_var (Some two_node) 1 1 = Returns None /\
    tadashi_partial_shift_var (Some two_node) 1 (2 ^ 32) = Returns (Some n').
Proof.
  assert (Hi : 0 <= 1) by lia.
  destruct (shift_var_adds_a_coordinate two_node two_band LeafNode
              "L_0"%string _ 1 0 _ (Some "B"%string) [Some "i"%string]
              eq_refl eq_refl eq_refl eq_refl Hi eq_refl eq_refl)
    as [Hok _].
  destruct (shift_var_adds_a_coordinate two_node two_band LeafNode
              "L_0"%string _ 1 1 _ (Some "B"%string) [Some "i"%string]
              eq_refl eq_refl eq_refl eq_refl Hi eq_refl eq_refl)
    as (_ & Hbad & _).
  assert (Hr : 0 <= to_int 0 < Z.of_nat (length [Some "i"%string]))
    by (vm_compute; split; congruence).
  destruct (Hok eq_refl Hr) as (n' & b' & E & _ & _ & T & _ & Hv).
  exists n'. split; [exact E|]. unfold band_value. rewrite T.
  split; [exact (Hv 1%nat _ (instance "B" [1]) eq_refl eq_refl)|].
  split; [exact (Hv 0%nat _ (instance "A" [1]) eq_refl eq_refl)|].
  split; [apply Hbad; right; vm_compute; intros [_ H]; discriminate H|].
  rewrite <- E. vm_compute. reflexivity.
Defined.

End ShiftVarFacts.

(** ** The experiment with shifts *)

Module BrutusFacts.
Import Isl Transformations ShiftPieces Brutus Examples ExamplesMore TreeFacts
       TransformationFacts TransformationMoreFacts ShiftVarFacts.

Lemma brutus_piece_space j s :
  set_space (pa_domain (brutus_piece j s)) = set_space s.
Proof. reflexivity. Qed.

Lemma brutus_piece_covers j s :
  points_subset (set_points s) (set_points (pa_domain (brutus_piece j s))) =
  true.
Proof. apply points_subset_refl. Qed.

Lemma proc_upa_pieces upa :
  distinct_spaces (map pa_domain upa) = true ->
  proc_upa (Some upa) =
  Some (shift_pieces (map pa_domain upa) 0 brutus_piece).
Proof.
  intros Hd. unfold proc_upa.
  cbn [isl_union_pw_aff_get_ctx isl_union_pw_aff_domain option_map
         isl_union_set_get_set_list isl_val_int_from_si
         isl_union_pw_aff_val_on_domain isl_union_pw_aff_get_space
         isl_union_pw_aff_empty_space isl_set_list_n_set].
  rewrite Nat2Z.id.
  apply (shift_loop_pieces brutus_piece brutus_piece_space
           (fun set_idx =>
              isl_pw_aff_val_on_domain
                (isl_set_copy
                   (isl_set_list_get_at (Some (map pa_domain upa)) set_idx))
                (Some (100 + 10 * set_idx)))
           (map pa_domain upa) [] []);
    [exact Hd | intros q [] |].
  intros j s Hj. cbn [app] in Hj. unfold isl_set_list_get_at.
  replace (Z.of_nat j <? 0) with false by (symmetry; apply Z.ltb_ge; lia).
  rewrite Nat2Z.id, Hj. reflexivity.
Qed.

(** X26.  The experiment [brutus].  On a band with one dimension whose
    pieces live in distinct spaces, with or without a tuple identifier,
    [brutus] builds a shift in the space of the band that is the constant
    [100 + 10 * j] on the [j]-th statement, and [shift_and_print] with it
    returns the node at the same place with that constant added to the
    value of every instance of the [j]-th statement. *)
Theorem brutus_shifts_by_statement n b c upa :
  node_tree n = Some (BandNode b c) ->
  mupa_list (band_mupa b) = [upa] ->
  distinct_spaces (map pa_domain upa) = true ->
  isl_schedule_tree_is_subtree_anchored c = false ->
  exists n' b',
    brutus (Some n) =
    Some {| mupa_tuple_id := mupa_tuple_id (band_mupa b);
            mupa_list := [shift_pieces (map pa_domain upa) 0 brutus_piece] |} /\
    shift_and_print (Some n) (brutus (Some n)) = Some n' /\
    node_path n' = node_path n /\
    node_tree n' = Some (BandNode b' c) /\
    mupa_tuple_id (band_mupa b') = mupa_tuple_id (band_mupa b) /\
    forall j pa p,
      nth_error upa j = Some pa ->
      isl_set_contains (pa_domain pa) p = true ->
      isl_multi_union_pw_aff_eval (band_mupa b') p =
      Some [pa_aff pa (pt_coords p) + (100 + 10 * Z.of_nat j)].
Proof.
  intros Ht Hm Hd Ha.
  set (pieces := shift_pieces (map pa_domain upa) 0 brutus_piece).
  set (shift := {| mupa_tuple_id := mupa_tuple_id (band_mupa b);
                   mupa_list := [pieces] |}).
  set (b' := set_band_mupa b
               {| mupa_tuple_id := mupa_tuple_id (band_mupa b);
                  mupa_list := [isl_union_pw_aff_add upa pieces] |}).
  assert (Hb : brutus (Some n) = Some shift).
  { unfold brutus.
    cbn [isl_schedule_node_get_ctx option_map
           isl_schedule_node_band_get_partial_schedule
           isl_schedule_node_band_get_space].
    rewrite Ht.
    cbn [isl_multi_union_pw_aff_get_list option_map
           isl_union_pw_aff_list_size isl_union_pw_aff_list_alloc].
    rewrite Hm.
    change (Z.to_nat (Z.of_nat (length [upa]))) with 1%nat.
    change (Z.of_nat (length [upa]) <? 0) with false.
    cbn [seq map fold_left Z.of_nat isl_union_pw_aff_list_get_at
           Z.ltb Z.compare Z.to_nat nth_error].
    match goal with
    | |- context [proc_upa ?x] =>
        replace (proc_upa x) with (Some pieces)
          by (symmetry; exact (proc_upa_pieces upa Hd))
    end.
    cbn [isl_union_pw_aff_list_add app
           isl_multi_union_pw_aff_from_union_pw_aff_list length].
    unfold isl_multi_union_pw_aff_get_space, isl_space_dim, space_tuple_name.
    cbn [set_space_of space_out tuple_dim_ids tuple_name].
    rewrite Hm. reflexivity. }
  assert (Hband : band_mupa b =
                  {| mupa_tuple_id := mupa_tuple_id (band_mupa b);
                     mupa_list := [upa] |})
    by (destruct (band_mupa b); simpl in *; congruence).
  assert (E : shift_and_print (Some n) (Some shift) =
              isl_schedule_node_graft_tree n (BandNode b' c)).
  { unfold shift_and_print, isl_schedule_node_band_shift. rewrite Ht.
    assert (S1 : isl_space_is_equal
                   (isl_multi_union_pw_aff_get_space (band_mupa b))
                   (isl_multi_union_pw_aff_get_space shift) = true)
      by (rewrite Hband at 1; apply isl_space_is_equal_refl).
    rewrite S1. cbn [isl_schedule_tree_is_subtree_anchored]. rewrite Ha.
    cbn [negb andb]. unfold isl_schedule_band_shift.
    assert (S2 : isl_union_set_is_subset
                   (isl_multi_union_pw_aff_domain (band_mupa b))
                   (isl_multi_union_pw_aff_domain shift) = true).
    { unfold isl_multi_union_pw_aff_domain. rewrite Hm. simpl.
      apply (shift_pieces_cover _ brutus_piece_space brutus_piece_covers),
        Hd. }
    rewrite S2. unfold isl_multi_union_pw_aff_add. rewrite S1.
    rewrite Hm. reflexivity. }
  destruct (graft_tree_defined n (BandNode b' c) _ Ht) as [n' G].
  destruct (graft_tree_inv _ _ _ G) as (Hp & Hn' & _).
  exists n', b'. rewrite Hb, E, G.
  repeat (split; [reflexivity || assumption|]).
  intros j pa p Hj Hc. unfold isl_multi_union_pw_aff_eval.
  cbn [b' set_band_mupa band_mupa mupa_list eval_all]. unfold pieces.
  rewrite (add_shift_pieces_eval _ brutus_piece_space brutus_piece_covers
             upa j pa p Hd Hj Hc).
  reflexivity.
Qed.

Lemma brutus_shifts_by_statement_witness :
  exists n',
    shift_and_print (Some anonymous_band) (brutus (Some anonymous_band)) =
    Some n' /\
    band_value (Some n') (instance "T" [3]) = Some [103] /\
    exists m',
      shift_and_print (Some two_node) (brutus (Some two_node)) = Some m' /\
      band_value (Some m') (instance "B" [1]) = Some [111].
Proof.
  destruct (brutus_shifts_by_statement anonymous_band _ LeafNode _
              eq_refl eq_refl eq_refl eq_refl)
    as (n' & b' & _ & E & _ & T & _ & Hv).
  destruct (brutus_shifts_by_statement two_node _ LeafNode _
              eq_refl eq_refl eq_refl eq_refl)
    as (m' & c' & _ & E' & _ & T' & _ & Hv').
  exists n'. split; [exact E|]. unfold band_value. rewrite T.
  split; [exact (Hv 0%nat _ (instance "T" [3]) eq_refl eq_refl)|].
  exists m'. split; [exact E'|]. rewrite T'.
  exact (Hv' 1%nat _ (instance "B" [1]) eq_refl eq_refl).
Defined.

End BrutusFacts.
